(** * The GPU all-reduce-scatter creator pass

    A shallow embedding of [AllReduceScatterCreator::Run]
    (tensorflow/compiler/xla/service/gpu/gpu_all_reduce_scatter_creator.cc)
    over an arena model of the HLO graph, and the properties of the pass. *)

From Stdlib Require Import ZArith Lia Sorted.
From stdpp Require Import base tactics option list numbers.

Open Scope Z_scope.

(** ** Machine integers *)

(** [int64] values are kept in [Z]; an increment wraps around in two's
    complement. *)
Definition int64_min : Z := - 2 ^ 63.
Definition int64_max : Z := 2 ^ 63 - 1.
Definition int64_wrap (z : Z) : Z := (z + 2 ^ 63) mod 2 ^ 64 - 2 ^ 63.
Definition int64_incr (z : Z) : Z := int64_wrap (z + 1).

(** ** The HLO data model *)

(** An [HloInstruction*] is a handle into the arena of its computation. *)
Definition handle := nat.

Inductive HloOpcode :=
| kAdd | kAllReduce | kAllReduceScatter | kConstant | kConvert
| kDynamicSlice | kIota | kMultiply | kParameter | kPartitionId
| kReplicaId | kReshape.

#[global] Instance HloOpcode_eq_dec : EqDecision HloOpcode.
Proof. solve_decision. Defined.

Inductive PrimitiveType := F32 | S32 | U32.

#[global] Instance PrimitiveType_eq_dec : EqDecision PrimitiveType.
Proof. solve_decision. Defined.

Record Shape := mkShape {
  element_type : PrimitiveType;
  dimensions : list Z;
  layout : option (list Z)          (* minor_to_major, when present *)
}.

#[global] Instance Shape_eq_dec : EqDecision Shape.
Proof. solve_decision. Defined.

(** Modelled from the spec: [Shape::dimensions(index)], missing from the
    sources ("ordered dimension sizes"): a checked access. *)
Definition dimensions_at (s : Shape) (index : Z) : option Z :=
  if 0 <=? index then dimensions s !! Z.to_nat index else None.

(** Modelled from the spec: [Shape::set_dimensions(index, value)], missing
    from the sources. *)
Definition set_dimensions (s : Shape) (index : Z) (value : Z) : Shape :=
  {| element_type := element_type s;
     dimensions := <[Z.to_nat index := value]> (dimensions s);
     layout := layout s |}.

Record HloInstruction := mkInstruction {
  opcode : HloOpcode;
  shape : Shape;
  operands : list handle;
  to_apply : option nat;               (* the reduction computation *)
  replica_groups : list (list Z);
  constrain_layout : bool;
  channel_id : option Z;
  use_global_device_ids : bool;
  scatter_dimension : Z;               (* all-reduce-scatter *)
  literal : list Z;                    (* constant *)
  parameter_number : Z                 (* parameter *)
}.

#[global] Instance HloInstruction_eq_dec : EqDecision HloInstruction.
Proof. solve_decision. Defined.

Record HloComputation := mkComputation {
  instructions : list (handle * HloInstruction);
  root_instruction : handle;
  IsFusionComputation : bool
}.

#[global] Instance HloComputation_eq_dec : EqDecision HloComputation.
Proof. solve_decision. Defined.

Record HloModuleConfig := mkConfig {
  num_partitions : Z;
  replica_count : Z
}.

#[global] Instance HloModuleConfig_eq_dec : EqDecision HloModuleConfig.
Proof. solve_decision. Defined.

Record HloModule := mkModule {
  config : HloModuleConfig;
  computations : list HloComputation
}.

#[global] Instance HloModule_eq_dec : EqDecision HloModule.
Proof. solve_decision. Defined.

(** What [MatchAllReduceScatter] hands to the pass. *)
Record AllReduceScatterSpec := mkSpec {
  split_dim : Z;
  group_size : Z;
  dynamic_slice : handle
}.

(** A [Status]; [ABORTED] stands for a run that does not return at all (a
    failed bounds check or a division by zero). *)
Inductive Status := OK | INTERNAL | ABORTED.

#[global] Instance Status_eq_dec : EqDecision Status.
Proof. solve_decision. Defined.

Inductive StatusOr (A : Type) :=
| Value (a : A)
| Error (s : Status).
Arguments Value {A} a.
Arguments Error {A} s.

(** ** The arena *)

Definition handles (c : HloComputation) : list handle :=
  (instructions c).*1.

Fixpoint find_instruction_in (l : list (handle * HloInstruction)) (h : handle)
  : option HloInstruction :=
  match l with
  | [] => None
  | (h', i) :: l' => if decide (h' = h) then Some i else find_instruction_in l' h
  end.

Definition find_instruction (c : HloComputation) (h : handle)
  : option HloInstruction :=
  find_instruction_in (instructions c) h.

(** Modelled from the spec: [instruction->operand(n)], missing from the
    sources ("an ordered list of operand references"). *)
Definition operand (i : HloInstruction) (n : nat) : option handle :=
  operands i !! n.

(** Modelled from the spec: [instruction->users()], missing from the sources
    ("use-list back-references"): the instructions that list [h] as an
    operand. *)
Definition users (c : HloComputation) (h : handle) : list handle :=
  (filter (λ p, h ∈ operands p.2) (instructions c)).*1.

Definition fresh_handle (c : HloComputation) : handle :=
  S (max_list (handles c)).

(** Modelled from the spec: [HloComputation::AddInstruction], missing from the
    sources ("instruction construction with explicit shapes"): the new
    instruction joins the computation's collection under a handle no other
    instruction has, and that handle is returned. *)
Definition AddInstruction (i : HloInstruction) (c : HloComputation)
  : handle * HloComputation :=
  let h := fresh_handle c in
  (h, {| instructions := instructions c ++ [(h, i)];
         root_instruction := root_instruction c;
         IsFusionComputation := IsFusionComputation c |}).

(** Modelled from the spec: [HloInstruction::CreateAllReduceScatter], missing
    from the sources ("identical fields to a reduction instruction plus a
    scatterDimension"). *)
Definition CreateAllReduceScatter (sh : Shape) (ops : list handle)
    (reduce_computation : option nat) (groups : list (list Z))
    (constrain : bool) (channel : option Z) (global_ids : bool)
    (scatter_dim : Z) : HloInstruction :=
  {| opcode := kAllReduceScatter; shape := sh; operands := ops;
     to_apply := reduce_computation; replica_groups := groups;
     constrain_layout := constrain; channel_id := channel;
     use_global_device_ids := global_ids; scatter_dimension := scatter_dim;
     literal := []; parameter_number := 0 |}.

(** Modelled from the spec: [HloInstruction::CreateReshape], missing from the
    sources. *)
Definition CreateReshape (sh : Shape) (op : handle) : HloInstruction :=
  {| opcode := kReshape; shape := sh; operands := [op];
     to_apply := None; replica_groups := []; constrain_layout := false;
     channel_id := None; use_global_device_ids := false;
     scatter_dimension := 0; literal := []; parameter_number := 0 |}.

Definition replace_operand (old new : handle) (i : HloInstruction)
  : HloInstruction :=
  {| opcode := opcode i; shape := shape i;
     operands := (λ o, if decide (o = old) then new else o) <$> operands i;
     to_apply := to_apply i; replica_groups := replica_groups i;
     constrain_layout := constrain_layout i; channel_id := channel_id i;
     use_global_device_ids := use_global_device_ids i;
     scatter_dimension := scatter_dimension i; literal := literal i;
     parameter_number := parameter_number i |}.

(** Modelled from the spec: [HloInstruction::ReplaceAllUsesWith], missing from
    the sources ("replace every use of the slice with the new result"). The
    root designation is a use as well: the tests read the new instruction back
    through [root_instruction()] after the slice that was the root is gone. *)
Definition ReplaceAllUsesWith (old new : handle) (c : HloComputation)
  : Status * HloComputation :=
  (OK, {| instructions := prod_map id (replace_operand old new) <$> instructions c;
          root_instruction :=
            if decide (root_instruction c = old) then new else root_instruction c;
          IsFusionComputation := IsFusionComputation c |}).

Definition erase (h : handle) (c : HloComputation) : HloComputation :=
  {| instructions := filter (λ p, p.1 ≠ h) (instructions c);
     root_instruction := root_instruction c;
     IsFusionComputation := IsFusionComputation c |}.

(** Modelled from the spec: when removal is safe ("safe removal"). An
    instruction can go when it is in the computation and nothing uses it any
    more, neither another instruction nor the root designation. *)
Definition removable (c : HloComputation) (h : handle) : bool :=
  bool_decide (h ∈ handles c) && bool_decide (users c h = [])
  && bool_decide (root_instruction c ≠ h).

(** Modelled from the spec: [HloComputation::RemoveInstruction], missing from
    the sources ("safe removal": "the slice (and reshape) must be detached
    before the reduction is removed, since they may still reference it"). An
    instruction that is still used is not removed and an error is returned,
    which is what the [TF_RETURN_IF_ERROR] around each call propagates. *)
Definition RemoveInstruction (h : handle) (c : HloComputation)
  : Status * HloComputation :=
  if removable c h then (OK, erase h c) else (INTERNAL, c).

(** The first instruction of the worklist that can go, and the worklist's
    remainder. *)
Fixpoint next_removable (c : HloComputation) (worklist : list handle)
  : option (handle * list handle) :=
  match worklist with
  | [] => None
  | item :: rest =>
    if removable c item then Some (item, rest) else next_removable c rest
  end.

(** Modelled from the spec: "dead-operand pruning". A worklist of operands of removed instructions; one
    with no remaining use is removed and its own operands join the list. Each
    round removes an instruction, so the instruction count bounds the rounds. *)
Fixpoint prune (rounds : nat) (worklist : list handle) (c : HloComputation)
  : HloComputation :=
  match rounds with
  | O => c
  | S rounds' =>
    match next_removable c worklist with
    | Some (item, rest) =>
      let ops := default [] (operands <$> find_instruction c item) in
      prune rounds' (rest ++ ops) (erase item c)
    | None => c
    end
  end.

(** Modelled from the spec: [HloComputation::RemoveInstructionAndUnusedOperands],
    missing from the sources ("safe removal with dead-operand pruning",
    "remove the original reduction together with any operand subgraphs left
    with no remaining consumers"). *)
Definition RemoveInstructionAndUnusedOperands (h : handle) (c : HloComputation)
  : Status * HloComputation :=
  if removable c h
  then (OK, prune (length (instructions c))
              (default [] (operands <$> find_instruction c h)) (erase h c))
  else (INTERNAL, c).

(** Modelled from the spec: the depth-first visit behind the post order, of
    [h] and what it depends on; [post] is the order so
    far and doubles as the set of visited instructions. *)
Fixpoint visit_post_order (fuel : nat) (c : HloComputation) (h : handle)
    (post : list handle) : list handle :=
  match fuel with
  | O => post
  | S fuel' =>
    if decide (h ∈ post) then post
    else match find_instruction c h with
         | Some i =>
           let post' := foldl (λ p o, visit_post_order fuel' c o p) post (operands i) in
           if decide (h ∈ post') then post' else post' ++ [h]
         | None => post
         end
  end.

(** Modelled from the spec: [HloComputation::MakeInstructionPostOrder], missing
    from the sources ("postorder listing of a computation's instructions",
    "operands visited before their consumers"). *)
Definition MakeInstructionPostOrder (c : HloComputation) : list handle :=
  foldl (λ p h, visit_post_order (S (length (instructions c))) c h p) []
        (handles c).

(** Modelled from the spec: [HloModule::MakeNonfusionComputations], missing
    from the sources ("for each non-fusion computation in the module"): the
    positions of the module's computations that are not fusion computations. *)
Definition MakeNonfusionComputations (m : HloModule) : list nat :=
  (filter (λ p, IsFusionComputation p.2 = false) (imap pair (computations m))).*1.

Definition channel_ids_of (c : HloComputation) : list Z :=
  omap (λ p, channel_id p.2) (instructions c).

(** Every channel id in use anywhere in the module. *)
Definition channel_ids (m : HloModule) : list Z :=
  computations m ≫= channel_ids_of.

(** Modelled from the spec: [hlo_query::NextChannelId], missing from the
    sources ("a query for the module's current maximum channel id", the
    counter "seeded from the current maximum in-use id", "the new id exceeds
    every existing one"): one more than the largest channel id in use, and 1
    for a module that uses none. *)
Definition NextChannelId (m : HloModule) : Z :=
  foldr (λ id next, Z.max next (int64_incr id)) 1 (channel_ids m).

(** ** The pass *)

(** A step of the rewrite that can fail: an HLO mutation returning a
    [Status]. [TF_RETURN_IF_ERROR] chains them. *)
Definition Mutation := HloComputation → Status * HloComputation.

Definition TF_RETURN_IF_ERROR (first next : Mutation) : Mutation :=
  λ c, match first c with
       | (OK, c') => next c'
       | failed => failed
       end.

Infix ">>" := TF_RETURN_IF_ERROR (at level 65, right associativity).

Definition if_present (reshape : option handle) (f : handle → Mutation)
  : Mutation :=
  match reshape with
  | Some r => f r
  | None => λ c, (OK, c)
  end.

(** Lines 88 to 93: the uses of the slice move to the new result, then the dead
    instructions are removed by hand, the slice first and the all-reduce last. *)
Definition RemoveDeadInstructions (ds result : handle) (reshape : option handle)
    (ar : handle) : Mutation :=
  ReplaceAllUsesWith ds result >>
  RemoveInstruction ds >>
  if_present reshape RemoveInstruction >>
  RemoveInstructionAndUnusedOperands ar.

(** What the inner loop of [Run] carries from one instruction to the next. *)
Record LoopState := mkLoop {
  computation : HloComputation;
  next_channel_id : Z;
  changed : bool
}.

(** A loop whose body may return early with a failure. *)
Fixpoint for_each {A S : Type} (body : A → S → Status * S) (l : list A) (s : S)
  : Status * S :=
  match l with
  | [] => (OK, s)
  | a :: l' =>
    match body a s with
    | (OK, s') => for_each body l' s'
    | failed => failed
    end
  end.

Section Pass.

(** [MatchAllReduceScatter] (all_reduce_scatter_utils.h) is not part of the
    sources: the pass is verified for any matcher. The matcher reads the
    graph around the all-reduce [ar], so it is handed the computation. *)
Variable MatchAllReduceScatter :
  HloComputation → handle → Z → Z → bool → bool → option AllReduceScatterSpec.

(** The body of the inner loop of [Run], lines 37 to 94. *)
Definition RunOnInstruction (config : HloModuleConfig) (instruction : handle)
    (s : LoopState) : Status * LoopState :=
  let c := computation s in
  match find_instruction c instruction with
  | None => (OK, s)                  (* removed earlier in the sweep *)
  | Some ar =>
    if negb (bool_decide (opcode ar = kAllReduce)) then (OK, s)
    else
      match MatchAllReduceScatter c instruction (num_partitions config)
              (replica_count config) false true with
      | None => (OK, s)
      | Some ar_spec =>
        let ds := dynamic_slice ar_spec in
        let scatter_shape := shape ar in
        match dimensions_at scatter_shape (split_dim ar_spec) with
        | None => (ABORTED, s)
        | Some dim =>
          if group_size ar_spec =? 0 then (ABORTED, s)
          else if negb (Z.rem dim (group_size ar_spec) =? 0) then (INTERNAL, s)
          else
            let scatter_shape :=
              set_dimensions scatter_shape (split_dim ar_spec)
                             (Z.quot dim (group_size ar_spec)) in
            let '(channel, next) :=
              match channel_id ar with
              | Some _ => (Some (next_channel_id s), int64_incr (next_channel_id s))
              | None => (None, next_channel_id s)
              end in
            let '(ars, c) :=
              AddInstruction
                (CreateAllReduceScatter scatter_shape (operands ar) (to_apply ar)
                   (replica_groups ar) (constrain_layout ar) channel
                   (use_global_device_ids ar) (split_dim ar_spec)) c in
            match find_instruction c ds with
            | None => (ABORTED, mkLoop c next (changed s))
            | Some ds_instruction =>
              match operand ds_instruction 0 with
              | None => (ABORTED, mkLoop c next (changed s))
              | Some ds_operand =>
                let '(result, reshape, c) :=
                  if decide (ds_operand ≠ instruction)
                  then let '(r, c) :=
                         AddInstruction (CreateReshape (shape ds_instruction) ars) c in
                       (r, Some ds_operand, c)
                  else (ars, None, c) in
                match RemoveDeadInstructions ds result reshape instruction c with
                | (OK, c) => (OK, mkLoop c next true)
                | (failed, c) => (failed, mkLoop c next (changed s))
                end
              end
            end
        end
      end
  end.

(** What the outer loop carries from one computation to the next. *)
Record RunState := mkRun {
  module : HloModule;
  run_next_channel_id : Z;
  run_changed : bool
}.

(** The body of the outer loop: the sweep over one computation's post order,
    taken before anything is changed. *)
Definition RunOnComputation (index : nat) (s : RunState) : Status * RunState :=
  match computations (module s) !! index with
  | None => (OK, s)
  | Some c =>
    let '(status, l) :=
      for_each (RunOnInstruction (config (module s)))
               (MakeInstructionPostOrder c)
               (mkLoop c (run_next_channel_id s) (run_changed s)) in
    (status,
     mkRun {| config := config (module s);
              computations := <[index := computation l]> (computations (module s)) |}
           (next_channel_id l) (changed l))
  end.

(** [AllReduceScatterCreator::Run]: the state the loops end in, with the
    status they end with. *)
Definition RunLoops (m : HloModule) : Status * RunState :=
  for_each RunOnComputation (MakeNonfusionComputations m)
           (mkRun m (NextChannelId m) false).

(** [AllReduceScatterCreator::Run]: the [StatusOr<bool>] it returns and the
    module as it leaves it. *)
Definition Run (m : HloModule) : StatusOr bool * HloModule :=
  match RunLoops m with
  | (OK, s) => (Value (run_changed s), module s)
  | (failed, s) => (Error failed, module s)
  end.

End Pass.

(** ** The group and index model *)

(** A device: its replica id and its partition id. *)
Definition Device : Type := Z * Z.

#[global] Instance Device_eq_dec : EqDecision Device.
Proof. solve_decision. Defined.

(** The numbers from 0 to [n - 1]. *)
Definition iota (n : Z) : list Z := map Z.of_nat (seq 0 (Z.to_nat n)).

(** Every legal device id of a run with [replica_count] replicas of
    [num_partitions] partitions each. *)
Definition devices (config : HloModuleConfig) : list Device :=
  flat_map (λ r, map (pair r) (iota (num_partitions config)))
           (iota (replica_count config)).

(** The replica groups as listed, or the one implicit group. *)
Definition listed_groups (ar : HloInstruction) (participants : Z)
  : list (list Z) :=
  if decide (replica_groups ar = []) then [iota participants]
  else replica_groups ar.

(** Modelled from the spec: the participants of a collective, group by group,
    each in rank order ("an ordered list of replica groups, each an ordered
    sequence of participant ids"; "an empty group list means one implicit group
    containing every participant"; "globalDeviceId = replicaId * partitionCount
    + partitionId when use_global_device_ids is set"; a channel id is "present
    iff the collective crosses partition boundaries"). Without a channel id the
    groups list replicas and every partition reduces on its own; with one, the
    groups list global device ids, or replicas taken with all their partitions. *)
Definition device_groups (config : HloModuleConfig) (ar : HloInstruction)
  : list (list Device) :=
  let R := replica_count config in
  let P := num_partitions config in
  match channel_id ar with
  | None =>
    flat_map (λ p, map (λ g : list Z, map (λ r, (r, p)) g) (listed_groups ar R))
             (iota P)
  | Some _ =>
    if use_global_device_ids ar then
      map (λ g : list Z, map (λ id, (id `div` P, id `mod` P)) g)
          (listed_groups ar (R * P))
    else
      map (λ g : list Z, flat_map (λ r, map (pair r) (iota P)) g)
          (listed_groups ar R)
  end.

(** The position of a device in a group. *)
Fixpoint index_of (d : Device) (g : list Device) : option nat :=
  match g with
  | [] => None
  | d' :: g' => if decide (d' = d) then Some O else S <$> index_of d g'
  end.

(** Modelled from the spec: [groupSizeAndCount]; no result when the groups
    have unequal sizes. *)
Definition groupSizeAndCount (groups : list (list Device)) : option (nat * nat) :=
  match groups with
  | [] => None
  | g :: rest =>
    if forallb (λ g' : list Device, bool_decide (length g' = length g)) rest
    then Some (length g, length groups) else None
  end.

(** Modelled from the spec: [rankOf], "found by scanning each group's listed
    member order"; no result when the device is in no group or in more than
    one, or when the groups have unequal sizes. The rank is the position in the
    group's listed order. *)
Definition rankOf (d : Device) (groups : list (list Device))
  : option (nat * nat) :=
  match groupSizeAndCount groups with
  | None => None
  | Some _ =>
    match filter (λ og : nat * list Device, d ∈ og.2) (imap pair groups) with
    | [(ordinal, g)] => pair ordinal <$> index_of d g
    | _ => None
    end
  end.

(** ** The shard-offset analyzer *)

(** The device index a scalar subgraph computes. *)
Inductive DeviceIndex := ReplicaIndex | PartitionIndex | GlobalIndex.

(** The recognized shapes of an offset subgraph. *)
Inductive OffsetExpr :=
| Index (k : DeviceIndex)
| TableLookup (table : list Z) (e : OffsetExpr)
| Scale (e : OffsetExpr) (factor : Z).

(** The value of a device index on a device. *)
Definition index_value (config : HloModuleConfig) (k : DeviceIndex) (d : Device) : Z :=
  match k with
  | ReplicaIndex => d.1
  | PartitionIndex => d.2
  | GlobalIndex => d.1 * num_partitions config + d.2
  end.

(** The number of values a device index ranges over. *)
Definition index_count (config : HloModuleConfig) (k : DeviceIndex) : Z :=
  match k with
  | ReplicaIndex => replica_count config
  | PartitionIndex => num_partitions config
  | GlobalIndex => replica_count config * num_partitions config
  end.

(** The value of an offset expression on a device; none when a lookup is
    out of the table. *)
Fixpoint eval_offset (config : HloModuleConfig) (e : OffsetExpr) (d : Device)
  : option Z :=
  match e with
  | Index k => Some (index_value config k d)
  | TableLookup table e' =>
    i ← eval_offset config e' d;
    if 0 <=? i then table !! Z.to_nat i else None
  | Scale e' factor => (λ v, v * factor) <$> eval_offset config e' d
  end.

(** A scalar has no dimensions. *)
Definition is_scalar (i : HloInstruction) : bool :=
  bool_decide (dimensions (shape i) = []).

(** Modelled from the spec: a scalar constant, as the shard size an offset
    is multiplied by. *)
Definition scalar_constant (c : HloComputation) (h : handle) : option Z :=
  i ← find_instruction c h;
  if bool_decide (opcode i = kConstant) && is_scalar i
  then match literal i with [v] => Some v | _ => None end
  else None.

(** Modelled from the spec: a table, "a constant or generated-sequence
    array". *)
Definition table_of (c : HloComputation) (h : handle) : option (list Z) :=
  i ← find_instruction c h;
  match dimensions (shape i) with
  | [n] =>
    if bool_decide (opcode i = kConstant)
    then (if bool_decide (Z.of_nat (length (literal i)) = n) then Some (literal i) else None)
    else if bool_decide (opcode i = kIota) then Some (iota n)
    else None
  | _ => None
  end.

(** Modelled from the spec (structural matching): the instruction at [h],
    when it has opcode [op]. *)
Definition find_opcode (c : HloComputation) (h : handle) (op : HloOpcode)
  : option HloInstruction :=
  i ← find_instruction c h;
  if bool_decide (opcode i = op) then Some i else None.

(** Modelled from the spec: "deviceIndexValue is replica id, partition id,
    a type-converted form of either, or the combined global id (replicaId * partitionCount +
    partitionId) when applicable": the operands of the add that computes the
    global id. *)
Definition global_index (config : HloModuleConfig) (ar : HloInstruction)
    (c : HloComputation) (i : HloInstruction) : option DeviceIndex :=
  match operands i with
  | [scaled; pid] =>
    m ← find_opcode c scaled kMultiply;
    find_opcode c pid kPartitionId;;
    match operands m with
    | [rid; count] =>
      find_opcode c rid kReplicaId;;
      n ← scalar_constant c count;
      if bool_decide (n = num_partitions config)
         && use_global_device_ids ar && bool_decide (channel_id ar ≠ None)
      then Some GlobalIndex else None
    | _ => None
    end
  | _ => None
  end.

(** Modelled from the spec: the device index read straight off an
    instruction, replica id, partition id or the global id. *)
Definition plain_index (config : HloModuleConfig) (ar : HloInstruction)
    (c : HloComputation) (i : HloInstruction) : option DeviceIndex :=
  match opcode i with
  | kReplicaId => Some ReplicaIndex
  | kPartitionId => Some PartitionIndex
  | kAdd => global_index config ar c i
  | _ => None
  end.

(** Modelled from the spec: the device index an instruction computes, read
    straight off it or through one type conversion. *)
Definition device_index (config : HloModuleConfig) (ar : HloInstruction)
    (c : HloComputation) (h : handle) : option DeviceIndex :=
  i ← find_instruction c h;
  match opcode i with
  | kConvert =>
    match operands i with
    | [x] => find_instruction c x ≫= plain_index config ar c
    | _ => None
    end
  | _ => plain_index config ar c i
  end.

(** Modelled from the spec: a lookup is "optionally reshaped to scalar"; the
    reshape is looked through. *)
Definition through_reshape (c : HloComputation) (h : handle) : handle :=
  match find_instruction c h with
  | Some i =>
    if bool_decide (opcode i = kReshape) && is_scalar i
    then match operands i with [x] => x | _ => h end
    else h
  | None => h
  end.

(** Modelled from the spec: a one-element dynamic slice of a table; the
    table and the index. *)
Definition table_slice (c : HloComputation) (h : handle)
  : option (list Z * handle) :=
  i ← find_instruction c h;
  if bool_decide (opcode i = kDynamicSlice)
     && bool_decide (dimensions (shape i) = [1])
  then match operands i with
       | [table; index] => (λ t, (t, index)) <$> table_of c table
       | _ => None
       end
  else None.

(** Modelled from the spec: [lookup(table, index)], "optionally reshaped to
    scalar". *)
Definition table_lookup (c : HloComputation) (h : handle)
  : option (list Z * handle) :=
  table_slice c (through_reshape c h).

(** Modelled from the spec: a rank or an offset before scaling: a device index ("direct affine"), a
    "single table lookup" of one, or a "two-level lookup". Each table has one
    entry per value of what indexes it. *)
Definition lookup_chain (config : HloModuleConfig) (ar : HloInstruction)
    (group_size : Z) (c : HloComputation) (h : handle) : option OffsetExpr :=
  match device_index config ar c h with
  | Some k => Some (Index k)
  | None =>
    '(table, index) ← table_lookup c h;
    match device_index config ar c index with
    | Some k =>
      if bool_decide (Z.of_nat (length table) = index_count config k)
      then Some (TableLookup table (Index k)) else None
    | None =>
      '(group_table, index') ← table_lookup c index;
      k ← device_index config ar c index';
      if bool_decide (Z.of_nat (length group_table) = index_count config k)
         && bool_decide (Z.of_nat (length table) = group_size)
      then Some (TableLookup table (TableLookup group_table (Index k))) else None
    end
  end.

(** Modelled from the spec: the offset subgraph, a chain holding offsets as it is, or one holding
    ranks and then "an explicit multiply by shardSize" as the final step. *)
Definition offset_expr (config : HloModuleConfig) (ar : HloInstruction)
    (group_size shard_size : Z) (c : HloComputation) (h : handle)
  : option OffsetExpr :=
  match find_instruction c h with
  | Some i =>
    if bool_decide (opcode i = kMultiply) then
      match operands i with
      | [x; y] =>
        match scalar_constant c y, scalar_constant c x with
        | Some factor, _ =>
          if bool_decide (factor = shard_size)
          then (λ e, Scale e factor) <$> lookup_chain config ar group_size c x
          else None
        | None, Some factor =>
          if bool_decide (factor = shard_size)
          then (λ e, Scale e factor) <$> lookup_chain config ar group_size c y
          else None
        | None, None => None
        end
      | _ => None
      end
    else
      match lookup_chain config ar group_size c h with
      | Some (Index _) => None           (* a bare device index is no offset *)
      | found => found
      end
  | None => None
  end.

(** Modelled from the spec: the analyzer's contract, "decide whether that
    subgraph evaluates, for every legal device id, to rankOf(deviceId) *
    shardSize". *)
Definition offsets_match (config : HloModuleConfig) (ar : HloInstruction)
    (shard_size : Z) (e : OffsetExpr) : bool :=
  forallb (λ d,
             match rankOf d (device_groups config ar), eval_offset config e d with
             | Some (_, rank), Some offset =>
               bool_decide (offset = Z.of_nat rank * shard_size)
             | _, _ => false
             end)
          (devices config).

(** ** The pattern matcher *)

Definition product (l : list Z) : Z := foldr Z.mul 1 l.

(** Modelled from the spec: the dimensions "where slice size differs from
    the reduction's output size". *)
Definition differing_dims (a b : list Z) : list nat :=
  filter (λ i, a !! i ≠ b !! i) (seq 0 (length a)).

(** Modelled from the spec: the dimension of a reshape's operand that its
    output dimension [j] is:
    the same size with as many elements before it and after it, so that the
    reshape "leaves the eventual split dimension's boundary semantics intact". *)
Definition unmodified_dim (input output : list Z) (j : nat) : option nat :=
  head (filter (λ i, input !! i = output !! j
                     ∧ product (take i input) = product (take j output)
                     ∧ product (drop (S i) input) = product (drop (S j) output))
               (seq 0 (length input))).

Definition guard_bool (b : bool) : option unit := if b then Some () else None.

(** Modelled from the spec: [MatchAllReduceScatter] (all_reduce_scatter_utils),
    missing from the sources: the pattern matcher of section 4.3 over the
    analyzer of section 4.2. The reduction has "a unique dynamic-slice consumer
    reached either directly or through exactly one intervening reshape"; the
    split dimension is "the unique dimension where slice size differs"; and
    "groupSize = reductionDimSize / sliceDimSize". Anything else is "a clean
    non-match". *)
Definition MatchAllReduceScatter (c : HloComputation) (ar_handle : handle)
    (num_partitions replica_count : Z)
    (allow_multiple_split_dims allow_intervening_reshape : bool)
  : option AllReduceScatterSpec :=
  let config := mkConfig num_partitions replica_count in
  ar ← find_instruction c ar_handle;
  guard_bool (bool_decide (opcode ar = kAllReduce));;
  match users c ar_handle with
  | [user] =>
    u ← find_instruction c user;
    '(ds_handle, source) ←
      (if allow_intervening_reshape && bool_decide (opcode u = kReshape)
          && bool_decide (operands u = [ar_handle])
       then match users c user with
            | [d] => Some (d, user)
            | _ => None
            end
       else Some (user, ar_handle));
    ds ← find_instruction c ds_handle;
    src ← find_instruction c source;
    guard_bool (bool_decide (opcode ds = kDynamicSlice));;
    match operands ds with
    | sliced :: starts =>
      guard_bool (bool_decide (sliced = source)
                  && bool_decide (length starts = length (dimensions (shape src)))
                  && bool_decide (length (dimensions (shape ds))
                                  = length (dimensions (shape src))));;
      match differing_dims (dimensions (shape src)) (dimensions (shape ds)) with
      | [j] =>
        i ← (if decide (source = ar_handle) then Some j
             else unmodified_dim (dimensions (shape ar)) (dimensions (shape src)) j);
        n ← dimensions (shape ar) !! i;
        shard_size ← dimensions (shape ds) !! j;
        offset ← starts !! j;
        guard_bool (bool_decide (0 < shard_size)
                    && bool_decide (n `rem` shard_size = 0));;
        '(size, _) ← groupSizeAndCount (device_groups config ar);
        guard_bool (bool_decide (Z.of_nat size = n `quot` shard_size));;
        e ← offset_expr config ar (n `quot` shard_size) shard_size c offset;
        guard_bool (offsets_match config ar shard_size e);;
        Some {| split_dim := Z.of_nat i;
                group_size := n `quot` shard_size;
                dynamic_slice := ds_handle |}
      | _ => None
      end
    | [] => None
    end
  | _ => None
  end.

(** ** The modules of the tests *)

(** Shapes and instructions as the HLO text of the tests writes them. *)
Definition f32 (dims : list Z) : Shape := mkShape F32 dims None.
Definition s32 (dims : list Z) : Shape := mkShape S32 dims None.
Definition u32 (dims : list Z) : Shape := mkShape U32 dims None.

Definition instruction (op : HloOpcode) (sh : Shape) (ops : list handle)
  : HloInstruction :=
  mkInstruction op sh ops None [] false None false 0 [] 0.

Definition parameter (sh : Shape) (n : Z) : HloInstruction :=
  mkInstruction kParameter sh [] None [] false None false 0 [] n.

Definition constant (sh : Shape) (values : list Z) : HloInstruction :=
  mkInstruction kConstant sh [] None [] false None false 0 values 0.

Definition all_reduce (sh : Shape) (ops : list handle) (groups : list (list Z))
    (channel : option Z) (global_ids : bool) : HloInstruction :=
  mkInstruction kAllReduce sh ops (Some 0%nat) groups false channel global_ids 0 [] 0.

(** [%sum], the reduction every test applies. *)
Definition sum : HloComputation :=
  {| instructions := [ (1%nat, parameter (f32 []) 0);
                       (2%nat, parameter (f32 []) 1);
                       (3%nat, instruction kAdd (f32 []) [1%nat; 2%nat]) ];
     root_instruction := 3%nat;
     IsFusionComputation := false |}.

Definition layout_210 (dims : list Z) : Shape := mkShape F32 dims (Some [2; 1; 0]).

(** The entry computation of the test AllReplicas, with the table of the test
    as a parameter. *)
Definition AllReplicas_entry (table : list Z) : HloComputation :=
  {| instructions :=
       [ (1%nat, parameter (layout_210 [32; 8; 128]) 0);
         (2%nat, all_reduce (layout_210 [32; 8; 128]) [1%nat] [] None false);
         (3%nat, constant (mkShape S32 [8] (Some [0])) table);
         (4%nat, instruction kReplicaId (u32 []) []);
         (5%nat, instruction kDynamicSlice (s32 [1]) [3%nat; 4%nat]);
         (6%nat, instruction kReshape (s32 []) [5%nat]);
         (7%nat, constant (s32 []) [4]);
         (8%nat, instruction kMultiply (s32 []) [6%nat; 7%nat]);
         (9%nat, constant (s32 []) [0]);
         (10%nat, instruction kDynamicSlice (f32 [4; 8; 128])
                              [2%nat; 8%nat; 9%nat; 9%nat]) ];
     root_instruction := 10%nat;
     IsFusionComputation := false |}.

(** The module of the test AllReplicas. *)
Definition AllReplicas : HloModule :=
  {| config := mkConfig 1 8;
     computations := [sum; AllReplicas_entry [0; 1; 2; 3; 4; 5; 6; 7]] |}.

(** The module of the test AllReplicasWrongOffsets. *)
Definition AllReplicasWrongOffsets : HloModule :=
  {| config := mkConfig 1 8;
     computations := [sum; AllReplicas_entry [0; 1; 2; 3; 4; 5; 6; 8]] |}.


(** The entry computation of the tests that slice behind a reshape. *)
Definition AllReplicasWithReshape_entry : HloComputation :=
  {| instructions :=
       [ (1%nat, parameter (layout_210 [32; 8; 128]) 0);
         (2%nat, all_reduce (layout_210 [32; 8; 128]) [1%nat] [] None false);
         (3%nat, constant (mkShape S32 [8] (Some [0])) [0; 1; 2; 3; 4; 5; 6; 7]);
         (4%nat, instruction kReplicaId (u32 []) []);
         (5%nat, instruction kDynamicSlice (s32 [1]) [3%nat; 4%nat]);
         (6%nat, instruction kReshape (s32 []) [5%nat]);
         (7%nat, constant (s32 []) [4]);
         (8%nat, instruction kMultiply (s32 []) [6%nat; 7%nat]);
         (9%nat, constant (s32 []) [0]);
         (10%nat, instruction kReshape (f32 [32; 16; 64]) [2%nat]);
         (11%nat, instruction kDynamicSlice (f32 [4; 16; 64])
                              [10%nat; 8%nat; 9%nat; 9%nat]) ];
     root_instruction := 11%nat;
     IsFusionComputation := false |}.

(** The module of the test AllReplicasWithReshape. *)
Definition AllReplicasWithReshape : HloModule :=
  {| config := mkConfig 1 8;
     computations := [sum; AllReplicasWithReshape_entry] |}.

(** The module of the test AllReplicasWithReshapeSplitDimModified. *)
Definition AllReplicasWithReshapeSplitDimModified : HloModule :=
  {| config := mkConfig 1 8;
     computations :=
       [ sum;
         {| instructions :=
              [ (1%nat, parameter (f32 [336; 1024]) 0);
                (2%nat, all_reduce (f32 [336; 1024]) [1%nat] [] None false);
                (3%nat, instruction kReplicaId (u32 []) []);
                (4%nat, instruction kConvert (s32 []) [3%nat]);
                (5%nat, constant (s32 []) [128]);
                (6%nat, instruction kMultiply (s32 []) [4%nat; 5%nat]);
                (7%nat, constant (s32 []) [0]);
                (8%nat, instruction kReshape (f32 [4; 84; 1024]) [2%nat]);
                (9%nat, instruction kDynamicSlice (f32 [4; 84; 128])
                                    [8%nat; 7%nat; 7%nat; 6%nat]) ];
            root_instruction := 9%nat;
            IsFusionComputation := false |} ] |}.

(** The module of the test AllReplicasDim2. *)
Definition AllReplicasDim2 : HloModule :=
  {| config := mkConfig 1 8;
     computations :=
       [ sum;
         {| instructions :=
              [ (1%nat, parameter (layout_210 [32; 8; 128]) 0);
                (2%nat, all_reduce (layout_210 [32; 8; 128]) [1%nat] [] None false);
                (3%nat, constant (mkShape S32 [8] (Some [0])) [0; 1; 2; 3; 4; 5; 6; 7]);
                (4%nat, instruction kReplicaId (u32 []) []);
                (5%nat, instruction kConvert (s32 []) [4%nat]);
                (6%nat, constant (s32 []) [16]);
                (7%nat, instruction kMultiply (s32 []) [5%nat; 6%nat]);
                (8%nat, constant (s32 []) [0]);
                (9%nat, instruction kDynamicSlice (f32 [32; 8; 16])
                                    [2%nat; 8%nat; 8%nat; 7%nat]) ];
            root_instruction := 9%nat;
            IsFusionComputation := false |} ] |}.

(** The module of the test AllReplicasIotaTable. *)
Definition AllReplicasIotaTable : HloModule :=
  {| config := mkConfig 2 8;
     computations :=
       [ sum;
         {| instructions :=
              [ (1%nat, parameter (layout_210 [32; 8; 128]) 0);
                (2%nat, all_reduce (layout_210 [32; 8; 128]) [1%nat] [] None false);
                (3%nat, instruction kIota (mkShape S32 [8] (Some [0])) []);
                (4%nat, instruction kReplicaId (u32 []) []);
                (5%nat, instruction kDynamicSlice (s32 [1]) [3%nat; 4%nat]);
                (6%nat, instruction kReshape (s32 []) [5%nat]);
                (7%nat, constant (s32 []) [4]);
                (8%nat, instruction kMultiply (s32 []) [6%nat; 7%nat]);
                (9%nat, constant (s32 []) [0]);
                (10%nat, instruction kDynamicSlice (f32 [4; 8; 128])
                                     [2%nat; 8%nat; 9%nat; 9%nat]) ];
            root_instruction := 10%nat;
            IsFusionComputation := false |} ] |}.

(** The entry computation of the tests with two subgroups, an assignment
    table and an offset table. *)
Definition Subgrouped_entry (index : list (handle * HloInstruction))
    (channel : option Z) (global_ids : bool) : HloComputation :=
  {| instructions :=
       [ (1%nat, parameter (layout_210 [32; 8; 128]) 0);
         (2%nat, all_reduce (layout_210 [32; 8; 128]) [1%nat]
                            [[1; 3; 2; 0]; [4; 5; 6; 7]] channel global_ids) ]
       ++ index ++
       [ (10%nat, constant (mkShape S32 [8] (Some [0])) [3; 0; 2; 1; 0; 1; 2; 3]);
         (11%nat, instruction kDynamicSlice (s32 [1]) [10%nat; 9%nat]);
         (12%nat, instruction kReshape (s32 []) [11%nat]);
         (13%nat, constant (mkShape S32 [4] (Some [0])) [0; 8; 16; 24]);
         (14%nat, instruction kDynamicSlice (s32 [1]) [13%nat; 12%nat]);
         (15%nat, instruction kReshape (s32 []) [14%nat]);
         (16%nat, constant (s32 []) [0]);
         (17%nat, instruction kDynamicSlice (f32 [8; 8; 128])
                              [2%nat; 15%nat; 16%nat; 16%nat]) ];
     root_instruction := 17%nat;
     IsFusionComputation := false |}.

(** The module of the test SubgroupedReplicas, its instructions in the order
    of the test: the assignment table comes before the replica id. *)
Definition SubgroupedReplicas : HloModule :=
  {| config := mkConfig 2 8;
     computations :=
       [ sum;
         {| instructions :=
              [ (1%nat, parameter (layout_210 [32; 8; 128]) 0);
                (2%nat, all_reduce (layout_210 [32; 8; 128]) [1%nat]
                                   [[1; 3; 2; 0]; [4; 5; 6; 7]] None false);
                (3%nat, constant (mkShape S32 [8] (Some [0]))
                                 [3; 0; 2; 1; 0; 1; 2; 3]);
                (4%nat, instruction kReplicaId (u32 []) []);
                (5%nat, instruction kDynamicSlice (s32 [1]) [3%nat; 4%nat]);
                (6%nat, instruction kReshape (s32 []) [5%nat]);
                (7%nat, constant (mkShape S32 [4] (Some [0])) [0; 8; 16; 24]);
                (8%nat, instruction kDynamicSlice (s32 [1]) [7%nat; 6%nat]);
                (9%nat, instruction kReshape (s32 []) [8%nat]);
                (10%nat, constant (s32 []) [0]);
                (11%nat, instruction kDynamicSlice (f32 [8; 8; 128])
                                     [2%nat; 9%nat; 10%nat; 10%nat]) ];
            root_instruction := 11%nat;
            IsFusionComputation := false |} ] |}.

(** The module of the test SubgroupsGlobals. *)
Definition SubgroupsGlobals : HloModule :=
  {| config := mkConfig 4 2;
     computations :=
       [ sum;
         Subgrouped_entry
           [ (5%nat, instruction kPartitionId (u32 []) []);
             (6%nat, instruction kReplicaId (u32 []) []);
             (7%nat, constant (u32 []) [4]);
             (8%nat, instruction kMultiply (u32 []) [6%nat; 7%nat]);
             (9%nat, instruction kAdd (u32 []) [8%nat; 5%nat]) ]
           (Some 1) true ] |}.

(** The module of the test AllPartitions. *)
Definition AllPartitions : HloModule :=
  {| config := mkConfig 8 2;
     computations :=
       [ sum;
         {| instructions :=
              [ (1%nat, parameter (layout_210 [32; 8; 128]) 0);
                (2%nat, all_reduce (layout_210 [32; 8; 128]) [1%nat]
                                   [[0]; [1]] (Some 1) false);
                (3%nat, constant (mkShape S32 [8] (Some [0])) [0; 1; 2; 3; 4; 5; 6; 7]);
                (4%nat, instruction kPartitionId (u32 []) []);
                (5%nat, instruction kDynamicSlice (s32 [1]) [3%nat; 4%nat]);
                (6%nat, instruction kReshape (s32 []) [5%nat]);
                (7%nat, constant (s32 []) [4]);
                (8%nat, instruction kMultiply (s32 []) [6%nat; 7%nat]);
                (9%nat, constant (s32 []) [0]);
                (10%nat, instruction kDynamicSlice (f32 [4; 8; 128])
                                     [2%nat; 8%nat; 9%nat; 9%nat]) ];
            root_instruction := 10%nat;
            IsFusionComputation := false |} ] |}.

(** The entry computation of the two tests on orthogonal groups, with the
    groups of the test as a parameter. *)
Definition Orthogonal_entry (groups : list (list Z)) : HloComputation :=
  {| instructions :=
       [ (1%nat, parameter (layout_210 [32; 8; 128]) 0);
         (2%nat, all_reduce (layout_210 [32; 8; 128]) [1%nat] groups (Some 1) true);
         (3%nat, instruction kPartitionId (u32 []) []);
         (4%nat, constant (mkShape S32 [4] (Some [0])) [3; 0; 2; 1]);
         (5%nat, instruction kDynamicSlice (s32 [1]) [4%nat; 3%nat]);
         (6%nat, instruction kReshape (s32 []) [5%nat]);
         (7%nat, constant (s32 []) [8]);
         (8%nat, instruction kMultiply (s32 []) [6%nat; 7%nat]);
         (9%nat, constant (s32 []) [0]);
         (10%nat, instruction kDynamicSlice (f32 [8; 8; 128])
                              [2%nat; 8%nat; 9%nat; 9%nat]) ];
     root_instruction := 10%nat;
     IsFusionComputation := false |}.

(** The module of the test SubgroupsGlobalsOrthogonalReplicas. *)
Definition SubgroupsGlobalsOrthogonalReplicas : HloModule :=
  {| config := mkConfig 4 2;
     computations := [sum; Orthogonal_entry [[1; 3; 2; 0]; [5; 7; 6; 4]]] |}.

(** The module of the test SubgroupsGlobalsNonOrthogonalReplicas. *)
Definition SubgroupsGlobalsNonOrthogonalReplicas : HloModule :=
  {| config := mkConfig 4 2;
     computations := [sum; Orthogonal_entry [[1; 3; 2; 0]; [7; 5; 6; 4]]] |}.

(** ** What a rewrite leaves behind *)

(** The reduce-scatter of lines 55 to 72, for the all-reduce [ar]. *)
Definition scatter_instruction (ar : HloInstruction) (ar_spec : AllReduceScatterSpec)
    (channel : option Z) : HloInstruction :=
  let dim := default 0 (dimensions_at (shape ar) (split_dim ar_spec)) in
  CreateAllReduceScatter
    (set_dimensions (shape ar) (split_dim ar_spec) (dim `quot` group_size ar_spec))
    (operands ar) (to_apply ar) (replica_groups ar) (constrain_layout ar)
    channel (use_global_device_ids ar) (split_dim ar_spec).

(** The channel id lines 62 to 66 give the reduce-scatter, and the counter
    after them. *)
Definition scatter_channel (ar : HloInstruction) (next : Z) : option Z * Z :=
  match channel_id ar with
  | Some _ => (Some next, int64_incr next)
  | None => (None, next)
  end.

(** The reshape of the match, when the slice does not read the all-reduce
    itself (line 79). *)
Definition intervening_reshape (ar_handle : handle) (ds : HloInstruction)
  : option handle :=
  match operand ds 0 with
  | Some o => if decide (o ≠ ar_handle) then Some o else None
  | None => None
  end.

(** The computation with the new instructions of lines 68 to 83 added, and
    the handle of the result among them. *)
Definition add_replacement (c : HloComputation) (ar_handle : handle)
    (ar : HloInstruction) (ar_spec : AllReduceScatterSpec) (ds : HloInstruction)
    (channel : option Z) : handle * HloComputation :=
  let added := AddInstruction (scatter_instruction ar ar_spec channel) c in
  match intervening_reshape ar_handle ds with
  | Some _ => AddInstruction (CreateReshape (shape ds) added.1) added.2
  | None => added
  end.

(** The computation a completed rewrite leaves: the new instructions added,
    the uses of the slice moved to the result, and the slice, the reshape and
    the all-reduce gone. *)
Definition rewritten (c : HloComputation) (ar_handle : handle)
    (ar : HloInstruction) (ar_spec : AllReduceScatterSpec) (ds : HloInstruction)
    (channel : option Z) : HloComputation :=
  let added := add_replacement c ar_handle ar ar_spec ds channel in
  let c := (ReplaceAllUsesWith (dynamic_slice ar_spec) added.1 added.2).2 in
  let c := erase (dynamic_slice ar_spec) c in
  let c := match intervening_reshape ar_handle ds with
           | Some reshape => erase reshape c
           | None => c
           end in
  erase ar_handle c.

(** Every operand of an instruction of the computation is an instruction of
    the computation. *)
Definition operands_closed (c : HloComputation) : Prop :=
  ∀ h i o, (h, i) ∈ instructions c → o ∈ operands i → o ∈ handles c.

(** ** The visits of a run *)

(** The calls a loop makes to its body, in order: the element, the state
    before, and what the body returned. The log ends with the first call that
    does not return [OK]. *)
Fixpoint for_each_log {A S : Type} (body : A → S → Status * S) (l : list A)
    (s : S) : list (A * S * (Status * S)) :=
  match l with
  | [] => []
  | a :: l' =>
    (a, s, body a s)
    :: match body a s with
       | (OK, s') => for_each_log body l' s'
       | _ => []
       end
  end.

(** One pass of the inner loop's body over an instruction. *)
Record Visit := mkVisit {
  visit_module : HloModule;      (* the module as the visit finds it *)
  visit_index : nat;             (* the computation *)
  visit_handle : handle;         (* the instruction *)
  visit_before : LoopState;
  visit_status : Status;
  visit_after : LoopState
}.

(** The module while the sweep over computation [index] is in state [l]. *)
Definition module_during (s : RunState) (index : nat) (l : LoopState)
  : HloModule :=
  {| config := config (module s);
     computations := <[index := computation l]> (computations (module s)) |}.

Definition visits_of (matcher : HloComputation → handle → Z → Z → bool → bool
                                → option AllReduceScatterSpec)
    (index : nat) (s : RunState) : list Visit :=
  match computations (module s) !! index with
  | None => []
  | Some c =>
    map (λ e : handle * LoopState * (Status * LoopState),
           mkVisit (module_during s index e.1.2) index e.1.1 e.1.2 e.2.1 e.2.2)
        (for_each_log (RunOnInstruction matcher (config (module s)))
                      (MakeInstructionPostOrder c)
                      (mkLoop c (run_next_channel_id s) (run_changed s)))
  end.

(** Every visit [Run] makes, in order. *)
Definition visits (matcher : HloComputation → handle → Z → Z → bool → bool
                             → option AllReduceScatterSpec)
    (m : HloModule) : list Visit :=
  flat_map (λ e : nat * RunState * (Status * RunState),
              visits_of matcher e.1.1 e.1.2)
           (for_each_log (RunOnComputation matcher) (MakeNonfusionComputations m)
                         (mkRun m (NextChannelId m) false)).

(** The channel id drawn from the counter between two states, when one is. *)
Definition drawn (before after : LoopState) : option Z :=
  if decide (next_channel_id after = next_channel_id before)
  then None else Some (next_channel_id before).

(** The channel id a visit draws from the counter. *)
Definition minted (v : Visit) : option Z :=
  drawn (visit_before v) (visit_after v).

(** The all-reduce instructions that carry a channel id. *)
Definition channel_all_reduces (c : HloComputation) : nat :=
  length (filter (λ p : handle * HloInstruction,
                    opcode p.2 = kAllReduce ∧ is_Some (channel_id p.2))
                 (instructions c)).

Definition module_channel_all_reduces (m : HloModule) : nat :=
  sum_list_with channel_all_reduces (computations m).

(** One of the mutations of lines 88 to 93 returns an error: the rewrite of
    the all-reduce [ar], accepted with [ar_spec], is refused. *)
Definition refused (c : HloComputation) (ar_handle : handle) (ar : HloInstruction)
    (ar_spec : AllReduceScatterSpec) (channel : option Z) (c' : HloComputation)
  : Prop :=
  ∃ ds, find_instruction (AddInstruction (scatter_instruction ar ar_spec channel) c).2
                         (dynamic_slice ar_spec) = Some ds
        ∧ is_Some (operand ds 0)
        ∧ RemoveDeadInstructions (dynamic_slice ar_spec)
            (add_replacement c ar_handle ar ar_spec ds channel).1
            (intervening_reshape ar_handle ds) ar_handle
            (add_replacement c ar_handle ar ar_spec ds channel).2
          = (INTERNAL, c').

(** The matched chain is the only use of the all-reduce: the slice alone uses
    it, or a reshape of it alone does and the slice alone uses that reshape;
    and neither the all-reduce nor the reshape is the computation's root. *)
Definition sole_use_chain (c : HloComputation) (ar_handle : handle)
    (ar_spec : AllReduceScatterSpec) (ds : HloInstruction) : Prop :=
  ar_handle ≠ dynamic_slice ar_spec
  ∧ root_instruction c ≠ ar_handle
  ∧ match intervening_reshape ar_handle ds with
    | None => users c ar_handle = [dynamic_slice ar_spec]
    | Some reshape =>
      users c ar_handle = [reshape]
      ∧ users c reshape = [dynamic_slice ar_spec]
      ∧ reshape ≠ dynamic_slice ar_spec
      ∧ root_instruction c ≠ reshape
    end.

(** ** Invariants of a run *)

(** The computation holds no all-reduce. *)
Definition no_all_reduce (c : HloComputation) : Prop :=
  ∀ h i, (h, i) ∈ instructions c → opcode i ≠ kAllReduce.

(** [c'] holds instructions of [c] only, possibly with other operands, and at
    most as many all-reduces with a channel id. *)
Definition shrinks (c c' : HloComputation) : Prop :=
  (∀ x i', (x, i') ∈ instructions c' →
           ∃ i, (x, i) ∈ instructions c ∧ opcode i' = opcode i
                ∧ channel_id i' = channel_id i)
  ∧ (channel_all_reduces c' ≤ channel_all_reduces c)%nat.

(** The computations of the module other than the one at [index]. *)
Definition others (index : nat) (cs : list HloComputation) : list HloComputation :=
  take index cs ++ drop (S index) cs.

(** The counter is above every channel id in use, in the computation being
    swept and in the others, and there is room below [int64_max] for an id
    per all-reduce that may still ask for one. *)
Definition counter_ahead (first : Z) (other_ids : list Z)
    (other_all_reduces : nat) (s : LoopState) : Prop :=
  (∀ id, id ∈ channel_ids_of (computation s) ∨ id ∈ other_ids →
         id < next_channel_id s)
  ∧ 1 ≤ first ≤ next_channel_id s
  ∧ next_channel_id s
    + Z.of_nat (channel_all_reduces (computation s) + other_all_reduces)
    ≤ int64_max.

(** The counter is above every channel id in use in the module, with room
    below [int64_max] for an id per all-reduce that may still ask for one. *)
Definition run_ahead (first : Z) (s : RunState) : Prop :=
  (∀ id, id ∈ channel_ids (module s) → id < run_next_channel_id s)
  ∧ 1 ≤ first ≤ run_next_channel_id s
  ∧ run_next_channel_id s + Z.of_nat (module_channel_all_reduces (module s))
    ≤ int64_max.

(** What holds at every visit of a run that starts with the counter ahead. *)
Definition visit_ahead
    (matcher : HloComputation → handle → Z → Z → bool → bool
               → option AllReduceScatterSpec)
    (first : Z) (m : HloModule) (v : Visit) : Prop :=
  config (visit_module v) = config m
  ∧ first ≤ next_channel_id (visit_before v)
  ∧ (∀ id, id ∈ channel_ids (visit_module v) →
           id < next_channel_id (visit_before v))
  ∧ computations (visit_module v) !! visit_index v
    = Some (computation (visit_before v))
  ∧ RunOnInstruction matcher (config m) (visit_handle v) (visit_before v)
    = (visit_status v, visit_after v)
  ∧ (minted v = None
       ∧ next_channel_id (visit_after v) = next_channel_id (visit_before v)
     ∨ minted v = Some (next_channel_id (visit_before v))
       ∧ ∃ ar old, find_instruction (computation (visit_before v)) (visit_handle v)
                   = Some ar ∧ channel_id ar = Some old).

(** ** Modules on which a removal is refused *)

(** The computation [c] with another root. *)
Definition with_root (root : handle) (c : HloComputation) : HloComputation :=
  {| instructions := instructions c; root_instruction := root;
     IsFusionComputation := IsFusionComputation c |}.

(** The module of the test AllReplicas with the all-reduce as the root: the
    dynamic slice is computed and not used. *)
Definition AllReduceIsRoot : HloModule :=
  {| config := mkConfig 1 8;
     computations :=
       [sum; with_root 2%nat (AllReplicas_entry [0; 1; 2; 3; 4; 5; 6; 7])] |}.

(** The module of the test AllReplicasWithReshape with the reshape as the
    root. *)
Definition ReshapeIsRoot : HloModule :=
  {| config := mkConfig 1 8;
     computations := [sum; with_root 10%nat AllReplicasWithReshape_entry] |}.

(** The size of the split dimension and the group size of the match a visit
    accepts, when it accepts one. *)
Definition accepted_split
    (matcher : HloComputation → handle → Z → Z → bool → bool
               → option AllReduceScatterSpec)
    (v : Visit) : option (Z * Z) :=
  ar ← find_instruction (computation (visit_before v)) (visit_handle v);
  if bool_decide (opcode ar = kAllReduce) then
    ar_spec ← matcher (computation (visit_before v)) (visit_handle v)
                      (num_partitions (config (visit_module v)))
                      (replica_count (config (visit_module v))) false true;
    dim ← dimensions_at (shape ar) (split_dim ar_spec);
    Some (dim, group_size ar_spec)
  else None.

(** The state in which the sweep over the entry computation of a test module
    starts. *)
Definition entry_state (m : HloModule) : LoopState :=
  mkLoop (default sum (computations m !! 1%nat)) (NextChannelId m) false.

(** A module with no all-reduce. *)
Definition OnlySum : HloModule :=
  {| config := mkConfig 1 8; computations := [sum] |}.

(** ** What a match is *)

(** The conditions under which [MatchAllReduceScatter] returns a match, one by
    one: the all-reduce [ar] at [h]; its one user; the slice [ds] and what it
    slices, [source] - the all-reduce or the reshape of it; the one dimension
    [j] in which the slice is smaller, which is dimension [i] of the
    all-reduce; the sizes [n] and [shard]; and the offset subgraph, read as
    [e]. *)
Inductive matched (config : HloModuleConfig) (c : HloComputation) (h : handle)
  : AllReduceScatterSpec → Prop :=
| matched_chain (ar u src ds : HloInstruction) (user source ds_handle : handle)
      (starts : list handle) (offset : handle) (i j : nat) (n shard : Z)
      (size count : nat) (e : OffsetExpr) :
    find_instruction c h = Some ar →
    opcode ar = kAllReduce →
    users c h = [user] →
    find_instruction c user = Some u →
    (if bool_decide (opcode u = kReshape) && bool_decide (operands u = [h])
     then users c user = [ds_handle] ∧ source = user
     else ds_handle = user ∧ source = h) →
    find_instruction c ds_handle = Some ds →
    find_instruction c source = Some src →
    opcode ds = kDynamicSlice →
    operands ds = source :: starts →
    length starts = length (dimensions (shape src)) →
    length (dimensions (shape ds)) = length (dimensions (shape src)) →
    differing_dims (dimensions (shape src)) (dimensions (shape ds)) = [j] →
    (if decide (source = h) then Some j
     else unmodified_dim (dimensions (shape ar)) (dimensions (shape src)) j)
    = Some i →
    dimensions (shape ar) !! i = Some n →
    dimensions (shape ds) !! j = Some shard →
    starts !! j = Some offset →
    0 < shard →
    n `rem` shard = 0 →
    groupSizeAndCount (device_groups config ar) = Some (size, count) →
    Z.of_nat size = n `quot` shard →
    offset_expr config ar (n `quot` shard) shard c offset = Some e →
    offsets_match config ar shard e = true →
    matched config c h
            {| split_dim := Z.of_nat i; group_size := n `quot` shard;
               dynamic_slice := ds_handle |}.

(** ** What the instructions compute *)

(** The dimensions of a shape as sizes. *)
Definition sizes (s : Shape) : list nat := map Z.to_nat (dimensions s).

(** The number of element_count of an array. *)
Definition element_count (dims : list nat) : nat := foldr Nat.mul 1%nat dims.

(** Modelled from the spec: a dynamic slice clamps its start so that the slice
    stays inside the array ("extraction of a fixed-size sub-array at a
    runtime-computed start offset"). *)
Definition clamp (start : Z) (n size : nat) : nat :=
  Z.to_nat (Z.max 0 (Z.min start (Z.of_nat n - Z.of_nat size))).

(** Modelled from the spec: the dynamic slice of an array held in row-major
    order, "one scalar start-index operand per dimension, and fixed
    per-dimension slice sizes". *)
Fixpoint slice (dims : list nat) (starts : list Z) (slice_sizes : list nat)
    (data : list Z) : list Z :=
  match dims, starts, slice_sizes with
  | n :: dims', s :: starts', z :: slice_sizes' =>
    let inner := element_count dims' in
    flat_map (λ k, slice dims' starts' slice_sizes'
                         (take inner (drop ((clamp s n z + k) * inner) data)))
             (seq 0 z)
  | _, _, _ => take 1 data
  end.

(** Modelled from the spec: a shard, "a contiguous sub-range along one array
    dimension": of an array of [outer] blocks of [n] rows of [inner] element_count
    each, the rows [start] to [start + size - 1] of every block. *)
Definition shard_of (outer n inner start size : nat) (data : list Z) : list Z :=
  flat_map (λ a, take (size * inner) (drop ((a * n + start) * inner) data))
           (seq 0 outer).

Definition scalar (v : list Z) : option Z :=
  match v with
  | [x] => Some x
  | _ => None
  end.

Section Semantics.

Variable config : HloModuleConfig.

(** The arguments of the computation on each device, by parameter number. *)
Variable parameters : Device → Z → list Z.

(** What the reduction computations compute. *)
Variable reduction : option nat → Z → Z → Z.

(** Modelled from the spec: an all-reduce, "a collective combining arrays
    elementwise across a group ..., delivering the full combined result to
    every participant": the rank of the device in its group, the size of the
    group, and the combined array. *)
Definition all_reduce_value (i : HloInstruction) (d : Device)
    (operand_at : Device → option (list Z)) : option (nat * nat * list Z) :=
  '(ordinal, rank) ← rankOf d (device_groups config i);
  g ← device_groups config i !! ordinal;
  values ← mapM operand_at g;
  match values with
  | v :: values' =>
    Some (rank, length g, foldl (zip_with (reduction (to_apply i))) v values')
  | [] => None
  end.

(** Modelled from the spec: the operands of a reduction, "one-or-more array
    operands combined elementwise by a user-supplied commutative-associative
    function": what a device contributes. *)
Definition combined (f : Z → Z → Z) (value : handle → option (list Z))
    (i : HloInstruction) : option (list Z) :=
  values ← mapM value (operands i);
  match values with
  | v :: values' => Some (foldl (zip_with f) v values')
  | [] => None
  end.

Definition elementwise (f : Z → Z → Z) (value : handle → option (list Z))
    (i : HloInstruction) : option (list Z) :=
  match operands i with
  | [x; y] => a ← value x; b ← value y; Some (zip_with f a b)
  | _ => None
  end.

(** Modelled from the spec: the value of an instruction on device [d], from
    the values of its operands. A reshape and a conversion keep the elements
    and their row-major order; a reduce-scatter is "an all-reduce whose result
    is additionally partitioned so each participant receives only its shard",
    its input being its output with the scatter dimension multiplied by the
    group size. *)
Definition eval_instruction (c : HloComputation)
    (value : Device → handle → option (list Z)) (d : Device)
    (i : HloInstruction) : option (list Z) :=
  match opcode i with
  | kParameter => Some (parameters d (parameter_number i))
  | kConstant => Some (literal i)
  | kIota =>
    match dimensions (shape i) with
    | [n] => Some (iota n)
    | _ => None
    end
  | kReplicaId => Some [d.1]
  | kPartitionId => Some [d.2]
  | kConvert | kReshape =>
    match operands i with
    | [x] => value d x
    | _ => None
    end
  | kAdd => elementwise Z.add (value d) i
  | kMultiply => elementwise Z.mul (value d) i
  | kDynamicSlice =>
    match operands i with
    | x :: starts =>
      xi ← find_instruction c x;
      data ← value d x;
      start_values ← mapM (λ s, value d s ≫= scalar) starts;
      Some (slice (sizes (shape xi)) start_values (sizes (shape i)) data)
    | [] => None
    end
  | kAllReduce =>
    snd <$> all_reduce_value i d
              (λ d', combined (reduction (to_apply i)) (value d') i)
  | kAllReduceScatter =>
    '(rank, participants, data) ←
      all_reduce_value i d (λ d', combined (reduction (to_apply i)) (value d') i);
    let out := sizes (shape i) in
    let dim := Z.to_nat (scatter_dimension i) in
    size ← out !! dim;
    Some (shard_of (element_count (take dim out)) (size * participants)
                   (element_count (drop (S dim) out)) (rank * size) size data)
  end.

(** The value of instruction [h] on device [d]; [fuel] bounds the depth of
    the graph under [h]. *)
Fixpoint eval (fuel : nat) (c : HloComputation) (d : Device) (h : handle)
  : option (list Z) :=
  match fuel with
  | O => None
  | S fuel' => find_instruction c h ≫= eval_instruction c (eval fuel' c) d
  end.

End Semantics.

(** The operands whose values the value of an instruction is made of. *)
Definition evaluated_operands (i : HloInstruction) : list handle :=
  match opcode i with
  | kParameter | kConstant | kIota | kReplicaId | kPartitionId => []
  | _ => operands i
  end.

(** The value of [y] is made of the value of [o]. *)
Definition needs (c : HloComputation) (y o : handle) : Prop :=
  ∃ i, find_instruction c y = Some i ∧ o ∈ evaluated_operands i.

(** The value of [y] depends on the value of [z]. *)
Inductive reaches (c : HloComputation) : handle → handle → Prop :=
| reaches_operand y o : needs c y o → reaches c y o
| reaches_through y o z : needs c y o → reaches c o z → reaches c y z.

(** The handle of what replaces the slice: the new reduce-scatter, or the new
    reshape of it. *)
Definition replacement (c : HloComputation) (ar_handle : handle)
    (ds : HloInstruction) : handle :=
  match intervening_reshape ar_handle ds with
  | Some _ => S (fresh_handle c)
  | None => fresh_handle c
  end.

(** The dimensions of every shape are sizes. *)
Definition shapes_valid (c : HloComputation) : Prop :=
  ∀ h i, (h, i) ∈ instructions c → Forall (λ n, 0 ≤ n) (dimensions (shape i)).

(** Arguments to evaluate the test modules on: on the device of replica [r],
    the array of the multiples of [r + 1] in row-major order. *)
Fixpoint count_up (n : nat) (from step : Z) : list Z :=
  match n with
  | O => []
  | S n' => from :: count_up n' (from + step) step
  end.

Definition ramp (d : Device) (number : Z) : list Z :=
  count_up (Z.to_nat 32768) 0 (d.1 + 1).

(** A module in the way of the test AllReplicas whose all-reduce combines two
    operands. *)
Definition TwoOperands_entry : HloComputation :=
  {| instructions :=
       [ (1%nat, parameter (layout_210 [32; 8; 128]) 0);
         (2%nat, parameter (layout_210 [32; 8; 128]) 1);
         (3%nat, all_reduce (layout_210 [32; 8; 128]) [1%nat; 2%nat] [] None false);
         (4%nat, constant (mkShape S32 [8] (Some [0])) [0; 1; 2; 3; 4; 5; 6; 7]);
         (5%nat, instruction kReplicaId (u32 []) []);
         (6%nat, instruction kDynamicSlice (s32 [1]) [4%nat; 5%nat]);
         (7%nat, instruction kReshape (s32 []) [6%nat]);
         (8%nat, constant (s32 []) [4]);
         (9%nat, instruction kMultiply (s32 []) [7%nat; 8%nat]);
         (10%nat, constant (s32 []) [0]);
         (11%nat, instruction kDynamicSlice (f32 [4; 8; 128])
                              [3%nat; 9%nat; 10%nat; 10%nat]) ];
     root_instruction := 11%nat;
     IsFusionComputation := false |}.

(** Arguments that differ from one parameter to the next: on the device of
    replica [r], parameter [number] counts up from [number] in steps of
    [r + 1]. *)
Definition ramp_from (d : Device) (number : Z) : list Z :=
  count_up (Z.to_nat 32768) number (d.1 + 1).

(** ** Well-formed computations *)

(** The start indices of every dynamic slice are scalars ("one array operand,
    one scalar start-index operand per dimension"). *)
Definition scalar_starts (c : HloComputation) : Prop :=
  ∀ h i o oi,
    (h, i) ∈ instructions c → opcode i = kDynamicSlice →
    o ∈ drop 1 (operands i) → find_instruction c o = Some oi →
    dimensions (shape oi) = [].

(** Handles name one instruction each, operands are instructions of the
    computation, and start indices are scalars. *)
Definition well_formed (c : HloComputation) : Prop :=
  NoDup (handles c) ∧ operands_closed c ∧ scalar_starts c.

(** No all-reduce of the computation matches. *)
Definition settled (config : HloModuleConfig) (c : HloComputation) : Prop :=
  ∀ x ar,
    find_instruction c x = Some ar → opcode ar = kAllReduce →
    MatchAllReduceScatter c x (num_partitions config) (replica_count config)
                          false true = None.

(** Nothing the analyzer recognizes is at [y]: no instruction, a collective,
    a reshape to an array, or a slice of what is no table. *)
Definition dead (c : HloComputation) (y : handle) : Prop :=
  match find_instruction c y with
  | None => True
  | Some i =>
    opcode i = kAllReduce ∨ opcode i = kAllReduceScatter
    ∨ (opcode i = kReshape ∧ dimensions (shape i) ≠ [])
    ∨ (opcode i = kDynamicSlice
       ∧ ∃ t rest, operands i = t :: rest ∧ table_of c t = None)
  end.

(** Where an operand points once the uses of [old] have moved to [new]. *)
Definition rename (old new : handle) (o : handle) : handle :=
  if decide (o = old) then new else o.

(** ** The sweep, as far as it has come *)

(** The sweep over the computation [original] has visited [visited] and is
    in state [s]: the computation is well formed, its all-reduces are
    instructions [original] had, and those already visited do not match. *)
Definition swept (config : HloModuleConfig) (original : HloComputation)
    (visited : list handle) (s : LoopState) : Prop :=
  well_formed (computation s)
  ∧ IsFusionComputation (computation s) = IsFusionComputation original
  ∧ ∀ x ar,
      find_instruction (computation s) x = Some ar → opcode ar = kAllReduce →
      x ∈ handles original
      ∧ (x ∈ visited →
         MatchAllReduceScatter (computation s) x (num_partitions config)
                               (replica_count config) false true = None).

(** The run over the module [m] has swept the computations [visited] and is
    in state [s]: the fusion computations are as they were, the others are
    well formed, and those already swept are settled. *)
Definition run_swept (m : HloModule) (visited : list nat) (s : RunState)
  : Prop :=
  config (module s) = config m
  ∧ ∀ index c,
      computations (module s) !! index = Some c →
      ∃ c0, computations m !! index = Some c0
            ∧ IsFusionComputation c = IsFusionComputation c0
            ∧ (IsFusionComputation c = true → c = c0)
            ∧ (IsFusionComputation c = false →
               well_formed c ∧ (index ∈ visited → settled (config m) c)).

(** [well_formed], decided. *)
Definition well_formed_check (c : HloComputation) : bool :=
  bool_decide (NoDup (handles c))
  && forallb (λ p : handle * HloInstruction,
                forallb (λ o, bool_decide (o ∈ handles c)) (operands p.2))
             (instructions c)
  && forallb (λ p : handle * HloInstruction,
                negb (bool_decide (opcode p.2 = kDynamicSlice))
                || forallb (λ o, match find_instruction c o with
                                 | Some oi => bool_decide (dimensions (shape oi) = [])
                                 | None => true
                                 end)
                           (drop 1 (operands p.2)))
             (instructions c).

(** ** Modules on which a second run finds work *)

(** The entry computation of the test AllReplicas with the all-reduce as the
    root and its slice unused, and a second all-reduce of the same parameter
    with a slice of its own. *)
Definition TwoChains_entry : HloComputation :=
  {| instructions :=
       instructions (AllReplicas_entry [0; 1; 2; 3; 4; 5; 6; 7])
       ++ [ (11%nat, all_reduce (layout_210 [32; 8; 128]) [1%nat] [] None false);
            (12%nat, instruction kDynamicSlice (f32 [4; 8; 128])
                                 [11%nat; 8%nat; 9%nat; 9%nat]) ];
     root_instruction := 2%nat;
     IsFusionComputation := false |}.

Definition TwoChains : HloModule :=
  {| config := mkConfig 1 8; computations := [sum; TwoChains_entry] |}.

(** The entry computation of the test AllReplicas as a fusion computation. *)
Definition Fused_computation : HloComputation :=
  {| instructions := instructions (AllReplicas_entry [0; 1; 2; 3; 4; 5; 6; 7]);
     root_instruction := 10%nat;
     IsFusionComputation := true |}.

Definition Fused : HloModule :=
  {| config := mkConfig 1 8; computations := [sum; Fused_computation] |}.

(** ** The helpers of the tests *)

(** [AllReduceCount] of the tests, lines 57 to 62: the all-reduce instructions
    of the computation it reads, the module's entry computation. *)
Definition AllReduceCount (entry : HloComputation) : nat :=
  length (filter (λ inst : handle * HloInstruction, opcode inst.2 = kAllReduce)
                 (instructions entry)).

(** The all-reduce instructions of all the computations of a module. *)
Definition module_all_reduces (m : HloModule) : nat :=
  sum_list_with AllReduceCount (computations m).

(** [RunPass] of the tests, lines 39 to 55, from the parsed computations on:
    the module gets the configuration built from [num_replicas] and
    [num_partitions], the pass runs on it, an error of the pass is returned
    as it is, and otherwise the module is returned. The second component
    tells whether [EXPECT_EQ(changed.ValueOrDie(), expect_change)] held; it is
    not evaluated when the pass fails. *)
Definition RunPass
    (matcher : HloComputation → handle → Z → Z → bool → bool
               → option AllReduceScatterSpec)
    (parsed : list HloComputation) (num_replicas num_partitions : Z)
    (expect_change : bool) : StatusOr HloModule * bool :=
  let config := mkConfig num_partitions num_replicas in
  let module := mkModule config parsed in
  match Run matcher module with
  | (Error status, _) => (Error status, true)
  | (Value changed, module) =>
    (Value module, bool_decide (changed = expect_change))
  end.

(** ** What the pass does to a computation *)

(** The instruction [i] with other operands. *)
Definition with_operands (ops : list handle) (i : HloInstruction)
  : HloInstruction :=
  {| opcode := opcode i; shape := shape i; operands := ops;
     to_apply := to_apply i; replica_groups := replica_groups i;
     constrain_layout := constrain_layout i; channel_id := channel_id i;
     use_global_device_ids := use_global_device_ids i;
     scatter_dimension := scatter_dimension i; literal := literal i;
     parameter_number := parameter_number i |}.

(** Every instruction of [c'] is an instruction of [c] under the same handle,
    at most its operands changed, or it is a reduce-scatter or a reshape. *)
Definition replaced (c c' : HloComputation) : Prop :=
  ∀ x i',
    (x, i') ∈ instructions c' →
    (∃ i, (x, i) ∈ instructions c ∧ i' = with_operands (operands i') i)
    ∨ opcode i' = kAllReduceScatter
    ∨ opcode i' = kReshape.

(** Nothing dangles: operands and the root designation name instructions of
    the computation. *)
Definition references_closed (c : HloComputation) : Prop :=
  operands_closed c ∧ root_instruction c ∈ handles c.

(** [references_closed], decided. *)
Definition references_closed_check (c : HloComputation) : bool :=
  forallb (λ p : handle * HloInstruction,
             forallb (λ o, bool_decide (o ∈ handles c)) (operands p.2))
          (instructions c)
  && bool_decide (root_instruction c ∈ handles c).

(** What [Run] may do to a computation, given what it may do to one it
    sweeps: a fusion computation stays as it is. *)
Definition left_or (R : HloComputation → HloComputation → Prop)
    (c c' : HloComputation) : Prop :=
  if IsFusionComputation c then c' = c else R c c'.

(** * Properties *)

(** ** Facts about the arena *)

Lemma find_instruction_in_app l1 l2 h :
  find_instruction_in (l1 ++ l2) h =
  match find_instruction_in l1 h with
  | Some i => Some i
  | None => find_instruction_in l2 h
  end.
Proof.
  induction l1 as [|[h' i] l1 IH]; simpl; [done|]. by case_decide.
Qed.

Lemma find_instruction_in_None l h :
  find_instruction_in l h = None ↔ h ∉ l.*1.
Proof.
  induction l as [|[h' i] l IH]; simpl.
  - split; [intros _; apply not_elem_of_nil | done].
  - case_decide; subst.
    + split; [done | intros []; left].
    + rewrite IH, not_elem_of_cons. simpl. split; [by intros; split; [congruence|] | by intros [_ ?]].
Qed.

Lemma find_instruction_in_Some l h i :
  find_instruction_in l h = Some i → (h, i) ∈ l.
Proof.
  induction l as [|[h' i'] l IH]; simpl; [done|].
  case_decide; subst.
  - intros [= ->]. left.
  - intros. right. auto.
Qed.

Lemma find_instruction_Some c h i :
  find_instruction c h = Some i → (h, i) ∈ instructions c.
Proof. apply find_instruction_in_Some. Qed.

Lemma find_instruction_handles c h :
  is_Some (find_instruction c h) ↔ h ∈ handles c.
Proof.
  unfold find_instruction, handles.
  destruct (find_instruction_in (instructions c) h) eqn:E.
  - split; [intros _|eauto].
    apply find_instruction_in_Some in E.
    apply list_elem_of_fmap. by exists (h, h0).
  - apply find_instruction_in_None in E. split; [by intros [? ?]|done].
Qed.

Lemma elem_of_instructions_find c h i :
  (h, i) ∈ instructions c → is_Some (find_instruction c h).
Proof.
  intros. apply find_instruction_handles, list_elem_of_fmap. by exists (h, i).
Qed.

Lemma fresh_handle_not_in c : fresh_handle c ∉ handles c.
Proof. apply max_list_not_elem_of_gt. unfold fresh_handle. lia. Qed.

Lemma find_instruction_fresh c : find_instruction c (fresh_handle c) = None.
Proof. apply find_instruction_in_None, fresh_handle_not_in. Qed.

Lemma find_instruction_AddInstruction i c h :
  find_instruction (AddInstruction i c).2 h =
  if decide (h = fresh_handle c) then Some i else find_instruction c h.
Proof.
  unfold find_instruction at 1. simpl. rewrite find_instruction_in_app. simpl.
  case_decide; subst.
  - fold (find_instruction c (fresh_handle c)).
    rewrite find_instruction_fresh. by rewrite decide_True.
  - fold (find_instruction c h). rewrite decide_False by done.
    by destruct (find_instruction c h).
Qed.

Lemma find_instruction_erase x c h :
  find_instruction (erase x c) h =
  if decide (h = x) then None else find_instruction c h.
Proof.
  unfold find_instruction, erase. simpl.
  induction (instructions c) as [|[h' i] l IH]; simpl.
  - by case_decide.
  - rewrite filter_cons. simpl. destruct (decide (h' ≠ x)) as [Hne|Heq].
    + simpl. rewrite IH. repeat case_decide; subst; done.
    + apply dec_stable in Heq. subst. rewrite IH.
      repeat case_decide; subst; done.
Qed.

Lemma find_instruction_ReplaceAllUsesWith old new c h :
  find_instruction (ReplaceAllUsesWith old new c).2 h =
  replace_operand old new <$> find_instruction c h.
Proof.
  unfold find_instruction. simpl.
  induction (instructions c) as [|[h' i] l IH]; simpl; [done|].
  by case_decide.
Qed.

Lemma handles_AddInstruction i c :
  handles (AddInstruction i c).2 = handles c ++ [fresh_handle c].
Proof. unfold handles. simpl. by rewrite fmap_app. Qed.

Lemma max_list_snoc l n : max_list (l ++ [n]) = (max_list l `max` n)%nat.
Proof. induction l as [|m l IH]; simpl; lia. Qed.

Lemma fresh_handle_AddInstruction i c :
  fresh_handle (AddInstruction i c).2 = S (fresh_handle c).
Proof.
  unfold fresh_handle at 1. rewrite handles_AddInstruction, max_list_snoc.
  unfold fresh_handle. lia.
Qed.

Lemma for_each_unchanged {A S : Type} (body : A → S → Status * S) l s :
  (∀ a, a ∈ l → body a s = (OK, s)) → for_each body l s = (OK, s).
Proof.
  induction l as [|a l IH]; intros Hbody; simpl; [done|].
  rewrite Hbody by left. apply IH. intros. apply Hbody. by right.
Qed.

Lemma for_each_cons_OK {A S : Type} (body : A → S → Status * S) a l s s' :
  body a s = (OK, s') → for_each body (a :: l) s = for_each body l s'.
Proof. intros H. simpl. by rewrite H. Qed.

Lemma for_each_app {A S : Type} (body : A → S → Status * S) l1 l2 s :
  for_each body (l1 ++ l2) s =
  match for_each body l1 s with
  | (OK, s') => for_each body l2 s'
  | failed => failed
  end.
Proof.
  revert s. induction l1 as [|a l1 IH]; intros s; simpl; [done|].
  destruct (body a s) as [[] s']; auto.
Qed.

Lemma module_eta m : {| config := config m; computations := computations m |} = m.
Proof. by destruct m. Qed.

Section Skips.
Variable matcher :
  HloComputation → handle → Z → Z → bool → bool → option AllReduceScatterSpec.

Lemma RunOnInstruction_removed cfg h s :
  find_instruction (computation s) h = None →
  RunOnInstruction matcher cfg h s = (OK, s).
Proof. intros H. unfold RunOnInstruction. by rewrite H. Qed.

Lemma RunOnInstruction_other_opcode cfg h s i :
  find_instruction (computation s) h = Some i → opcode i ≠ kAllReduce →
  RunOnInstruction matcher cfg h s = (OK, s).
Proof.
  intros H Hop. unfold RunOnInstruction. rewrite H.
  by rewrite bool_decide_eq_false_2.
Qed.

Lemma RunOnInstruction_no_match cfg h s :
  matcher (computation s) h (num_partitions cfg) (replica_count cfg) false true
  = None →
  RunOnInstruction matcher cfg h s = (OK, s).
Proof.
  intros H. unfold RunOnInstruction.
  destruct (find_instruction (computation s) h); [|done].
  destruct (negb _); [done|]. by rewrite H.
Qed.

Lemma RunOnInstruction_no_all_reduce cfg h s :
  no_all_reduce (computation s) →
  RunOnInstruction matcher cfg h s = (OK, s).
Proof.
  intros Hc. destruct (find_instruction (computation s) h) as [i|] eqn:E.
  - eapply RunOnInstruction_other_opcode; [done|].
    eapply Hc, find_instruction_Some, E.
  - by apply RunOnInstruction_removed.
Qed.

Lemma RunOnComputation_no_all_reduce index s :
  (∀ c, computations (module s) !! index = Some c → no_all_reduce c) →
  RunOnComputation matcher index s = (OK, s).
Proof.
  intros Hc. unfold RunOnComputation.
  destruct (computations (module s) !! index) as [c|] eqn:E; [|done].
  rewrite for_each_unchanged.
  - simpl. rewrite list_insert_id by done. rewrite module_eta. by destruct s.
  - intros h _. apply RunOnInstruction_no_all_reduce. simpl. by apply Hc.
Qed.

Lemma elem_of_MakeNonfusionComputations m index :
  index ∈ MakeNonfusionComputations m ↔
  ∃ c, computations m !! index = Some c ∧ IsFusionComputation c = false.
Proof.
  unfold MakeNonfusionComputations. rewrite list_elem_of_fmap. split.
  - intros ([i c] & -> & Hin). apply list_elem_of_filter in Hin as [Hf Hin].
    apply elem_of_lookup_imap in Hin as (i' & c' & [= -> ->] & Hl). eauto.
  - intros (c & Hl & Hf). exists (index, c). split; [done|].
    apply list_elem_of_filter. split; [done|].
    apply elem_of_lookup_imap. eauto.
Qed.

(** C9. A module with no all-reduce instruction in any non-fusion
    computation: [Run] returns changed = false and leaves the module as it
    was, with no instruction added or removed. *)
Theorem Run_without_all_reduce m :
  (∀ c, c ∈ computations m → IsFusionComputation c = false → no_all_reduce c) →
  Run matcher m = (Value false, m).
Proof.
  intros Hm. unfold Run, RunLoops. rewrite for_each_unchanged; [done|].
  intros index Hin. apply RunOnComputation_no_all_reduce. simpl.
  intros c Hc. apply elem_of_MakeNonfusionComputations in Hin as (c' & Hc' & Hf).
  simplify_eq. apply Hm; [|done]. by eapply list_elem_of_lookup_2.
Qed.
End Skips.

Lemma users_nonempty c x h i :
  (h, i) ∈ instructions c → x ∈ operands i → users c x ≠ [].
Proof.
  intros Hin Hx Hnil. unfold users in Hnil.
  apply fmap_nil_inv in Hnil.
  assert ((h, i) ∈ filter (λ p : handle * HloInstruction, x ∈ operands p.2) (instructions c)) as H.
  { apply list_elem_of_filter. done. }
  rewrite Hnil in H. by apply elem_of_nil in H.
Qed.

Lemma removable_used c x h i :
  (h, i) ∈ instructions c → x ∈ operands i → removable c x = false.
Proof.
  intros Hin Hx. unfold removable.
  rewrite (bool_decide_eq_false_2 (users c x = [])); [|by eapply users_nonempty].
  by rewrite andb_false_r.
Qed.

Lemma next_removable_None c worklist :
  (∀ x, x ∈ worklist → removable c x = false) → next_removable c worklist = None.
Proof.
  induction worklist as [|x l IH]; intros H; simpl; [done|].
  rewrite H by left. apply IH. intros. apply H. by right.
Qed.

Lemma prune_nothing rounds c worklist :
  (∀ x, x ∈ worklist → removable c x = false) → prune rounds worklist c = c.
Proof.
  intros H. destruct rounds; simpl; [done|]. by rewrite next_removable_None.
Qed.

Lemma RemoveInstruction_OK h c c' :
  RemoveInstruction h c = (OK, c') ↔ removable c h = true ∧ c' = erase h c.
Proof.
  unfold RemoveInstruction. destruct (removable c h).
  - split; [by intros [= <-] | by intros [_ ->]].
  - split; [done | by intros [? _]].
Qed.

Lemma RemoveInstruction_status h c :
  RemoveInstruction h c = (OK, erase h c) ∧ removable c h = true
  ∨ RemoveInstruction h c = (INTERNAL, c) ∧ removable c h = false.
Proof. unfold RemoveInstruction. destruct (removable c h); auto. Qed.

Lemma removable_handles c h : removable c h = true → h ∈ handles c.
Proof.
  unfold removable. intros H. apply andb_true_iff in H as [H _].
  apply andb_true_iff in H as [H _]. by apply bool_decide_eq_true in H.
Qed.

Lemma removable_root c h : removable c h = true → root_instruction c ≠ h.
Proof.
  unfold removable. intros H. apply andb_true_iff in H as [_ H].
  by apply bool_decide_eq_true in H.
Qed.

Lemma removable_users c h : removable c h = true → users c h = [].
Proof.
  unfold removable. intros H. apply andb_true_iff in H as [H _].
  apply andb_true_iff in H as [_ H]. by apply bool_decide_eq_true in H.
Qed.

Lemma find_add_replacement_old c h ar ar_spec ds channel x :
  x ∈ handles c →
  find_instruction (add_replacement c h ar ar_spec ds channel).2 x =
  find_instruction c x.
Proof.
  intros Hx. unfold add_replacement.
  assert (x ≠ fresh_handle c) as Hne1.
  { intros ->. by apply fresh_handle_not_in in Hx. }
  assert (x ≠ S (fresh_handle c)) as Hne2.
  { intros ->. apply max_list_elem_of_le in Hx. unfold fresh_handle in Hx. lia. }
  destruct (intervening_reshape h ds).
  - rewrite find_instruction_AddInstruction, fresh_handle_AddInstruction.
    rewrite decide_False by done.
    rewrite find_instruction_AddInstruction. by rewrite decide_False.
  - rewrite find_instruction_AddInstruction. by rewrite decide_False.
Qed.

Lemma find_add_replacement_scatter c h ar ar_spec ds channel :
  find_instruction (add_replacement c h ar ar_spec ds channel).2 (fresh_handle c)
  = Some (scatter_instruction ar ar_spec channel).
Proof.
  unfold add_replacement. destruct (intervening_reshape h ds).
  - rewrite find_instruction_AddInstruction, fresh_handle_AddInstruction.
    rewrite decide_False by lia.
    rewrite find_instruction_AddInstruction. by rewrite decide_True.
  - rewrite find_instruction_AddInstruction. by rewrite decide_True.
Qed.

Lemma add_replacement_result c h ar ar_spec ds channel :
  (add_replacement c h ar ar_spec ds channel).1 =
  match intervening_reshape h ds with
  | Some _ => S (fresh_handle c)
  | None => fresh_handle c
  end.
Proof.
  unfold add_replacement. destruct (intervening_reshape h ds); [|done].
  simpl. apply fresh_handle_AddInstruction.
Qed.

Lemma find_add_replacement_reshape c h ar ar_spec ds channel r :
  intervening_reshape h ds = Some r →
  find_instruction (add_replacement c h ar ar_spec ds channel).2 (S (fresh_handle c))
  = Some (CreateReshape (shape ds) (fresh_handle c)).
Proof.
  intros Hr. unfold add_replacement. rewrite Hr.
  rewrite find_instruction_AddInstruction, fresh_handle_AddInstruction.
  by rewrite decide_True.
Qed.

Lemma find_add_replacement_None c h ar ar_spec ds channel x :
  (S (fresh_handle c) < x)%nat →
  find_instruction (add_replacement c h ar ar_spec ds channel).2 x = None.
Proof.
  intros Hx. unfold add_replacement.
  assert (find_instruction c x = None) as Hc.
  { apply find_instruction_in_None, max_list_not_elem_of_gt.
    unfold fresh_handle in Hx. fold (handles c). lia. }
  destruct (intervening_reshape h ds).
  - rewrite find_instruction_AddInstruction, fresh_handle_AddInstruction.
    rewrite decide_False by lia.
    rewrite find_instruction_AddInstruction. by rewrite decide_False by lia.
  - rewrite find_instruction_AddInstruction. by rewrite decide_False by lia.
Qed.

Lemma TF_RETURN_IF_ERROR_OK (f g : Mutation) c c' :
  (f >> g) c = (OK, c') ↔ ∃ c1, f c = (OK, c1) ∧ g c1 = (OK, c').
Proof.
  unfold TF_RETURN_IF_ERROR. destruct (f c) as [[] c1]; split.
  - eauto.
  - by intros (? & [= <-] & ?).
  - done.
  - by intros (? & [=] & ?).
  - done.
  - by intros (? & [=] & ?).
Qed.

Lemma handles_erase x c h : h ∈ handles (erase x c) ↔ h ∈ handles c ∧ h ≠ x.
Proof.
  rewrite <- !find_instruction_handles, find_instruction_erase.
  case_decide; subst.
  - split; [by intros [? ?] | by intros [_ ?]].
  - tauto.
Qed.

Lemma handles_ReplaceAllUsesWith old new c :
  handles (ReplaceAllUsesWith old new c).2 = handles c.
Proof.
  unfold handles. simpl. rewrite <- list_fmap_compose.
  apply list_fmap_ext. by intros ? [].
Qed.

Lemma operands_replace_operand old new i :
  operands (replace_operand old new i)
  = (λ o, if decide (o = old) then new else o) <$> operands i.
Proof. done. Qed.

Section Effect.
Variables (c : HloComputation) (h : handle) (ar : HloInstruction)
          (ar_spec : AllReduceScatterSpec) (ds : HloInstruction)
          (channel : option Z).
Hypothesis Har : find_instruction c h = Some ar.
Hypothesis Hds : find_instruction c (dynamic_slice ar_spec) = Some ds.
Hypothesis Hsliced : ∀ o, operand ds 0 = Some o → o ∈ handles c.

Let added := add_replacement c h ar ar_spec ds channel.
Let c3 := (ReplaceAllUsesWith (dynamic_slice ar_spec) added.1 added.2).2.
Let c4 := erase (dynamic_slice ar_spec) c3.
Let c5 := match intervening_reshape h ds with
          | Some reshape => erase reshape c4
          | None => c4
          end.

Lemma intervening_reshape_handles r :
  intervening_reshape h ds = Some r → r ∈ handles c ∧ r ≠ h.
Proof.
  unfold intervening_reshape. destruct (operand ds 0) as [o|] eqn:E; [|done].
  case_decide; [|done]. intros [= <-]. auto.
Qed.

Lemma handle_not_fresh x : x ∈ handles c → x ≠ fresh_handle c.
Proof. intros Hx ->. by apply fresh_handle_not_in in Hx. Qed.

Lemma find_c5 x :
  find_instruction c5 x =
  if decide (x = dynamic_slice ar_spec ∨ intervening_reshape h ds = Some x) then None
  else replace_operand (dynamic_slice ar_spec) added.1
       <$> find_instruction added.2 x.
Proof.
  unfold c5, c4, c3. destruct (intervening_reshape h ds) as [r|].
  - rewrite !find_instruction_erase, find_instruction_ReplaceAllUsesWith.
    repeat case_decide; intuition congruence.
  - rewrite !find_instruction_erase, find_instruction_ReplaceAllUsesWith.
    repeat case_decide; intuition congruence.
Qed.

Lemma scatter_survives :
  find_instruction (erase h c5) (fresh_handle c) =
  Some (replace_operand (dynamic_slice ar_spec) added.1
          (scatter_instruction ar ar_spec channel)).
Proof.
  assert (h ∈ handles c) as Hh by (apply find_instruction_handles; eauto).
  assert (dynamic_slice ar_spec ∈ handles c) as Hd
    by (apply find_instruction_handles; eauto).
  rewrite find_instruction_erase, decide_False
    by (intros E; by apply handle_not_fresh in Hh).
  rewrite find_c5, decide_False.
  - unfold added. by rewrite find_add_replacement_scatter.
  - intros [E|E].
    + by apply handle_not_fresh in Hd.
    + apply intervening_reshape_handles in E as [E _].
      by apply handle_not_fresh in E.
Qed.

Lemma RemoveDeadInstructions_OK c' :
  RemoveDeadInstructions (dynamic_slice ar_spec) added.1
    (intervening_reshape h ds) h added.2 = (OK, c') →
  c' = rewritten c h ar ar_spec ds channel.
Proof.
  unfold RemoveDeadInstructions.
  intros H. apply TF_RETURN_IF_ERROR_OK in H as (c3' & H3 & H).
  assert (c3' = c3) as -> by (unfold ReplaceAllUsesWith in H3; by inversion H3).
  clear H3.
  apply TF_RETURN_IF_ERROR_OK in H as (c4' & H4 & H).
  apply RemoveInstruction_OK in H4 as [_ ->]. fold c4 in H.
  apply TF_RETURN_IF_ERROR_OK in H as (c5' & H5 & H).
  assert (c5' = c5) as ->.
  { unfold c5. destruct (intervening_reshape h ds); simpl in H5.
    - by apply RemoveInstruction_OK in H5 as [_ ->].
    - by inversion H5. }
  clear H5.
  unfold RemoveInstructionAndUnusedOperands in H.
  destruct (removable c5 h) eqn:Hrem; [|done].
  inversion H as [H']. clear H H'.
  rewrite prune_nothing; [done|].
  intros x Hx.
  assert (find_instruction c5 h
          = Some (replace_operand (dynamic_slice ar_spec) added.1 ar)) as Hfind.
  { apply removable_handles, find_instruction_handles in Hrem as [i Hi].
    rewrite find_c5 in Hi. rewrite find_c5.
    case_decide; [done|].
    unfold added. rewrite find_add_replacement_old, Har; [done|].
    apply find_instruction_handles; eauto. }
  rewrite Hfind in Hx. simpl in Hx.
  eapply removable_used.
  - eapply find_instruction_Some, scatter_survives.
  - done.
Qed.
End Effect.

Section Accepted.
Variable matcher :
  HloComputation → handle → Z → Z → bool → bool → option AllReduceScatterSpec.
Variables (cfg : HloModuleConfig) (s : LoopState) (h : handle)
          (ar : HloInstruction) (ar_spec : AllReduceScatterSpec)
          (ds : HloInstruction).
Hypothesis Har : find_instruction (computation s) h = Some ar.
Hypothesis Hop : opcode ar = kAllReduce.
Hypothesis Hmatch :
  matcher (computation s) h (num_partitions cfg) (replica_count cfg) false true
  = Some ar_spec.
Hypothesis Hds : find_instruction (computation s) (dynamic_slice ar_spec) = Some ds.

Lemma RunOnInstruction_accepted :
  RunOnInstruction matcher cfg h s =
  match dimensions_at (shape ar) (split_dim ar_spec) with
  | None => (ABORTED, s)
  | Some dim =>
    if group_size ar_spec =? 0 then (ABORTED, s)
    else if negb (dim `rem` group_size ar_spec =? 0) then (INTERNAL, s)
    else
      let channel := (scatter_channel ar (next_channel_id s)).1 in
      let next := (scatter_channel ar (next_channel_id s)).2 in
      match operand ds 0 with
      | None =>
        (ABORTED,
         mkLoop (AddInstruction (scatter_instruction ar ar_spec channel)
                                (computation s)).2 next (changed s))
      | Some _ =>
        let added := add_replacement (computation s) h ar ar_spec ds channel in
        match RemoveDeadInstructions (dynamic_slice ar_spec) added.1
                (intervening_reshape h ds) h added.2 with
        | (OK, c') => (OK, mkLoop c' next true)
        | (failed, c') => (failed, mkLoop c' next (changed s))
        end
      end
  end.
Proof.
  unfold RunOnInstruction. rewrite Har, Hop, bool_decide_eq_true_2 by done.
  simpl. rewrite Hmatch.
  destruct (dimensions_at (shape ar) (split_dim ar_spec)) as [dim|] eqn:Hdim; [|done].
  destruct (group_size ar_spec =? 0); [done|].
  destruct (negb (dim `rem` group_size ar_spec =? 0)); [done|].
  unfold scatter_channel, add_replacement, intervening_reshape, scatter_instruction.
  rewrite Hdim. unfold find_instruction in Hds.
  destruct (channel_id ar); simpl; unfold find_instruction; simpl;
    rewrite find_instruction_in_app, Hds;
    (destruct (operand ds 0) as [o|]; [|done]);
    (destruct (decide (o ≠ h)); simpl;
     [ destruct (RemoveDeadInstructions _ _ _ _ _) as [[] ?]; done
     | destruct (RemoveDeadInstructions _ _ _ _ _) as [[] ?]; done ]).
Qed.

Hypothesis Hsliced : ∀ o, operand ds 0 = Some o → o ∈ handles (computation s).

(** A step that ends well on an accepted match leaves the rewritten
    computation, with the counter advanced when a channel id was given. *)
Lemma RunOnInstruction_rewrites s' :
  RunOnInstruction matcher cfg h s = (OK, s') →
  ∃ dim,
    dimensions_at (shape ar) (split_dim ar_spec) = Some dim
    ∧ group_size ar_spec ≠ 0
    ∧ dim `rem` group_size ar_spec = 0
    ∧ s' = mkLoop (rewritten (computation s) h ar ar_spec ds
                             (scatter_channel ar (next_channel_id s)).1)
                  (scatter_channel ar (next_channel_id s)).2 true.
Proof.
  rewrite RunOnInstruction_accepted.
  destruct (dimensions_at (shape ar) (split_dim ar_spec)) as [dim|] eqn:Hdim; [|done].
  destruct (group_size ar_spec =? 0) eqn:HG; [done|].
  destruct (dim `rem` group_size ar_spec =? 0) eqn:Hrem; [|done].
  simpl. destruct (operand ds 0) as [o|] eqn:Ho; [|done].
  rewrite <- Ho in Hsliced.
  destruct (RemoveDeadInstructions _ _ _ _ _) as [st c'] eqn:Hdead.
  destruct st; [|done..]. intros [= <-].
  exists dim. split_and!; [done|lia|lia|].
  f_equal. by apply (RemoveDeadInstructions_OK _ _ _ _ _ _ Har Hds Hsliced).
Qed.
End Accepted.

Lemma elem_of_channel_ids_of c id :
  id ∈ channel_ids_of c ↔ ∃ x i, (x, i) ∈ instructions c ∧ channel_id i = Some id.
Proof.
  unfold channel_ids_of. rewrite list_elem_of_omap. split.
  - intros ([x i] & Hin & Hid). eauto.
  - intros (x & i & Hin & Hid). by exists (x, i).
Qed.

Lemma instructions_erase x c :
  instructions (erase x c) = filter (λ p, p.1 ≠ x) (instructions c).
Proof. done. Qed.

Lemma instructions_ReplaceAllUsesWith old new c :
  instructions (ReplaceAllUsesWith old new c).2
  = prod_map id (replace_operand old new) <$> instructions c.
Proof. done. Qed.

Lemma instructions_add_replacement c h ar ar_spec ds channel :
  instructions (add_replacement c h ar ar_spec ds channel).2 =
  instructions c
  ++ [(fresh_handle c, scatter_instruction ar ar_spec channel)]
  ++ match intervening_reshape h ds with
     | Some _ => [(S (fresh_handle c), CreateReshape (shape ds) (fresh_handle c))]
     | None => []
     end.
Proof.
  unfold add_replacement. destruct (intervening_reshape h ds); simpl.
  - rewrite <- app_assoc. simpl. do 4 f_equal.
    apply (fresh_handle_AddInstruction _ c).
  - done.
Qed.

Lemma elem_of_rewritten c h ar ar_spec ds channel x i' :
  (x, i') ∈ instructions (rewritten c h ar ar_spec ds channel) ↔
  x ≠ h ∧ x ≠ dynamic_slice ar_spec ∧ intervening_reshape h ds ≠ Some x
  ∧ ∃ i, i' = replace_operand (dynamic_slice ar_spec)
                (add_replacement c h ar ar_spec ds channel).1 i
         ∧ (x, i) ∈ instructions (add_replacement c h ar ar_spec ds channel).2.
Proof.
  unfold rewritten.
  set (added := add_replacement c h ar ar_spec ds channel).
  assert (∀ l : list (handle * HloInstruction),
            (x, i') ∈ prod_map id (replace_operand (dynamic_slice ar_spec) added.1) <$> l
            ↔ ∃ i, i' = replace_operand (dynamic_slice ar_spec) added.1 i ∧ (x, i) ∈ l) as Hmap.
  { intros l. rewrite list_elem_of_fmap. split.
    - intros ([x0 i] & [= -> ->] & Hin). eauto.
    - intros (i & -> & Hin). by exists (x, i). }
  cbv zeta.
  destruct (intervening_reshape h ds) as [r|].
  - rewrite !instructions_erase, !list_elem_of_filter, instructions_ReplaceAllUsesWith.
    rewrite Hmap. change ((x, i').1) with x. split.
    + intros (? & ? & ? & ?). split_and!; [done|done|congruence|done].
    + intros (? & ? & ? & ?). split_and!; [done|congruence|done|done].
  - rewrite !instructions_erase, !list_elem_of_filter, instructions_ReplaceAllUsesWith.
    rewrite Hmap. change ((x, i').1) with x. split.
    + intros (? & ? & ?). split_and!; [done|done|congruence|done].
    + intros (? & ? & ? & ?). split_and!; done.
Qed.

Lemma channel_id_replace_operand old new i :
  channel_id (replace_operand old new i) = channel_id i.
Proof. done. Qed.

Lemma find_rewritten c h ar ar_spec ds channel x :
  find_instruction (rewritten c h ar ar_spec ds channel) x =
  if decide (x = h ∨ x = dynamic_slice ar_spec ∨ intervening_reshape h ds = Some x)
  then None
  else replace_operand (dynamic_slice ar_spec)
         (add_replacement c h ar ar_spec ds channel).1
       <$> find_instruction (add_replacement c h ar ar_spec ds channel).2 x.
Proof.
  unfold rewritten. rewrite find_instruction_erase.
  destruct (intervening_reshape h ds) as [r|].
  - rewrite !find_instruction_erase, find_instruction_ReplaceAllUsesWith.
    repeat case_decide; try done; exfalso; intuition congruence.
  - rewrite !find_instruction_erase, find_instruction_ReplaceAllUsesWith.
    repeat case_decide; try done; exfalso; intuition congruence.
Qed.

Lemma root_rewritten c h ar ar_spec ds channel :
  root_instruction (rewritten c h ar ar_spec ds channel) =
  if decide (root_instruction c = dynamic_slice ar_spec)
  then (add_replacement c h ar ar_spec ds channel).1
  else root_instruction c.
Proof.
  unfold rewritten, add_replacement.
  destruct (intervening_reshape h ds); done.
Qed.

Lemma replace_operand_unused old new i :
  old ∉ operands i → replace_operand old new i = i.
Proof.
  intros H. destruct i as [op sh ops ? ? ? ? ? ? ? ?]. unfold replace_operand. simpl in *.
  f_equal. induction ops as [|o ops IH]; [done|].
  apply not_elem_of_cons in H as [? ?]. rewrite fmap_cons, IH by done.
  by rewrite decide_False.
Qed.

Section AcceptedMatch.
Variable matcher :
  HloComputation → handle → Z → Z → bool → bool → option AllReduceScatterSpec.
Variables (cfg : HloModuleConfig) (s s' : LoopState) (h : handle)
          (ar : HloInstruction) (ar_spec : AllReduceScatterSpec)
          (ds : HloInstruction).
Hypothesis Har : find_instruction (computation s) h = Some ar.
Hypothesis Hop : opcode ar = kAllReduce.
Hypothesis Hmatch :
  matcher (computation s) h (num_partitions cfg) (replica_count cfg) false true
  = Some ar_spec.
Hypothesis Hds : find_instruction (computation s) (dynamic_slice ar_spec) = Some ds.
Hypothesis Hsliced : ∀ o, operand ds 0 = Some o → o ∈ handles (computation s).
Hypothesis Hrun : RunOnInstruction matcher cfg h s = (OK, s').

Let ars := fresh_handle (computation s).

Lemma handles_not_new x :
  x ∈ handles (computation s) → x ≠ ars ∧ x ≠ S ars.
Proof.
  intros Hx. split.
  - intros ->. by apply fresh_handle_not_in in Hx.
  - intros ->. apply max_list_elem_of_le in Hx. unfold ars, fresh_handle in Hx. lia.
Qed.

Lemma new_handles_stay x :
  x = ars ∨ x = S ars →
  ¬ (x = h ∨ x = dynamic_slice ar_spec ∨ intervening_reshape h ds = Some x).
Proof.
  intros Hx [->|[->|Hr]].
  - assert (h ∈ handles (computation s)) as Hh by (apply find_instruction_handles; eauto).
    apply handles_not_new in Hh. lia.
  - assert (dynamic_slice ar_spec ∈ handles (computation s)) as Hh
      by (apply find_instruction_handles; eauto).
    apply handles_not_new in Hh. lia.
  - eapply intervening_reshape_handles in Hr as [Hr _]; [|done].
    apply handles_not_new in Hr. lia.
Qed.

(** C2. The reduce-scatter an accepted match is rewritten to is a new
    instruction with the all-reduce's operands, reduction function, replica
    groups, constrain_layout flag and use_global_device_ids flag; its scatter
    dimension is the matched split dimension; and its shape is the
    all-reduce's, the split dimension's size divided (exactly) by the matched
    group size. *)
Theorem reduce_scatter_carries_all_reduce_fields :
  dynamic_slice ar_spec ∉ operands ar →
  ∃ scatter dim,
    find_instruction (computation s) ars = None
    ∧ find_instruction (computation s') ars = Some scatter
    ∧ opcode scatter = kAllReduceScatter
    ∧ operands scatter = operands ar
    ∧ to_apply scatter = to_apply ar
    ∧ replica_groups scatter = replica_groups ar
    ∧ constrain_layout scatter = constrain_layout ar
    ∧ use_global_device_ids scatter = use_global_device_ids ar
    ∧ scatter_dimension scatter = split_dim ar_spec
    ∧ dimensions_at (shape ar) (split_dim ar_spec) = Some dim
    ∧ dim = group_size ar_spec * (dim `quot` group_size ar_spec)
    ∧ element_type (shape scatter) = element_type (shape ar)
    ∧ layout (shape scatter) = layout (shape ar)
    ∧ dimensions (shape scatter)
      = <[Z.to_nat (split_dim ar_spec) := dim `quot` group_size ar_spec]>
          (dimensions (shape ar)).
Proof.
  intros Hacyclic.
  destruct (RunOnInstruction_rewrites matcher cfg s h ar ar_spec ds
              Har Hop Hmatch Hds Hsliced s' Hrun) as (dim & Hdim & HG & Hrem & ->).
  set (channel := (scatter_channel ar (next_channel_id s)).1).
  exists (scatter_instruction ar ar_spec channel), dim.
  split; [apply find_instruction_fresh|].
  split.
  { simpl. rewrite find_rewritten, decide_False by (apply new_handles_stay; auto).
    rewrite find_add_replacement_scatter. simpl. f_equal.
    apply replace_operand_unused. done. }
  unfold scatter_instruction. rewrite Hdim. simpl.
  split_and!; try done.
  rewrite Z.mul_comm. symmetry.
  destruct (Z.rem_divide dim (group_size ar_spec) HG) as [Hdiv _].
  destruct (Hdiv Hrem) as [q ->]. by rewrite Z.quot_mul.
Qed.

(** C5. When the slice of an accepted match reads a reshape and not the
    all-reduce itself, the rewrite adds a reshape of the new reduce-scatter
    whose shape is the shape of the slice; otherwise it adds none. The result -
    that reshape, or else the reduce-scatter - takes the place of the slice in
    every instruction that used it and as the root, and the slice is gone. *)
Theorem result_replaces_slice :
  let result := match intervening_reshape h ds with Some _ => S ars | None => ars end in
  match intervening_reshape h ds with
  | Some _ =>
    find_instruction (computation s') (S ars)
    = Some (CreateReshape (shape ds) ars)
  | None => find_instruction (computation s') (S ars) = None
  end
  ∧ (∃ scatter, find_instruction (computation s') ars = Some scatter
                ∧ opcode scatter = kAllReduceScatter)
  ∧ find_instruction (computation s') (dynamic_slice ar_spec) = None
  ∧ (∀ x i, find_instruction (computation s) x = Some i →
            x ≠ h → x ≠ dynamic_slice ar_spec → intervening_reshape h ds ≠ Some x →
            find_instruction (computation s') x
            = Some (replace_operand (dynamic_slice ar_spec) result i))
  ∧ root_instruction (computation s')
    = (if decide (root_instruction (computation s) = dynamic_slice ar_spec)
       then result else root_instruction (computation s))
  ∧ (∀ x i, (x, i) ∈ instructions (computation s') →
            dynamic_slice ar_spec ∉ operands i).
Proof.
  destruct (RunOnInstruction_rewrites matcher cfg s h ar ar_spec ds
              Har Hop Hmatch Hds Hsliced s' Hrun) as (dim & Hdim & HG & Hrem & ->).
  set (channel := (scatter_channel ar (next_channel_id s)).1).
  assert (dynamic_slice ar_spec ∈ handles (computation s)) as Hdsh
    by (apply find_instruction_handles; eauto).
  pose proof (handles_not_new _ Hdsh) as [Hne1 Hne2].
  assert ((add_replacement (computation s) h ar ar_spec ds channel).1
          = match intervening_reshape h ds with Some _ => S ars | None => ars end)
    as Hresult.
  { rewrite add_replacement_result. by destruct (intervening_reshape h ds). }
  cbn [computation]. unfold ars in *. split_and!.
  - destruct (intervening_reshape h ds) as [r|] eqn:Hr.
    + rewrite find_rewritten, decide_False
        by (apply new_handles_stay; auto).
      rewrite (find_add_replacement_reshape _ _ _ _ _ _ r Hr). simpl. f_equal.
      apply replace_operand_unused. simpl. rewrite list_elem_of_singleton. done.
    + rewrite find_rewritten, decide_False
        by (apply new_handles_stay; auto).
      unfold add_replacement. rewrite Hr.
      rewrite find_instruction_AddInstruction, decide_False by lia.
      assert (find_instruction (computation s) (S (fresh_handle (computation s))) = None)
        as ->; [|done].
      apply find_instruction_in_None, max_list_not_elem_of_gt.
      unfold fresh_handle. fold (handles (computation s)). lia.
  - eexists. split.
    + rewrite find_rewritten, decide_False by (apply new_handles_stay; auto).
      by rewrite find_add_replacement_scatter.
    + done.
  - rewrite find_rewritten, decide_True; auto.
  - intros x i Hx Hxh Hxd Hxr.
    rewrite find_rewritten, decide_False by intuition.
    rewrite find_add_replacement_old, Hx, Hresult; [done|].
    apply find_instruction_handles; eauto.
  - by rewrite root_rewritten, Hresult.
  - intros x i' Hin. apply elem_of_rewritten in Hin as (_ & _ & _ & i & -> & _).
    rewrite operands_replace_operand, list_elem_of_fmap. intros (o & Ho & _).
    rewrite Hresult in Ho. case_decide; [|done].
    destruct (intervening_reshape h ds); congruence.
Qed.

(** C10. When the all-reduce of an accepted match carries no channel id, the
    new reduce-scatter carries none, the channel-id counter is left where it
    was, no channel id comes into use, and every channel id on an instruction
    that stays is still in use. *)
Theorem no_channel_id_consumed :
  channel_id ar = None →
  (∃ scatter, find_instruction (computation s') ars = Some scatter
              ∧ opcode scatter = kAllReduceScatter
              ∧ channel_id scatter = None)
  ∧ next_channel_id s' = next_channel_id s
  ∧ (∀ id, id ∈ channel_ids_of (computation s') →
           id ∈ channel_ids_of (computation s))
  ∧ (∀ x i id, (x, i) ∈ instructions (computation s) → channel_id i = Some id →
               x ≠ h → x ≠ dynamic_slice ar_spec →
               intervening_reshape h ds ≠ Some x →
               id ∈ channel_ids_of (computation s')).
Proof.
  intros Hnone.
  destruct (RunOnInstruction_rewrites matcher cfg s h ar ar_spec ds
              Har Hop Hmatch Hds Hsliced s' Hrun) as (dim & Hdim & HG & Hrem & ->).
  unfold scatter_channel. rewrite Hnone. simpl. split_and!.
  - eexists. split_and!.
    + rewrite find_rewritten, decide_False by (apply new_handles_stay; auto).
      by rewrite find_add_replacement_scatter.
    + done.
    + done.
  - done.
  - intros id Hid. apply elem_of_channel_ids_of in Hid as (x & i' & Hin & Hid).
    apply elem_of_rewritten in Hin as (_ & _ & _ & i & -> & Hin).
    rewrite channel_id_replace_operand in Hid.
    rewrite instructions_add_replacement in Hin.
    apply elem_of_app in Hin as [Hin|Hin].
    { apply elem_of_channel_ids_of. eauto. }
    apply elem_of_app in Hin as [Hin|Hin].
    { apply list_elem_of_singleton in Hin as [= -> ->]. done. }
    destruct (intervening_reshape h ds); [|by apply elem_of_nil in Hin].
    apply list_elem_of_singleton in Hin as [= -> ->]. done.
  - intros x i id Hin Hid Hxh Hxd Hxr.
    apply elem_of_channel_ids_of. exists x, (replace_operand (dynamic_slice ar_spec)
      (add_replacement (computation s) h ar ar_spec ds None).1 i).
    split; [|done]. apply elem_of_rewritten. split_and!; try done.
    exists i. split; [done|]. rewrite instructions_add_replacement.
    apply elem_of_app. by left.
Qed.
End AcceptedMatch.

(** ** Loops and their logs *)

Lemma for_each_log_app {A S : Type} (body : A → S → Status * S) l1 l2 s :
  for_each_log body (l1 ++ l2) s =
  for_each_log body l1 s
  ++ match for_each body l1 s with
     | (OK, s') => for_each_log body l2 s'
     | _ => []
     end.
Proof.
  revert s. induction l1 as [|a l1 IH]; intros s; simpl; [done|].
  f_equal. destruct (body a s) as [[] s']; simpl; auto.
Qed.

(** A loop fails exactly when a call of its log does, with that call's
    result. *)
Lemma for_each_failed {A S : Type} (body : A → S → Status * S) l s st s' :
  st ≠ OK →
  for_each body l s = (st, s') ↔
  ∃ a s0 log, for_each_log body l s = log ++ [(a, s0, (st, s'))].
Proof.
  intros Hst. revert s. induction l as [|a l IH]; intros s; simpl.
  - split; [by intros [= <-]|]. intros (a & s0 & log & H).
    by destruct log.
  - destruct (body a s) as [st1 s1] eqn:Hbody. destruct st1.
    + rewrite IH. split.
      * intros (a' & s0 & log & ->). exists a', s0, ((a, s, (OK, s1)) :: log). done.
      * intros (a' & s0 & log & H). destruct log as [|e log]; simplify_eq/=.
        eauto.
    + split.
      * intros [= <- <-]. exists a, s, []. done.
      * intros (a' & s0 & log & H). destruct log as [|e [|e' log]]; by simplify_eq/=.
    + split.
      * intros [= <- <-]. exists a, s, []. done.
      * intros (a' & s0 & log & H). destruct log as [|e [|e' log]]; by simplify_eq/=.
Qed.

(** An invariant of the states a loop passes through holds before every call
    of the log, and each call is made in a state that satisfies it. *)
Lemma for_each_log_invariant {A S : Type} (body : A → S → Status * S)
    (I : S → Prop) l s :
  (∀ a s s', I s → body a s = (OK, s') → I s') →
  I s →
  Forall (λ e, I e.1.2 ∧ body e.1.1 e.1.2 = e.2) (for_each_log body l s).
Proof.
  intros Hstep. revert s. induction l as [|a l IH]; intros s Hs; simpl.
  - constructor.
  - constructor; [done|].
    destruct (body a s) as [[] s'] eqn:Hbody; [|constructor..].
    apply IH. eauto.
Qed.

Lemma for_each_invariant {A S : Type} (body : A → S → Status * S)
    (I : S → Prop) l s s' :
  (∀ a s s', I s → body a s = (OK, s') → I s') →
  I s → for_each body l s = (OK, s') → I s'.
Proof.
  intros Hstep. revert s. induction l as [|a l IH]; intros s Hs; simpl.
  - by intros [= <-].
  - destruct (body a s) as [[] s1] eqn:Hbody; [|done..]. eauto.
Qed.

Section Matched.
Variable matcher :
  HloComputation → handle → Z → Z → bool → bool → option AllReduceScatterSpec.
Variables (cfg : HloModuleConfig) (s : LoopState) (h : handle)
          (ar : HloInstruction) (ar_spec : AllReduceScatterSpec).
Hypothesis Har : find_instruction (computation s) h = Some ar.
Hypothesis Hop : opcode ar = kAllReduce.
Hypothesis Hmatch :
  matcher (computation s) h (num_partitions cfg) (replica_count cfg) false true
  = Some ar_spec.

(** The body of the loop on a matched all-reduce, lines 50 to 94. *)
Lemma RunOnInstruction_matched :
  RunOnInstruction matcher cfg h s =
  match dimensions_at (shape ar) (split_dim ar_spec) with
  | None => (ABORTED, s)
  | Some dim =>
    if group_size ar_spec =? 0 then (ABORTED, s)
    else if negb (dim `rem` group_size ar_spec =? 0) then (INTERNAL, s)
    else
      let channel := (scatter_channel ar (next_channel_id s)).1 in
      let next := (scatter_channel ar (next_channel_id s)).2 in
      let c1 := (AddInstruction (scatter_instruction ar ar_spec channel)
                                (computation s)).2 in
      match find_instruction c1 (dynamic_slice ar_spec) with
      | None => (ABORTED, mkLoop c1 next (changed s))
      | Some ds =>
        match operand ds 0 with
        | None => (ABORTED, mkLoop c1 next (changed s))
        | Some _ =>
          let added := add_replacement (computation s) h ar ar_spec ds channel in
          match RemoveDeadInstructions (dynamic_slice ar_spec) added.1
                  (intervening_reshape h ds) h added.2 with
          | (OK, c') => (OK, mkLoop c' next true)
          | (failed, c') => (failed, mkLoop c' next (changed s))
          end
        end
      end
  end.
Proof.
  unfold RunOnInstruction. rewrite Har, Hop, bool_decide_eq_true_2 by done.
  simpl. rewrite Hmatch.
  destruct (dimensions_at (shape ar) (split_dim ar_spec)) as [dim|] eqn:Hdim; [|done].
  destruct (group_size ar_spec =? 0); [done|].
  destruct (negb (dim `rem` group_size ar_spec =? 0)); [done|].
  unfold scatter_channel, add_replacement, intervening_reshape, scatter_instruction.
  rewrite Hdim.
  destruct (channel_id ar); simpl;
    (destruct (find_instruction _ (dynamic_slice ar_spec)) as [ds|]; [|done]);
    (destruct (operand ds 0) as [o|]; [|done]);
    (destruct (decide (o ≠ h)); simpl;
     [ destruct (RemoveDeadInstructions _ _ _ _ _) as [[] ?]; done
     | destruct (RemoveDeadInstructions _ _ _ _ _) as [[] ?]; done ]).
Qed.
End Matched.

(** The body of the loop leaves the state alone unless it finds an all-reduce
    that the matcher accepts. *)
Lemma RunOnInstruction_unmatched matcher cfg h s :
  (∀ ar ar_spec,
     find_instruction (computation s) h = Some ar → opcode ar = kAllReduce →
     matcher (computation s) h (num_partitions cfg) (replica_count cfg) false true
     ≠ Some ar_spec) →
  RunOnInstruction matcher cfg h s = (OK, s).
Proof.
  intros H. destruct (find_instruction (computation s) h) as [ar|] eqn:Har.
  - destruct (decide (opcode ar = kAllReduce)) as [Hop|Hop].
    + apply RunOnInstruction_no_match.
      destruct (matcher _ _ _ _ _ _) as [ar_spec|] eqn:Hm; [|done].
      by destruct (H ar ar_spec).
    + by eapply RunOnInstruction_other_opcode.
  - by apply RunOnInstruction_removed.
Qed.

(** ** What the mutations do to channel ids *)

Lemma shrinks_refl c : shrinks c c.
Proof. split; [eauto|done]. Qed.

Lemma shrinks_trans c1 c2 c3 : shrinks c1 c2 → shrinks c2 c3 → shrinks c1 c3.
Proof.
  intros [H1 L1] [H2 L2]. split; [|lia].
  intros x i3 Hin. destruct (H2 x i3 Hin) as (i2 & Hin2 & ? & ?).
  destruct (H1 x i2 Hin2) as (i1 & Hin1 & ? & ?).
  exists i1. split_and!; [done|congruence..].
Qed.

Lemma length_filter_filter_le {A : Type} (P Q : A → Prop)
    `{∀ x, Decision (P x)} `{∀ x, Decision (Q x)} (l : list A) :
  (length (filter P (filter Q l)) ≤ length (filter P l))%nat.
Proof.
  induction l as [|a l IH]; [done|].
  rewrite !filter_cons. destruct (decide (Q a)), (decide (P a));
    rewrite ?filter_cons; try case_decide; simpl; try lia; tauto.
Qed.

Lemma length_filter_filter_lt {A : Type} (P Q : A → Prop)
    `{∀ x, Decision (P x)} `{∀ x, Decision (Q x)} (l : list A) a :
  a ∈ l → P a → ¬ Q a →
  (length (filter P (filter Q l)) < length (filter P l))%nat.
Proof.
  intros Hin HP HQ. induction l as [|b l IH]; [by apply elem_of_nil in Hin|].
  apply elem_of_cons in Hin as [<-|Hin].
  - rewrite (filter_cons Q), decide_False by done.
    rewrite (filter_cons P), decide_True by done. simpl.
    pose proof (length_filter_filter_le P Q l). lia.
  - specialize (IH Hin). rewrite !filter_cons.
    destruct (decide (Q b)), (decide (P b));
      rewrite ?filter_cons; try case_decide; simpl; try lia; tauto.
Qed.

Lemma shrinks_erase x c : shrinks c (erase x c).
Proof.
  split.
  - intros y i Hin. rewrite instructions_erase in Hin.
    apply list_elem_of_filter in Hin as [_ Hin]. eauto.
  - unfold channel_all_reduces. rewrite instructions_erase.
    apply length_filter_filter_le.
Qed.

Lemma shrinks_ReplaceAllUsesWith old new c :
  shrinks c (ReplaceAllUsesWith old new c).2.
Proof.
  split.
  - intros y i' Hin. rewrite instructions_ReplaceAllUsesWith in Hin.
    apply list_elem_of_fmap in Hin as ([y' i] & [= -> ->] & Hin). eauto.
  - unfold channel_all_reduces. rewrite instructions_ReplaceAllUsesWith.
    induction (instructions c) as [|[y i] l IH]; [done|].
    rewrite fmap_cons, !filter_cons. simpl.
    repeat case_decide; simpl; try lia; tauto.
Qed.

Lemma shrinks_prune rounds worklist c : shrinks c (prune rounds worklist c).
Proof.
  revert worklist c. induction rounds as [|n IH]; intros worklist c; simpl.
  - apply shrinks_refl.
  - destruct (next_removable c worklist) as [[item rest]|]; [|apply shrinks_refl].
    eapply shrinks_trans; [apply shrinks_erase|apply IH].
Qed.

Lemma shrinks_RemoveInstruction x c :
  shrinks c (RemoveInstruction x c).2.
Proof.
  unfold RemoveInstruction. destruct (removable c x); simpl.
  - apply shrinks_erase.
  - apply shrinks_refl.
Qed.

Lemma shrinks_RemoveInstructionAndUnusedOperands x c :
  shrinks c (RemoveInstructionAndUnusedOperands x c).2.
Proof.
  unfold RemoveInstructionAndUnusedOperands. destruct (removable c x); simpl.
  - eapply shrinks_trans; [apply shrinks_erase|apply shrinks_prune].
  - apply shrinks_refl.
Qed.

Lemma shrinks_TF_RETURN_IF_ERROR (f g : Mutation) c :
  (∀ c, shrinks c (f c).2) → (∀ c, shrinks c (g c).2) → shrinks c ((f >> g) c).2.
Proof.
  intros Hf Hg. unfold TF_RETURN_IF_ERROR.
  pose proof (Hf c) as H. destruct (f c) as [[] c1]; simpl in *; [|done..].
  eapply shrinks_trans; [done|apply Hg].
Qed.

Lemma shrinks_RemoveDeadInstructions ds result reshape h c :
  shrinks c (RemoveDeadInstructions ds result reshape h c).2.
Proof.
  unfold RemoveDeadInstructions.
  apply shrinks_TF_RETURN_IF_ERROR; [apply shrinks_ReplaceAllUsesWith|].
  intros c1. apply shrinks_TF_RETURN_IF_ERROR; [apply shrinks_RemoveInstruction|].
  intros c2. apply shrinks_TF_RETURN_IF_ERROR.
  - intros c3. destruct reshape; simpl;
      [apply shrinks_RemoveInstruction|apply shrinks_refl].
  - apply shrinks_RemoveInstructionAndUnusedOperands.
Qed.

Lemma RemoveDeadInstructions_status ds result reshape h c :
  (RemoveDeadInstructions ds result reshape h c).1 ≠ ABORTED.
Proof.
  unfold RemoveDeadInstructions, TF_RETURN_IF_ERROR, ReplaceAllUsesWith,
    RemoveInstruction, RemoveInstructionAndUnusedOperands, if_present.
  repeat (match goal with
          | |- context [removable ?c ?x] => destruct (removable c x)
          | |- context [match ?r with Some _ => _ | None => _ end] => destruct r
          end; simpl); done.
Qed.

Lemma int64_incr_in_range z : int64_min ≤ z < int64_max → int64_incr z = z + 1.
Proof.
  unfold int64_incr, int64_wrap, int64_min, int64_max. intros H.
  rewrite Z.mod_small; lia.
Qed.

Lemma channel_all_reduces_AddInstruction i c :
  opcode i ≠ kAllReduce →
  channel_all_reduces (AddInstruction i c).2 = channel_all_reduces c.
Proof.
  intros Hop. unfold channel_all_reduces, AddInstruction. simpl.
  rewrite list.filter_app, length_app, filter_cons, decide_False; [simpl; lia|].
  simpl. tauto.
Qed.

Lemma channel_all_reduces_add_replacement c h ar ar_spec ds channel :
  channel_all_reduces (add_replacement c h ar ar_spec ds channel).2
  = channel_all_reduces c.
Proof.
  unfold add_replacement. destruct (intervening_reshape h ds).
  - rewrite !channel_all_reduces_AddInstruction; done.
  - rewrite !channel_all_reduces_AddInstruction; done.
Qed.

Lemma find_instruction_erase_Some x c y i :
  find_instruction (erase x c) y = Some i → y ≠ x ∧ find_instruction c y = Some i.
Proof. rewrite find_instruction_erase. by case_decide. Qed.

(** A completed removal sequence takes the all-reduce with it. *)
Lemma RemoveDeadInstructions_removes ds result reshape h c c' i :
  RemoveDeadInstructions ds result reshape h c = (OK, c') →
  find_instruction c h = Some i → opcode i = kAllReduce → is_Some (channel_id i) →
  (channel_all_reduces c' < channel_all_reduces c)%nat.
Proof.
  unfold RemoveDeadInstructions. intros H Hfind Hop Hid.
  apply TF_RETURN_IF_ERROR_OK in H as (c3 & H3 & H).
  apply TF_RETURN_IF_ERROR_OK in H as (c4 & H4 & H).
  apply TF_RETURN_IF_ERROR_OK in H as (c5 & H5 & H).
  unfold RemoveInstructionAndUnusedOperands in H.
  destruct (removable c5 h) eqn:Hrem; [|done]. inversion H as [Hc']. clear H.
  assert (shrinks c c5) as [_ Hle].
  { eapply shrinks_trans; [|eapply shrinks_trans].
    - pose proof (shrinks_ReplaceAllUsesWith ds result c) as S3. by rewrite H3 in S3.
    - pose proof (shrinks_RemoveInstruction ds c3) as S4. by rewrite H4 in S4.
    - destruct reshape as [r|]; simpl in H5.
      + pose proof (shrinks_RemoveInstruction r c4) as S5. by rewrite H5 in S5.
      + inversion H5. apply shrinks_refl. }
  apply removable_handles, find_instruction_handles in Hrem as [i5 Hi5].
  assert (opcode i5 = kAllReduce ∧ is_Some (channel_id i5)) as [Hop5 Hid5].
  { assert (∃ i4, find_instruction c4 h = Some i4 ∧ i5 = i4) as (i4 & Hi4 & ->).
    { destruct reshape as [r|]; simpl in H5.
      - apply RemoveInstruction_OK in H5 as [_ ->].
        apply find_instruction_erase_Some in Hi5 as [_ ?]. eauto.
      - inversion H5; subst. eauto. }
    apply RemoveInstruction_OK in H4 as [_ ->].
    apply find_instruction_erase_Some in Hi4 as [_ Hi3].
    assert (c3 = (ReplaceAllUsesWith ds result c).2) as -> by by rewrite H3.
    rewrite find_instruction_ReplaceAllUsesWith, Hfind in Hi3.
    inversion Hi3. done. }
  pose proof (shrinks_prune (length (instructions c5))
                (default [] (operands <$> find_instruction c5 h)) (erase h c5))
    as [_ Hprune].
  assert (channel_all_reduces (erase h c5) < channel_all_reduces c5)%nat; [|lia].
  unfold channel_all_reduces. rewrite instructions_erase.
  eapply (length_filter_filter_lt _ _ _ (h, i5)).
  - by apply find_instruction_Some.
  - done.
  - simpl. auto.
Qed.

Lemma elem_of_channel_ids_of_AddInstruction i c id :
  id ∈ channel_ids_of (AddInstruction i c).2 ↔
  id ∈ channel_ids_of c ∨ channel_id i = Some id.
Proof.
  rewrite !elem_of_channel_ids_of. unfold AddInstruction. simpl. split.
  - intros (x & i' & Hin & Hid). apply elem_of_app in Hin as [Hin|Hin]; [eauto|].
    apply list_elem_of_singleton in Hin as [= -> ->]. auto.
  - intros [(x & i' & Hin & Hid)|Hid].
    + exists x, i'. split; [|done]. apply elem_of_app. auto.
    + eexists _, i. split; [|done]. apply elem_of_app. right. left.
Qed.

Lemma elem_of_channel_ids_of_add_replacement c h ar ar_spec ds channel id :
  id ∈ channel_ids_of (add_replacement c h ar ar_spec ds channel).2 ↔
  id ∈ channel_ids_of c ∨ channel = Some id.
Proof.
  unfold add_replacement. destruct (intervening_reshape h ds).
  - rewrite !elem_of_channel_ids_of_AddInstruction. simpl. intuition congruence.
  - rewrite !elem_of_channel_ids_of_AddInstruction. simpl. intuition congruence.
Qed.

Lemma shrinks_channel_ids c c' id :
  shrinks c c' → id ∈ channel_ids_of c' → id ∈ channel_ids_of c.
Proof.
  intros [H _]. rewrite !elem_of_channel_ids_of.
  intros (x & i' & Hin & Hid). destruct (H x i' Hin) as (i & Hin' & _ & Hc).
  exists x, i. split; [done|congruence].
Qed.

Section LoopInvariant.
Variable matcher :
  HloComputation → handle → Z → Z → bool → bool → option AllReduceScatterSpec.
Variables (cfg : HloModuleConfig) (first : Z) (other_ids : list Z)
          (other_all_reduces : nat).

Lemma RunOnInstruction_counter h s st s' :
  counter_ahead first other_ids other_all_reduces s →
  RunOnInstruction matcher cfg h s = (st, s') →
  (st = OK → counter_ahead first other_ids other_all_reduces s')
  ∧ (next_channel_id s' = next_channel_id s
     ∨ next_channel_id s' = next_channel_id s + 1
       ∧ ∃ ar old, find_instruction (computation s) h = Some ar
                   ∧ channel_id ar = Some old).
Proof.
  intros Hinv Hrun. pose proof Hinv as (Hids & Hfirst & Hroom).
  destruct (find_instruction (computation s) h) as [ar|] eqn:Har;
    [|rewrite RunOnInstruction_removed in Hrun by done;
      inversion Hrun; subst; by auto].
  destruct (decide (opcode ar = kAllReduce)) as [Hop|Hop];
    [|erewrite RunOnInstruction_other_opcode in Hrun by done;
      inversion Hrun; subst; by auto].
  destruct (matcher (computation s) h (num_partitions cfg) (replica_count cfg) false true)
    as [ar_spec|] eqn:Hm;
    [|rewrite RunOnInstruction_no_match in Hrun by done;
      inversion Hrun; subst; by auto].
  rewrite (RunOnInstruction_matched matcher cfg s h ar ar_spec Har Hop Hm) in Hrun.
  destruct (dimensions_at _ _) as [dim|]; [|inversion Hrun; subst; by auto].
  destruct (group_size ar_spec =? 0); [inversion Hrun; subst; by auto|].
  destruct (negb _); [inversion Hrun; subst; by auto|].
  cbv zeta in Hrun.
  assert (next_channel_id s' = (scatter_channel ar (next_channel_id s)).2) as Hnext.
  { destruct (find_instruction _ (dynamic_slice ar_spec)) as [ds|];
      [|by inversion Hrun].
    destruct (operand ds 0); [|by inversion Hrun].
    destruct (RemoveDeadInstructions _ _ _ _ _) as [[] ?]; by inversion Hrun. }
  assert (channel_id ar = None ∧ (scatter_channel ar (next_channel_id s)) = (None, next_channel_id s)
          ∨ ∃ old, channel_id ar = Some old
                   ∧ scatter_channel ar (next_channel_id s)
                     = (Some (next_channel_id s), next_channel_id s + 1)
                   ∧ next_channel_id s < int64_max) as Hchannel.
  { unfold scatter_channel. destruct (channel_id ar) as [old|] eqn:Hold; [right|by left].
    exists old. split; [done|].
    assert (0 < channel_all_reduces (computation s))%nat.
    { unfold channel_all_reduces.
      assert ((h, ar) ∈ filter (λ p : handle * HloInstruction,
                 opcode p.2 = kAllReduce ∧ is_Some (channel_id p.2))
                 (instructions (computation s))) as Hin.
      { apply list_elem_of_filter. split; [simpl; eauto|].
        by apply find_instruction_Some. }
      destruct (filter _ _); [by apply elem_of_nil in Hin|simpl; lia]. }
    rewrite int64_incr_in_range; [split; [done|lia]|].
    unfold int64_min. lia. }
  split.
  - intros ->.
    destruct (find_instruction _ (dynamic_slice ar_spec)) as [ds|]; [|done].
    destruct (operand ds 0); [|done].
    destruct (RemoveDeadInstructions _ _ _ _ _) as [st c'] eqn:Hdead.
    destruct st; [|done..]. inversion Hrun; subst s'. clear Hrun.
    pose proof (shrinks_RemoveDeadInstructions (dynamic_slice ar_spec)
      (add_replacement (computation s) h ar ar_spec ds
         (scatter_channel ar (next_channel_id s)).1).1
      (intervening_reshape h ds) h
      (add_replacement (computation s) h ar ar_spec ds
         (scatter_channel ar (next_channel_id s)).1).2) as Hshrink.
    rewrite Hdead in Hshrink. simpl in Hshrink.
    pose proof Hshrink as [_ Hle].
    rewrite channel_all_reduces_add_replacement in Hle.
    unfold counter_ahead. simpl.
    destruct Hchannel as [[Hnone Hsc]|(old & Hold & Hsc & Hlt)]; rewrite Hsc in *; simpl in *.
    + split_and!; [|lia..].
      intros id [Hid|Hid]; [|by auto].
      eapply shrinks_channel_ids in Hid; [|done].
      apply elem_of_channel_ids_of_add_replacement in Hid as [Hid|Hid]; [auto|done].
    + split_and!; [|lia|lia|].
      * intros id [Hid|Hid]; [|specialize (Hids id (or_intror Hid)); lia].
        eapply shrinks_channel_ids in Hid; [|done].
        apply elem_of_channel_ids_of_add_replacement in Hid as [Hid|Hid].
        -- specialize (Hids id (or_introl Hid)). lia.
        -- inversion Hid. lia.
      * assert (channel_all_reduces c' < channel_all_reduces (computation s))%nat; [|lia].
        erewrite <- (channel_all_reduces_add_replacement (computation s)).
        eapply RemoveDeadInstructions_removes; [done| |done|by rewrite Hold].
        rewrite find_add_replacement_old; [done|].
        apply find_instruction_handles; eauto.
  - rewrite Hnext.
    destruct Hchannel as [[Hnone Hsc]|(old & Hold & Hsc & Hlt)]; rewrite Hsc; simpl.
    + by left.
    + right. eauto.
Qed.
End LoopInvariant.

Lemma NextChannelId_above ids :
  (∀ id, id ∈ ids → int64_min ≤ id < int64_max) →
  let next := foldr (λ id next, Z.max next (int64_incr id)) 1 ids in
  1 ≤ next ∧ ∀ id, id ∈ ids → id < next.
Proof.
  induction ids as [|id ids IH]; intros Hrange; simpl.
  - split; [lia|]. intros id Hin. by apply elem_of_nil in Hin.
  - destruct IH as [IH1 IH2]; [intros; apply Hrange; by right|].
    rewrite int64_incr_in_range by (apply Hrange; left).
    split; [lia|]. intros id' Hin. apply elem_of_cons in Hin as [->|Hin]; [lia|].
    specialize (IH2 id' Hin). lia.
Qed.

Lemma StronglySorted_app_lt (l1 l2 : list Z) (bound : Z) :
  StronglySorted Z.lt l1 → StronglySorted Z.lt l2 →
  Forall (λ x, x < bound) l1 → Forall (λ x, bound ≤ x) l2 →
  StronglySorted Z.lt (l1 ++ l2).
Proof.
  intros H1 H2 B1 B2. induction H1 as [|x l1 Hs IH Hx]; simpl; [done|].
  inversion B1 as [|? ? Bx B1']; subst. constructor; [auto|].
  apply Forall_app. split; [done|].
  eapply Forall_impl; [|exact B2]. simpl. intros. lia.
Qed.

Section Counter.
Variable matcher :
  HloComputation → handle → Z → Z → bool → bool → option AllReduceScatterSpec.
Variables (first : Z).

Lemma drawn_step cfg other_ids other_all_reduces h s st s' :
  counter_ahead first other_ids other_all_reduces s →
  RunOnInstruction matcher cfg h s = (st, s') →
  drawn s s' = None ∧ next_channel_id s' = next_channel_id s
  ∨ drawn s s' = Some (next_channel_id s)
    ∧ next_channel_id s' = next_channel_id s + 1.
Proof.
  intros Hinv Hrun.
  destruct (RunOnInstruction_counter matcher cfg first other_ids other_all_reduces
              h s st s' Hinv Hrun) as [_ [Hn|[Hn _]]]; unfold drawn.
  - left. by rewrite decide_True.
  - right. by rewrite decide_False by lia.
Qed.

(** The ids drawn during a sweep go up, between the counter at its start and
    the counter at its end. *)
Lemma sweep_draws_increasing cfg other_ids other_all_reduces l s :
  counter_ahead first other_ids other_all_reduces s →
  let log := for_each_log (RunOnInstruction matcher cfg) l s in
  let ids := omap (λ e : handle * LoopState * (Status * LoopState),
                     drawn e.1.2 e.2.2) log in
  let final := (for_each (RunOnInstruction matcher cfg) l s).2 in
  StronglySorted Z.lt ids
  ∧ Forall (λ id, next_channel_id s ≤ id < next_channel_id final) ids
  ∧ next_channel_id s ≤ next_channel_id final.
Proof.
  revert s. induction l as [|h l IH]; intros s Hinv; simpl.
  - split_and!; [constructor|constructor|lia].
  - destruct (RunOnInstruction matcher cfg h s) as [st s1] eqn:Hrun.
    pose proof (drawn_step _ _ _ _ _ _ _ Hinv Hrun) as Hdrawn.
    pose proof (RunOnInstruction_counter matcher cfg first other_ids
                  other_all_reduces h s st s1 Hinv Hrun) as [Hinv1 _].
    simpl. destruct st.
    + specialize (IH s1 (Hinv1 eq_refl)). simpl in IH.
      destruct IH as (IHs & IHb & IHn).
      destruct Hdrawn as [[-> Hn]|[-> Hn]]; simpl.
      * rewrite Hn in *. done.
      * split_and!; [|constructor; [lia|]|lia].
        -- constructor; [done|]. eapply Forall_impl; [|exact IHb]. simpl. lia.
        -- eapply Forall_impl; [|exact IHb]. simpl. lia.
    + destruct Hdrawn as [[-> Hn]|[-> Hn]]; simpl.
      * split_and!; [constructor|constructor|lia].
      * split_and!; [repeat constructor|repeat constructor; lia|lia].
    + destruct Hdrawn as [[-> Hn]|[-> Hn]]; simpl.
      * split_and!; [constructor|constructor|lia].
      * split_and!; [repeat constructor|repeat constructor; lia|lia].
Qed.
End Counter.

(** ** The module around the computation being swept *)

Lemma elem_of_channel_ids_insert cs index c c' id :
  cs !! index = Some c →
  id ∈ (<[index := c']> cs ≫= channel_ids_of) ↔
  id ∈ channel_ids_of c' ∨ id ∈ (others index cs ≫= channel_ids_of).
Proof.
  intros Hc. rewrite insert_take_drop by (by eapply lookup_lt_Some).
  unfold others. rewrite !bind_app, bind_cons, !elem_of_app. tauto.
Qed.

Lemma elem_of_channel_ids_lookup cs index c id :
  cs !! index = Some c →
  id ∈ (cs ≫= channel_ids_of) ↔
  id ∈ channel_ids_of c ∨ id ∈ (others index cs ≫= channel_ids_of).
Proof.
  intros Hc. rewrite <- (elem_of_channel_ids_insert cs index c c id Hc).
  by rewrite list_insert_id.
Qed.

Lemma sum_all_reduces_insert cs index c c' :
  cs !! index = Some c →
  sum_list_with channel_all_reduces (<[index := c']> cs)
  = (channel_all_reduces c'
     + sum_list_with channel_all_reduces (others index cs))%nat.
Proof.
  intros Hc. rewrite insert_take_drop by (by eapply lookup_lt_Some).
  unfold others. rewrite !sum_list_with_app. simpl. lia.
Qed.

Lemma sum_all_reduces_lookup cs index c :
  cs !! index = Some c →
  sum_list_with channel_all_reduces cs
  = (channel_all_reduces c
     + sum_list_with channel_all_reduces (others index cs))%nat.
Proof.
  intros Hc. rewrite <- (sum_all_reduces_insert cs index c c Hc).
  by rewrite list_insert_id.
Qed.

Section RunInvariant.
Variable matcher :
  HloComputation → handle → Z → Z → bool → bool → option AllReduceScatterSpec.
Variable first : Z.

Lemma run_ahead_sweep s index c :
  run_ahead first s → computations (module s) !! index = Some c →
  counter_ahead first (others index (computations (module s)) ≫= channel_ids_of)
    (sum_list_with channel_all_reduces (others index (computations (module s))))
    (mkLoop c (run_next_channel_id s) (run_changed s)).
Proof.
  intros (Hids & Hfirst & Hroom) Hc. unfold counter_ahead. simpl. split_and!.
  - intros id Hid. apply Hids. unfold channel_ids.
    by apply (elem_of_channel_ids_lookup _ index c).
  - lia.
  - lia.
  - unfold module_channel_all_reduces in Hroom.
    by rewrite (sum_all_reduces_lookup _ index c) in Hroom.
Qed.

Lemma sweep_run_ahead s index c l :
  computations (module s) !! index = Some c →
  counter_ahead first (others index (computations (module s)) ≫= channel_ids_of)
    (sum_list_with channel_all_reduces (others index (computations (module s)))) l →
  run_ahead first (mkRun (module_during s index l) (next_channel_id l) (changed l)).
Proof.
  intros Hc (Hids & Hfirst & Hroom). unfold run_ahead. simpl. split_and!.
  - intros id Hid. apply Hids. unfold channel_ids, module_during in Hid. simpl in Hid.
    by apply (elem_of_channel_ids_insert _ index c) in Hid.
  - lia.
  - lia.
  - unfold module_channel_all_reduces, module_during. simpl.
    by rewrite (sum_all_reduces_insert _ index c).
Qed.

Lemma RunOnComputation_result index s c :
  computations (module s) !! index = Some c →
  RunOnComputation matcher index s =
  let r := for_each (RunOnInstruction matcher (config (module s)))
                    (MakeInstructionPostOrder c)
                    (mkLoop c (run_next_channel_id s) (run_changed s)) in
  (r.1, mkRun (module_during s index r.2) (next_channel_id r.2) (changed r.2)).
Proof.
  intros Hc. unfold RunOnComputation. rewrite Hc.
  by destruct (for_each _ _ _).
Qed.

Lemma RunOnComputation_ahead index s s' :
  run_ahead first s → RunOnComputation matcher index s = (OK, s') → run_ahead first s'.
Proof.
  intros Hinv. destruct (computations (module s) !! index) as [c|] eqn:Hc.
  - rewrite (RunOnComputation_result index s c Hc).
    destruct (for_each _ _ _) as [st l] eqn:Hloop. simpl. intros [= -> <-].
    apply (sweep_run_ahead s index c l Hc).
    eapply for_each_invariant; [|by apply run_ahead_sweep|exact Hloop].
    intros h s1 s2 H1 H2.
    by destruct (RunOnInstruction_counter matcher _ _ _ _ h s1 OK s2 H1 H2) as [H _]; auto.
  - unfold RunOnComputation. rewrite Hc. by intros [= <-].
Qed.

Lemma config_module_during s index l :
  config (module_during s index l) = config (module s).
Proof. done. Qed.

Lemma visits_of_ahead m index s :
  config (module s) = config m → run_ahead first s →
  let vs := visits_of matcher index s in
  let final := (RunOnComputation matcher index s).2 in
  Forall (visit_ahead matcher first m) vs
  ∧ StronglySorted Z.lt (omap minted vs)
  ∧ Forall (λ id, run_next_channel_id s ≤ id < run_next_channel_id final)
           (omap minted vs)
  ∧ run_next_channel_id s ≤ run_next_channel_id final.
Proof.
  intros Hcfg Hinv. unfold visits_of.
  destruct (computations (module s) !! index) as [c|] eqn:Hc; simpl.
  2:{ unfold RunOnComputation. rewrite Hc. simpl.
      split_and!; [constructor|constructor|constructor|lia]. }
  rewrite (RunOnComputation_result index s c Hc). simpl.
  pose proof (run_ahead_sweep s index c Hinv Hc) as Hloop.
  pose proof (sweep_draws_increasing matcher first (config (module s)) _ _
                (MakeInstructionPostOrder c) _ Hloop) as (Hsorted & Hbound & Hle).
  simpl in Hsorted, Hbound, Hle.
  assert (∀ log : list (handle * LoopState * (Status * LoopState)),
            omap minted (map (λ e, mkVisit (module_during s index e.1.2) index
                                     e.1.1 e.1.2 e.2.1 e.2.2) log)
            = omap (λ e, drawn e.1.2 e.2.2) log) as Homap.
  { intros log. induction log as [|e log IH]; [done|].
    cbn [map omap list_omap]. rewrite IH. done. }
  rewrite Homap. split_and!; [|done|done|done].
  apply Forall_map.
  eapply Forall_impl;
    [|apply (for_each_log_invariant _
               (counter_ahead first
                  (others index (computations (module s)) ≫= channel_ids_of)
                  (sum_list_with channel_all_reduces
                     (others index (computations (module s)))))); [|done]].
  - intros [[h l] [st l']] [Hl Hbody]. simpl in *.
    unfold visit_ahead. simpl. rewrite <- Hcfg. split_and!.
    + done.
    + destruct Hl as (_ & ? & _). lia.
    + intros id Hid. destruct Hl as (Hids & _). apply Hids.
      unfold channel_ids, module_during in Hid. simpl in Hid.
      by apply (elem_of_channel_ids_insert _ index c) in Hid.
    + apply list_lookup_insert_eq. by eapply lookup_lt_Some.
    + done.
    + unfold minted. simpl.
      destruct (RunOnInstruction_counter matcher _ _ _ _ h l st l' Hl Hbody)
        as [_ [Hn|[Hn Har]]]; unfold drawn.
      * left. by rewrite decide_True.
      * right. by rewrite decide_False by lia.
  - intros h s1 s2 H1 H2.
    by destruct (RunOnInstruction_counter matcher _ _ _ _ h s1 OK s2 H1 H2) as [H _]; auto.
Qed.

Lemma RunOnComputation_config index s st s' :
  RunOnComputation matcher index s = (st, s') →
  config (module s') = config (module s).
Proof.
  unfold RunOnComputation. destruct (computations (module s) !! index).
  - destruct (for_each _ _ _). by intros [= _ <-].
  - by intros [= _ <-].
Qed.

Lemma visits_ahead m l s :
  config (module s) = config m → run_ahead first s →
  let vs := flat_map (λ e : nat * RunState * (Status * RunState),
                        visits_of matcher e.1.1 e.1.2)
                     (for_each_log (RunOnComputation matcher) l s) in
  Forall (visit_ahead matcher first m) vs
  ∧ StronglySorted Z.lt (omap minted vs)
  ∧ Forall (λ id, run_next_channel_id s ≤ id) (omap minted vs).
Proof.
  revert s. induction l as [|index l IH]; intros s Hcfg Hinv; simpl.
  - split_and!; constructor.
  - pose proof (visits_of_ahead m index s Hcfg Hinv) as (Hv & Hs & Hb & Hle).
    simpl in Hv, Hs, Hb, Hle.
    destruct (RunOnComputation matcher index s) as [st s1] eqn:Hrun. simpl in *.
    assert (Forall (λ id, run_next_channel_id s ≤ id)
                   (omap minted (visits_of matcher index s))) as Hb'.
    { eapply Forall_impl; [|exact Hb]. simpl. lia. }
    destruct st.
    + destruct (IH s1) as (IHv & IHs & IHb).
      { by rewrite (RunOnComputation_config _ _ _ _ Hrun). }
      { by eapply RunOnComputation_ahead. }
      rewrite omap_app. split_and!.
      * by apply Forall_app.
      * eapply (StronglySorted_app_lt _ _ (run_next_channel_id s1)); [done|done| |done].
        eapply Forall_impl; [|exact Hb]. simpl. lia.
      * apply Forall_app. split; [done|].
        eapply Forall_impl; [|exact IHb]. simpl. lia.
    + rewrite app_nil_r. done.
    + rewrite app_nil_r. done.
Qed.
End RunInvariant.

Lemma int64_incr_neq z : int64_incr z ≠ z.
Proof.
  unfold int64_incr, int64_wrap. intros H.
  pose proof (Z.div_mod (z + 1 + 2 ^ 63) (2 ^ 64) ltac:(lia)) as Hdm.
  lia.
Qed.

Lemma elem_of_channel_ids m index c id :
  computations m !! index = Some c → id ∈ channel_ids_of c → id ∈ channel_ids m.
Proof.
  intros Hc Hid. unfold channel_ids. apply list_elem_of_bind.
  exists c. split; [done|]. by eapply list_elem_of_lookup_2.
Qed.

Section Freshness.
Variable matcher :
  HloComputation → handle → Z → Z → bool → bool → option AllReduceScatterSpec.
Variable m : HloModule.
Hypothesis Hrange : ∀ id, id ∈ channel_ids m → int64_min ≤ id < int64_max.
Hypothesis Hroom :
  NextChannelId m + Z.of_nat (module_channel_all_reduces m) ≤ int64_max.

Lemma run_ahead_initially :
  run_ahead (NextChannelId m) (mkRun m (NextChannelId m) false).
Proof.
  destruct (NextChannelId_above (channel_ids m) Hrange) as [H1 Hids].
  unfold run_ahead. simpl. split_and!; [done|done|lia|done].
Qed.

(** C3. In a run, every rewrite of an all-reduce that carried a channel id
    gives the new reduce-scatter a channel id drawn from the counter: it
    differs from the all-reduce's id, it is above every channel id in use
    anywhere in the module at that point, and above every id in use before the
    run; and the ids drawn in one run go strictly up, so that no two rewrites
    receive the same id. The ids are int64 values: the module's ids are below
    [int64_max], with room for one new id per all-reduce that carries one. *)
Theorem new_channel_ids_are_fresh :
  Forall (λ v,
            ∀ ar ar_spec ds old,
              find_instruction (computation (visit_before v)) (visit_handle v)
              = Some ar →
              opcode ar = kAllReduce →
              channel_id ar = Some old →
              matcher (computation (visit_before v)) (visit_handle v)
                      (num_partitions (config m)) (replica_count (config m))
                      false true = Some ar_spec →
              find_instruction (computation (visit_before v))
                               (dynamic_slice ar_spec) = Some ds →
              (∀ o, operand ds 0 = Some o →
                    o ∈ handles (computation (visit_before v))) →
              visit_status v = OK →
              ∃ scatter new,
                find_instruction (computation (visit_after v))
                                 (fresh_handle (computation (visit_before v)))
                = Some scatter
                ∧ opcode scatter = kAllReduceScatter
                ∧ channel_id scatter = Some new
                ∧ minted v = Some new
                ∧ old < new
                ∧ (∀ id, id ∈ channel_ids (visit_module v) → id < new)
                ∧ (∀ id, id ∈ channel_ids m → id < new))
         (visits matcher m)
  ∧ StronglySorted Z.lt (omap minted (visits matcher m)).
Proof.
  destruct (visits_ahead matcher (NextChannelId m) m (MakeNonfusionComputations m)
              (mkRun m (NextChannelId m) false) eq_refl run_ahead_initially)
    as (Hv & Hs & _).
  split; [|exact Hs].
  eapply Forall_impl; [|exact Hv]. clear Hv Hs.
  intros v (Hcfg & Hfirst & Hids & Hcomp & Hrun & Hminted)
         ar ar_spec ds old Har Hop Hold Hmatch Hds Hsliced Hst.
  rewrite Hst in Hrun.
  destruct (RunOnInstruction_rewrites matcher (config m) (visit_before v)
              (visit_handle v) ar ar_spec ds Har Hop Hmatch Hds Hsliced
              (visit_after v) Hrun) as (dim & Hdim & HG & Hrem & Hafter).
  assert (scatter_channel ar (next_channel_id (visit_before v))
          = (Some (next_channel_id (visit_before v)),
             int64_incr (next_channel_id (visit_before v)))) as Hsc.
  { unfold scatter_channel. by rewrite Hold. }
  rewrite Hsc in Hafter. simpl in Hafter.
  eexists _, (next_channel_id (visit_before v)).
  split_and!.
  - rewrite Hafter. cbn [computation].
    rewrite find_rewritten, decide_False.
    + rewrite find_add_replacement_scatter. done.
    + by apply (new_handles_stay (visit_before v) (visit_handle v) ar ar_spec ds);
        auto.
  - done.
  - done.
  - destruct Hminted as [[_ Hn]|[Hn _]]; [|done].
    rewrite Hafter in Hn. simpl in Hn. by apply int64_incr_neq in Hn.
  - apply Hids. eapply elem_of_channel_ids; [exact Hcomp|].
    apply elem_of_channel_ids_of. exists (visit_handle v), ar.
    split; [by apply find_instruction_Some|done].
  - done.
  - destruct (NextChannelId_above (channel_ids m) Hrange) as [_ Hids0].
    intros id Hid. specialize (Hids0 id Hid). unfold NextChannelId in Hfirst. lia.
Qed.
End Freshness.

Lemma for_each_log_body {A S : Type} (body : A → S → Status * S) l s a s0 r :
  (a, s0, r) ∈ for_each_log body l s → body a s0 = r.
Proof.
  intros Hin.
  pose proof (for_each_log_invariant body (λ _, True) l s (λ _ _ _ _ _, I) I) as H.
  rewrite list.Forall_forall in H. by destruct (H _ Hin) as [_ ?].
Qed.

(** A call of the log that does not return [OK] is what the loop returns. *)
Lemma for_each_log_failed {A S : Type} (body : A → S → Status * S) l s a s0 st s' :
  (a, s0, (st, s')) ∈ for_each_log body l s → st ≠ OK →
  for_each body l s = (st, s').
Proof.
  intros Hin Hst. revert s Hin. induction l as [|b l IH]; intros s Hin; simpl in *.
  - by apply elem_of_nil in Hin.
  - apply elem_of_cons in Hin as [Heq|Hin].
    + injection Heq as -> -> Hb. rewrite <- Hb. by destruct st.
    + destruct (body b s) as [[] s1]; [auto|by apply elem_of_nil in Hin..].
Qed.

Lemma for_each_OK_status {A S : Type} (body : A → S → Status * S) l s :
  (for_each body l s).1 = OK ∨
  ∃ a s0 log, for_each_log body l s = log ++ [(a, s0, for_each body l s)].
Proof.
  destruct (for_each body l s) as [st s'] eqn:H. destruct st; [by left|right..].
  - by apply for_each_failed in H.
  - by apply for_each_failed in H.
Qed.

Lemma elem_of_flat_map {A B : Type} (f : A → list B) (l : list A) (b : B) :
  b ∈ flat_map f l ↔ ∃ a, a ∈ l ∧ b ∈ f a.
Proof.
  rewrite list_elem_of_In, in_flat_map. split.
  - intros (a & Ha & Hb). exists a. by rewrite !list_elem_of_In.
  - intros (a & Ha & Hb). exists a. by rewrite <- !list_elem_of_In.
Qed.

Lemma elem_of_map {A B : Type} (f : A → B) (l : list A) (b : B) :
  b ∈ map f l ↔ ∃ a, b = f a ∧ a ∈ l.
Proof. apply list_elem_of_fmap. Qed.

Section Failure.
Variable matcher :
  HloComputation → handle → Z → Z → bool → bool → option AllReduceScatterSpec.
Variable m : HloModule.

Lemma outer_log_config e :
  e ∈ for_each_log (RunOnComputation matcher) (MakeNonfusionComputations m)
        (mkRun m (NextChannelId m) false) →
  config (module e.1.2) = config m.
Proof.
  intros Hin.
  pose proof (for_each_log_invariant (RunOnComputation matcher)
                (λ s', config (module s') = config m)
                (MakeNonfusionComputations m) (mkRun m (NextChannelId m) false)) as H.
  rewrite list.Forall_forall in H. apply H; [|done|done].
  intros index s1 s2 H1 H2. by rewrite (RunOnComputation_config _ _ _ _ _ H2).
Qed.

(** The visits of a run: a call of the inner loop's body during a call of the
    outer loop's body. *)
Lemma elem_of_visits v :
  v ∈ visits matcher m ↔
  ∃ index s r c h l st l',
    (index, s, r) ∈ for_each_log (RunOnComputation matcher)
                      (MakeNonfusionComputations m) (mkRun m (NextChannelId m) false)
    ∧ computations (module s) !! index = Some c
    ∧ (h, l, (st, l')) ∈ for_each_log (RunOnInstruction matcher (config m))
                           (MakeInstructionPostOrder c)
                           (mkLoop c (run_next_channel_id s) (run_changed s))
    ∧ v = mkVisit (module_during s index l) index h l st l'.
Proof.
  unfold visits. rewrite elem_of_flat_map. split.
  - intros ([[index s] r] & Hin & Hv). simpl in Hv. unfold visits_of in Hv.
    destruct (computations (module s) !! index) as [c|] eqn:Hc;
      [|by apply elem_of_nil in Hv].
    apply elem_of_map in Hv as ([[h l] [st l']] & -> & Hv). simpl.
    pose proof (outer_log_config _ Hin) as Hcfg. simpl in Hcfg. rewrite Hcfg in Hv.
    exists index, s, r, c, h, l, st, l'. done.
  - intros (index & s & r & c & h & l & st & l' & Hin & Hc & Hv & ->).
    exists (index, s, r). split; [done|]. simpl. unfold visits_of. rewrite Hc.
    apply elem_of_map. exists (h, l, (st, l')). split; [done|].
    pose proof (outer_log_config _ Hin) as Hcfg. simpl in Hcfg. by rewrite Hcfg.
Qed.

(** Each visit of the log is a call of the loop's body. *)
Lemma visits_body v :
  v ∈ visits matcher m →
  RunOnInstruction matcher (config m) (visit_handle v) (visit_before v)
  = (visit_status v, visit_after v).
Proof.
  intros (index & s & r & c & h & l & st & l' & Hin & Hc & Hv & ->)%elem_of_visits.
  simpl. by apply for_each_log_body in Hv.
Qed.

(** [Run] fails exactly when a visit does, and that visit is the last. *)
Lemma Run_fails st :
  st ≠ OK →
  (Run matcher m).1 = Error st ↔
  ∃ before v, visits matcher m = before ++ [v] ∧ visit_status v = st.
Proof.
  intros Hst. unfold Run, RunLoops. split.
  - destruct (for_each _ _ _) as [st' s'] eqn:Hrun.
    intros Hfail. assert (st' = st) as -> by (destruct st'; by inversion Hfail).
    clear Hfail. apply for_each_failed in Hrun as (index & s & log & Hlog); [|done].
    assert ((index, s, (st, s')) ∈ for_each_log (RunOnComputation matcher)
              (MakeNonfusionComputations m) (mkRun m (NextChannelId m) false)) as Hin.
    { rewrite Hlog. apply elem_of_app. right. left. }
    pose proof (for_each_log_body _ _ _ _ _ _ Hin) as Hbody.
    pose proof (outer_log_config _ Hin) as Hcfg. simpl in Hcfg.
    unfold visits. rewrite Hlog, flat_map_app. simpl. rewrite app_nil_r.
    unfold visits_of at 2.
    destruct (computations (module s) !! index) as [c|] eqn:Hc.
    2:{ unfold RunOnComputation in Hbody. rewrite Hc in Hbody. by inversion Hbody. }
    rewrite (RunOnComputation_result matcher index s c Hc) in Hbody.
    destruct (for_each (RunOnInstruction matcher (config (module s))) _ _)
      as [st1 l1] eqn:Hloop.
    simpl in Hbody. inversion Hbody; subst st1. clear Hbody.
    apply for_each_failed in Hloop as (h & l & ilog & Hilog); [|done].
    rewrite Hilog, map_app. simpl. rewrite app_assoc. eauto.
  - intros (before & v & Hvisits & Hv).
    assert (v ∈ visits matcher m) as Hin.
    { rewrite Hvisits. apply elem_of_app. right. left. }
    apply elem_of_visits in Hin
      as (index & s & r & c & h & l & st' & l' & Hin & Hc & Hlog & ->).
    simpl in Hv. subst st'.
    pose proof (for_each_log_failed _ _ _ _ _ _ _ Hlog Hst) as Hloop.
    pose proof (for_each_log_body _ _ _ _ _ _ Hin) as Hbody.
    rewrite (RunOnComputation_result matcher index s c Hc) in Hbody.
    pose proof (outer_log_config _ Hin) as Hcfg. simpl in Hcfg.
    rewrite Hcfg in Hbody. simpl in Hbody.
    rewrite Hloop in Hbody. simpl in Hbody. subst r.
    rewrite (for_each_log_failed _ _ _ _ _ _ _ Hin Hst). by destruct st.
Qed.
End Failure.

Section Internal.
Variable matcher :
  HloComputation → handle → Z → Z → bool → bool → option AllReduceScatterSpec.

(** The body of the loop returns an internal error on an accepted match only:
    when the size does not divide, or when the rewrite is refused. *)
Lemma RunOnInstruction_INTERNAL cfg h s s' :
  RunOnInstruction matcher cfg h s = (INTERNAL, s') ↔
  ∃ ar ar_spec dim,
    find_instruction (computation s) h = Some ar
    ∧ opcode ar = kAllReduce
    ∧ matcher (computation s) h (num_partitions cfg) (replica_count cfg) false true
      = Some ar_spec
    ∧ dimensions_at (shape ar) (split_dim ar_spec) = Some dim
    ∧ group_size ar_spec ≠ 0
    ∧ (dim `rem` group_size ar_spec ≠ 0 ∧ s' = s
       ∨ dim `rem` group_size ar_spec = 0
         ∧ refused (computation s) h ar ar_spec
                   (scatter_channel ar (next_channel_id s)).1 (computation s')
         ∧ next_channel_id s' = (scatter_channel ar (next_channel_id s)).2
         ∧ changed s' = changed s).
Proof.
  split.
  - intros Hrun.
    destruct (find_instruction (computation s) h) as [ar|] eqn:Har;
      [|by rewrite RunOnInstruction_removed in Hrun].
    destruct (decide (opcode ar = kAllReduce)) as [Hop|Hop];
      [|by erewrite RunOnInstruction_other_opcode in Hrun].
    destruct (matcher (computation s) h (num_partitions cfg) (replica_count cfg)
                false true) as [ar_spec|] eqn:Hm;
      [|by rewrite RunOnInstruction_no_match in Hrun].
    rewrite (RunOnInstruction_matched matcher cfg s h ar ar_spec Har Hop Hm) in Hrun.
    destruct (dimensions_at _ _) as [dim|] eqn:Hdim; [|done].
    destruct (group_size ar_spec =? 0) eqn:HG; [done|].
    exists ar, ar_spec, dim. split_and!; [done|done|done|done|lia|].
    destruct (dim `rem` group_size ar_spec =? 0) eqn:Hrem; simpl in Hrun.
    + right. split; [lia|].
      destruct (find_instruction _ (dynamic_slice ar_spec)) as [ds|] eqn:Hds; [|done].
      destruct (operand ds 0) as [o|] eqn:Ho; [|done].
      destruct (RemoveDeadInstructions _ _ _ _ _) as [st c'] eqn:Hdead.
      destruct st; [done| |done]. inversion Hrun; subst s'. simpl.
      split_and!; [|done|done]. exists ds. rewrite Ho. eauto.
    + left. split; [lia|]. by inversion Hrun.
  - intros (ar & ar_spec & dim & Har & Hop & Hm & Hdim & HG & Hcases).
    rewrite (RunOnInstruction_matched matcher cfg s h ar ar_spec Har Hop Hm), Hdim.
    destruct (group_size ar_spec =? 0) eqn:HG'; [lia|].
    destruct Hcases as [[Hrem ->]|(Hrem & (ds & Hds & [o Ho] & Hdead) & Hnext & Hch)].
    + destruct (dim `rem` group_size ar_spec =? 0) eqn:Hrem'; [lia|done].
    + destruct (dim `rem` group_size ar_spec =? 0) eqn:Hrem'; [|lia].
      cbn [negb]. cbv zeta.
      rewrite Hds, Ho, Hdead. destruct s'. simpl in *. by subst.
Qed.

(** C4, as the code has it. [Run] fails with an internal error exactly when, at
    an accepted match, either the all-reduce's size along the split dimension
    is not a multiple of the group size - the module is then as the visit
    found it - or one of the mutations of the rewrite returns an error. That
    visit is the last of the run. *)
Theorem Run_internal_error m :
  (Run matcher m).1 = Error INTERNAL ↔
  ∃ before v ar ar_spec dim,
    visits matcher m = before ++ [v]
    ∧ find_instruction (computation (visit_before v)) (visit_handle v) = Some ar
    ∧ opcode ar = kAllReduce
    ∧ matcher (computation (visit_before v)) (visit_handle v)
              (num_partitions (config m)) (replica_count (config m)) false true
      = Some ar_spec
    ∧ dimensions_at (shape ar) (split_dim ar_spec) = Some dim
    ∧ group_size ar_spec ≠ 0
    ∧ (dim `rem` group_size ar_spec ≠ 0 ∧ visit_after v = visit_before v
       ∨ dim `rem` group_size ar_spec = 0
         ∧ refused (computation (visit_before v)) (visit_handle v) ar ar_spec
                   (scatter_channel ar (next_channel_id (visit_before v))).1
                   (computation (visit_after v))).
Proof.
  rewrite (Run_fails matcher m INTERNAL) by done. split.
  - intros (before & v & Hvisits & Hst).
    assert (v ∈ visits matcher m) as Hin
      by (rewrite Hvisits; apply elem_of_app; right; left).
    pose proof (visits_body matcher m v Hin) as Hbody. rewrite Hst in Hbody.
    apply RunOnInstruction_INTERNAL in Hbody
      as (ar & ar_spec & dim & Har & Hop & Hm & Hdim & HG & Hcases).
    exists before, v, ar, ar_spec, dim. split_and!; try done.
    destruct Hcases as [[? ?]|(? & ? & _)]; auto.
  - intros (before & v & ar & ar_spec & dim & Hvisits & Har & Hop & Hm & Hdim & HG
            & Hcases).
    exists before, v. split; [done|].
    assert (v ∈ visits matcher m) as Hin
      by (rewrite Hvisits; apply elem_of_app; right; left).
    pose proof (visits_body matcher m v Hin) as Hbody.
    rewrite (RunOnInstruction_matched matcher _ _ _ ar ar_spec Har Hop Hm), Hdim
      in Hbody.
    destruct (group_size ar_spec =? 0) eqn:HG'; [lia|].
    destruct Hcases as [[Hrem _]|(Hrem & (ds & Hds & [o Ho] & Hdead))].
    + destruct (dim `rem` group_size ar_spec =? 0) eqn:Hrem'; [lia|].
      simpl in Hbody. by inversion Hbody.
    + destruct (dim `rem` group_size ar_spec =? 0) eqn:Hrem'; [|lia].
      cbn [negb] in Hbody. cbv zeta in Hbody. rewrite Hds, Ho in Hbody.
      destruct (RemoveDeadInstructions _ _ _ _ _) as [st c'] eqn:Hdead'.
      destruct st; inversion Hbody as [[Hst Hafter]];
        rewrite <- Hafter in Hdead; simpl in Hdead; by inversion Hdead.
Qed.
End Internal.

Lemma elem_of_users c x y :
  y ∈ users c x ↔ ∃ i, (y, i) ∈ instructions c ∧ x ∈ operands i.
Proof.
  unfold users. rewrite list_elem_of_fmap. split.
  - intros ([y' i] & -> & Hin). apply list_elem_of_filter in Hin as [? ?]. eauto.
  - intros (i & Hin & Hx). exists (y, i). split; [done|].
    by apply list_elem_of_filter.
Qed.

Lemma users_nil c x :
  users c x = [] ↔ ∀ y i, (y, i) ∈ instructions c → x ∉ operands i.
Proof.
  split.
  - intros Hnil y i Hin Hx.
    assert (y ∈ users c x) as H by (apply elem_of_users; eauto).
    rewrite Hnil in H. by apply elem_of_nil in H.
  - intros H. destruct (users c x) as [|y l] eqn:E; [done|].
    assert (y ∈ users c x) as Hy by (rewrite E; left).
    apply elem_of_users in Hy as (i & Hin & Hx). by destruct (H y i Hin).
Qed.

Lemma removable_true c x :
  x ∈ handles c → users c x = [] → root_instruction c ≠ x → removable c x = true.
Proof.
  intros. unfold removable. by rewrite !bool_decide_eq_true_2.
Qed.

(** The all-reduce cannot be removed while something still uses it: the slice
    and the reshape have to go first. *)
Lemma RemoveInstructionAndUnusedOperands_used c h :
  users c h ≠ [] → RemoveInstructionAndUnusedOperands h c = (INTERNAL, c).
Proof.
  intros H. unfold RemoveInstructionAndUnusedOperands, removable.
  rewrite (bool_decide_eq_false_2 (users c h = [])) by done.
  by rewrite andb_false_r.
Qed.

Lemma old_not_fresh c x :
  x ∈ handles c → x ≠ fresh_handle c ∧ x ≠ S (fresh_handle c).
Proof.
  intros Hx. split; intros ->.
  - by destruct (fresh_handle_not_in c).
  - apply max_list_elem_of_le in Hx. unfold fresh_handle in Hx. lia.
Qed.

Section Completion.
Variables (c : HloComputation) (h : handle) (ar : HloInstruction)
          (ar_spec : AllReduceScatterSpec) (ds : HloInstruction)
          (channel : option Z).
Hypothesis Har : find_instruction c h = Some ar.
Hypothesis Hds : find_instruction c (dynamic_slice ar_spec) = Some ds.
Hypothesis Hsliced : ∀ o, operand ds 0 = Some o → o ∈ handles c.
Hypothesis Hchain : sole_use_chain c h ar_spec ds.

Let added := add_replacement c h ar ar_spec ds channel.
Let c3 := (ReplaceAllUsesWith (dynamic_slice ar_spec) added.1 added.2).2.

Lemma result_is_new x : x ∈ handles c → added.1 ≠ x.
Proof.
  intros Hx E. apply old_not_fresh in Hx as [? ?].
  unfold added in E. rewrite add_replacement_result in E.
  destruct (intervening_reshape h ds); congruence.
Qed.

(** Once the uses of the slice have moved, what uses an instruction of the
    computation used it before, or is the reduce-scatter with the operands of
    the all-reduce; and nothing uses the slice. *)
Lemma uses_after_replace x y i :
  x ∈ handles c → (y, i) ∈ instructions c3 → x ∈ operands i →
  x ≠ dynamic_slice ar_spec ∧ (y ∈ users c x ∨ x ∈ operands ar).
Proof.
  intros Hx Hin Hxi. unfold c3 in Hin. rewrite instructions_ReplaceAllUsesWith in Hin.
  apply list_elem_of_fmap in Hin as ([y' i0] & [= -> ->] & Hin).
  rewrite operands_replace_operand, list_elem_of_fmap in Hxi.
  destruct Hxi as (o & Hxo & Ho).
  case_decide; [by destruct (result_is_new x)|]. subst o. split; [done|].
  unfold added in Hin. rewrite instructions_add_replacement in Hin.
  apply elem_of_app in Hin as [Hin|Hin].
  { left. apply elem_of_users. eauto. }
  apply elem_of_app in Hin as [Hin|Hin].
  { apply list_elem_of_singleton in Hin as [= -> ->]. by right. }
  destruct (intervening_reshape h ds); [|by apply elem_of_nil in Hin].
  apply list_elem_of_singleton in Hin as [= -> ->]. simpl in Ho.
  apply list_elem_of_singleton in Ho. apply old_not_fresh in Hx as [? ?]. done.
Qed.

Lemma handles_c3 x : x ∈ handles c → x ∈ handles c3.
Proof.
  intros Hx. unfold c3. rewrite handles_ReplaceAllUsesWith.
  apply find_instruction_handles. unfold added.
  rewrite find_add_replacement_old by done. by apply find_instruction_handles.
Qed.

Lemma root_c3 x : x ∈ handles c → root_instruction c ≠ x → root_instruction c3 ≠ x.
Proof.
  intros Hx Hroot.
  assert (root_instruction c3
          = if decide (root_instruction c = dynamic_slice ar_spec)
            then added.1 else root_instruction c) as ->.
  { unfold c3, added, add_replacement. by destruct (intervening_reshape h ds). }
  case_decide; [|done]. by apply result_is_new.
Qed.

(** On a sole use chain no removal is refused. *)
Lemma RemoveDeadInstructions_completes :
  (RemoveDeadInstructions (dynamic_slice ar_spec) added.1
     (intervening_reshape h ds) h added.2).1 = OK.
Proof.
  destruct Hchain as (Hhd & Hroot & Huses).
  assert (h ∈ handles c) as Hh by (apply find_instruction_handles; eauto).
  assert (dynamic_slice ar_spec ∈ handles c) as Hd
    by (apply find_instruction_handles; eauto).
  assert (h ∉ operands ar) as Hhar.
  { intros Hin. assert (h ∈ users c h) as Hu.
    { apply elem_of_users. exists ar. split; [by apply find_instruction_Some|done]. }
    destruct (intervening_reshape h ds) as [r|] eqn:Hr.
    - destruct Huses as (Hu1 & _). rewrite Hu1 in Hu.
      apply list_elem_of_singleton in Hu.
      destruct (intervening_reshape_handles c h ds Hsliced r Hr). done.
    - rewrite Huses in Hu. by apply list_elem_of_singleton in Hu. }
  assert (removable c3 (dynamic_slice ar_spec) = true) as Hrem3.
  { apply removable_true; [by apply handles_c3| |].
    - apply users_nil. intros y i Hin Hxi.
      by destruct (uses_after_replace _ y i Hd Hin Hxi).
    - assert (root_instruction c3
              = if decide (root_instruction c = dynamic_slice ar_spec)
                then added.1 else root_instruction c) as ->.
      { unfold c3, added, add_replacement. by destruct (intervening_reshape h ds). }
      case_decide; [|done]. by apply result_is_new. }
  unfold RemoveDeadInstructions, TF_RETURN_IF_ERROR.
  change (ReplaceAllUsesWith (dynamic_slice ar_spec) added.1 added.2) with (OK, c3).
  unfold RemoveInstruction at 1. rewrite Hrem3.
  destruct (intervening_reshape h ds) as [r|] eqn:Hr; simpl.
  - destruct Huses as (Hu1 & Hu2 & Hrd & Hrootr).
    destruct (intervening_reshape_handles c h ds Hsliced r Hr) as [Hrc Hrh].
    unfold RemoveInstruction. rewrite removable_true.
    + unfold RemoveInstructionAndUnusedOperands. rewrite removable_true; [done| | |].
      * apply handles_erase. split; [|done].
        apply handles_erase. split; [by apply handles_c3|done].
      * apply users_nil. intros y i Hin Hxi. rewrite !instructions_erase in Hin.
        apply list_elem_of_filter in Hin as [Hyr Hin].
        apply list_elem_of_filter in Hin as [Hyd Hin]. simpl in Hyr, Hyd.
        destruct (uses_after_replace _ y i Hh Hin Hxi) as [_ [Hu|?]]; [|done].
        rewrite Hu1 in Hu. by apply list_elem_of_singleton in Hu.
      * by apply root_c3.
    + apply handles_erase. split; [by apply handles_c3|done].
    + apply users_nil. intros y i Hin Hxi. rewrite !instructions_erase in Hin.
      apply list_elem_of_filter in Hin as [Hyd Hin]. simpl in Hyd.
      destruct (uses_after_replace _ y i Hrc Hin Hxi) as [_ [Hu|Hrar]].
      * rewrite Hu2 in Hu. by apply list_elem_of_singleton in Hu.
      * assert (h ∈ users c r) as Hu.
        { apply elem_of_users. exists ar. split; [by apply find_instruction_Some|done]. }
        rewrite Hu2 in Hu. by apply list_elem_of_singleton in Hu.
    + by apply root_c3.
  - unfold RemoveInstructionAndUnusedOperands. rewrite removable_true; [done| | |].
    + apply handles_erase. split; [by apply handles_c3|done].
    + apply users_nil. intros y i Hin Hxi. rewrite !instructions_erase in Hin.
      apply list_elem_of_filter in Hin as [Hyd Hin]. simpl in Hyd.
      destruct (uses_after_replace _ y i Hh Hin Hxi) as [_ [Hu|?]]; [|done].
      rewrite Huses in Hu. by apply list_elem_of_singleton in Hu.
    + by apply root_c3.
Qed.
End Completion.

Section Atomicity.
Variable matcher :
  HloComputation → handle → Z → Z → bool → bool → option AllReduceScatterSpec.
Variables (cfg : HloModuleConfig) (s s' : LoopState) (st : Status) (h : handle)
          (ar : HloInstruction) (ar_spec : AllReduceScatterSpec)
          (ds : HloInstruction) (sliced : handle).
Hypothesis Har : find_instruction (computation s) h = Some ar.
Hypothesis Hop : opcode ar = kAllReduce.
Hypothesis Hmatch :
  matcher (computation s) h (num_partitions cfg) (replica_count cfg) false true
  = Some ar_spec.
Hypothesis Hds : find_instruction (computation s) (dynamic_slice ar_spec) = Some ds.
Hypothesis Hoperand : operand ds 0 = Some sliced.
Hypothesis Hsliced : sliced ∈ handles (computation s).
Hypothesis Hrun : RunOnInstruction matcher cfg h s = (st, s').

(** C8, as the code has it. The checks of an accepted match come before any
    change: when one fails the state is as it was. After them the new
    instructions are added and the mutations run in their order - the uses of
    the slice move to the result, the slice goes, then the reshape, then the
    all-reduce, which cannot go while something uses it. When no mutation
    returns an error the rewrite is complete; when one does, the run ends with
    the changes made so far in place. On a sole use chain none does. *)
Theorem rewrite_completes_unless_refused :
  let channel := (scatter_channel ar (next_channel_id s)).1 in
  let next := (scatter_channel ar (next_channel_id s)).2 in
  let added := add_replacement (computation s) h ar ar_spec ds channel in
  ((st ≠ OK ∧ s' = s)
   ∨ (st = OK
      ∧ (ReplaceAllUsesWith (dynamic_slice ar_spec) added.1 >>
         RemoveInstruction (dynamic_slice ar_spec) >>
         if_present (intervening_reshape h ds) RemoveInstruction >>
         RemoveInstructionAndUnusedOperands h) added.2
        = (OK, computation s')
      ∧ s' = mkLoop (rewritten (computation s) h ar ar_spec ds channel) next true)
   ∨ (st = INTERNAL
      ∧ refused (computation s) h ar ar_spec channel (computation s')))
  ∧ (∀ c, users c h ≠ [] → RemoveInstructionAndUnusedOperands h c = (INTERNAL, c))
  ∧ (sole_use_chain (computation s) h ar_spec ds → st = OK ∨ s' = s).
Proof.
  assert (∀ o, operand ds 0 = Some o → o ∈ handles (computation s)) as Hsl.
  { intros o Ho. rewrite Hoperand in Ho. injection Ho as <-. done. }
  pose proof Hrun as Hrun'.
  rewrite (RunOnInstruction_accepted matcher cfg s h ar ar_spec ds Har Hop Hmatch Hds)
    in Hrun'.
  cbv zeta. split_and!.
  - destruct (dimensions_at _ _) as [dim|]; [|left; by inversion Hrun'].
    destruct (group_size ar_spec =? 0); [left; by inversion Hrun'|].
    destruct (negb _); [left; by inversion Hrun'|].
    cbv zeta in Hrun'. rewrite Hoperand in Hrun'.
    destruct (RemoveDeadInstructions _ _ _ _ _) as [st' c'] eqn:Hdead.
    destruct st'; inversion Hrun'; subst st s'; simpl.
    + right. left. split_and!; [done|done|].
      f_equal. by apply (RemoveDeadInstructions_OK _ _ _ _ _ _ Har Hds Hsl).
    + right. right. split; [done|]. exists ds. split_and!.
      * rewrite find_instruction_AddInstruction, decide_False; [done|].
        intros E. rewrite E, find_instruction_fresh in Hds. done.
      * by rewrite Hoperand.
      * done.
    + pose proof (RemoveDeadInstructions_status (dynamic_slice ar_spec)
        (add_replacement (computation s) h ar ar_spec ds
           (scatter_channel ar (next_channel_id s)).1).1
        (intervening_reshape h ds) h
        (add_replacement (computation s) h ar ar_spec ds
           (scatter_channel ar (next_channel_id s)).1).2) as Hst.
      rewrite Hdead in Hst. done.
  - intros c0 Hc0. by apply RemoveInstructionAndUnusedOperands_used.
  - intros Hchain.
    destruct (dimensions_at _ _) as [dim|]; [|right; by inversion Hrun'].
    destruct (group_size ar_spec =? 0); [right; by inversion Hrun'|].
    destruct (negb _); [right; by inversion Hrun'|].
    cbv zeta in Hrun'. rewrite Hoperand in Hrun'.
    pose proof (RemoveDeadInstructions_completes (computation s) h ar ar_spec ds
                  (scatter_channel ar (next_channel_id s)).1 Har Hds Hsl Hchain)
      as Hok.
    destruct (RemoveDeadInstructions _ _ _ _ _) as [st' c'].
    simpl in Hok. subst st'. left. by inversion Hrun'.
Qed.
End Atomicity.

(** C7. An all-reduce the matcher does not accept is not rewritten: the step
    on it succeeds and changes nothing, neither the instruction nor the rest of
    the computation nor the channel counter nor the changed flag, and the
    sweep goes on with the next instruction as if it had not been there. In
    particular the table {0,1,2,3,4,5,6,8} of the test AllReplicasWrongOffsets
    is no match for 8 replicas, and the run on that module returns false and
    the module as it was. *)
Theorem unmatched_all_reduce_is_left_alone
    (matcher : HloComputation → handle → Z → Z → bool → bool
               → option AllReduceScatterSpec)
    (cfg : HloModuleConfig) (h : handle) (rest : list handle) (s : LoopState) :
  matcher (computation s) h (num_partitions cfg) (replica_count cfg) false true
  = None →
  RunOnInstruction matcher cfg h s = (OK, s)
  ∧ for_each (RunOnInstruction matcher cfg) (h :: rest) s
    = for_each (RunOnInstruction matcher cfg) rest s
  ∧ MatchAllReduceScatter (AllReplicas_entry [0; 1; 2; 3; 4; 5; 6; 8]) 2%nat
      1 8 false true = None
  ∧ Run MatchAllReduceScatter AllReplicasWrongOffsets
    = (Value false, AllReplicasWrongOffsets).
Proof.
  intros Hnone.
  pose proof (RunOnInstruction_no_match matcher cfg h s Hnone) as Hstep.
  split_and!.
  - done.
  - by apply for_each_cons_OK.
  - by vm_compute.
  - by vm_compute.
Qed.

Lemma unmatched_all_reduce_is_left_alone_witness :
  RunOnInstruction MatchAllReduceScatter (mkConfig 1 8) 2%nat
    (mkLoop (AllReplicas_entry [0; 1; 2; 3; 4; 5; 6; 8]) 1 false)
  = (OK, mkLoop (AllReplicas_entry [0; 1; 2; 3; 4; 5; 6; 8]) 1 false).
Proof.
  apply (unmatched_all_reduce_is_left_alone MatchAllReduceScatter (mkConfig 1 8)
           2%nat [] (mkLoop (AllReplicas_entry [0; 1; 2; 3; 4; 5; 6; 8]) 1 false)).
  vm_compute. reflexivity.
Defined.

(** The run on [AllReduceIsRoot] ends with an internal error although the one
    match it accepts splits a dimension of 32 in 8: the all-reduce is the root
    and its removal is refused. *)
Lemma internal_error_on_even_division :
  (Run MatchAllReduceScatter AllReduceIsRoot).1 = Error INTERNAL
  ∧ omap (accepted_split MatchAllReduceScatter)
         (visits MatchAllReduceScatter AllReduceIsRoot) = [(32, 8)]
  ∧ 32 `rem` 8 = 0.
Proof. by vm_compute. Qed.

(** The run on [ReshapeIsRoot] ends with an internal error and a rewrite half
    done: the slice (11) is gone and the reduce-scatter (12) and its reshape
    (13) are there, next to the all-reduce (2) and the old reshape (10). *)
Lemma rewrite_stops_half_way :
  (Run MatchAllReduceScatter ReshapeIsRoot).1 = Error INTERNAL
  ∧ map handles (computations ReshapeIsRoot)
    = [[1; 2; 3]; [1; 2; 3; 4; 5; 6; 7; 8; 9; 10; 11]]%nat
  ∧ map handles (computations (Run MatchAllReduceScatter ReshapeIsRoot).2)
    = [[1; 2; 3]; [1; 2; 3; 4; 5; 6; 7; 8; 9; 10; 12; 13]]%nat.
Proof. by vm_compute. Qed.

Ltac evaluated := vm_compute; reflexivity.

Ltac member := apply list_elem_of_In; vm_compute; auto 20.

Ltac listed := let o := fresh in intros o [= <-]; member.

Lemma reduce_scatter_carries_all_reduce_fields_witness :
  ∃ scatter,
    find_instruction
      (computation (RunOnInstruction MatchAllReduceScatter (mkConfig 1 8) 2%nat
                      (entry_state AllReplicas)).2) 11%nat = Some scatter
    ∧ operands scatter = [1%nat]
    ∧ scatter_dimension scatter = 0
    ∧ dimensions (shape scatter) = [4; 8; 128].
Proof.
  destruct (reduce_scatter_carries_all_reduce_fields MatchAllReduceScatter
              (mkConfig 1 8) (entry_state AllReplicas)
              (RunOnInstruction MatchAllReduceScatter (mkConfig 1 8) 2%nat
                 (entry_state AllReplicas)).2
              2%nat
              (all_reduce (layout_210 [32; 8; 128]) [1%nat] [] None false)
              (mkSpec 0 8 10%nat)
              (instruction kDynamicSlice (f32 [4; 8; 128]) [2; 8; 9; 9]%nat))
    as (scatter & dim & _ & Hfind & _ & Hops & _ & _ & _ & _ & Hsd & Hdim & _ & _ & _ & Hdims).
  - evaluated.
  - evaluated.
  - evaluated.
  - evaluated.
  - listed.
  - evaluated.
  - rewrite list_elem_of_In. vm_compute. intros [H|[]]. discriminate.
  - exists scatter. split_and!; [exact Hfind|exact Hops|exact Hsd|].
    injection Hdim as <-. exact Hdims.
Defined.

Lemma result_replaces_slice_witness :
  find_instruction
    (computation (RunOnInstruction MatchAllReduceScatter (mkConfig 1 8) 2%nat
                    (entry_state AllReplicasWithReshape)).2) 13%nat
  = Some (CreateReshape (f32 [4; 16; 64]) 12%nat)
  ∧ root_instruction
      (computation (RunOnInstruction MatchAllReduceScatter (mkConfig 1 8) 2%nat
                      (entry_state AllReplicasWithReshape)).2) = 13%nat.
Proof.
  destruct (result_replaces_slice MatchAllReduceScatter
              (mkConfig 1 8) (entry_state AllReplicasWithReshape)
              (RunOnInstruction MatchAllReduceScatter (mkConfig 1 8) 2%nat
                 (entry_state AllReplicasWithReshape)).2
              2%nat
              (all_reduce (layout_210 [32; 8; 128]) [1%nat] [] None false)
              (mkSpec 0 8 11%nat)
              (instruction kDynamicSlice (f32 [4; 16; 64]) [10; 8; 9; 9]%nat))
    as (Hreshape & _ & _ & _ & Hroot & _).
  - evaluated.
  - evaluated.
  - evaluated.
  - evaluated.
  - listed.
  - evaluated.
  - split; [exact Hreshape|exact Hroot].
Defined.

Lemma no_channel_id_consumed_witness :
  next_channel_id
    (RunOnInstruction MatchAllReduceScatter (mkConfig 1 8) 2%nat
       (entry_state AllReplicas)).2
  = next_channel_id (entry_state AllReplicas).
Proof.
  apply (no_channel_id_consumed MatchAllReduceScatter
           (mkConfig 1 8) (entry_state AllReplicas)
           (RunOnInstruction MatchAllReduceScatter (mkConfig 1 8) 2%nat
              (entry_state AllReplicas)).2
           2%nat
           (all_reduce (layout_210 [32; 8; 128]) [1%nat] [] None false)
           (mkSpec 0 8 10%nat)
           (instruction kDynamicSlice (f32 [4; 8; 128]) [2; 8; 9; 9]%nat)).
  - evaluated.
  - evaluated.
  - evaluated.
  - evaluated.
  - listed.
  - evaluated.
  - evaluated.
Defined.

Lemma new_channel_ids_are_fresh_witness :
  StronglySorted Z.lt
    (omap minted (visits MatchAllReduceScatter AllPartitions)).
Proof.
  apply (new_channel_ids_are_fresh MatchAllReduceScatter AllPartitions).
  - intros id Hid. apply list_elem_of_In in Hid.
    vm_compute in Hid. destruct Hid as [<-|[]]. done.
  - by vm_compute.
Defined.

Lemma rewrite_completes_unless_refused_witness :
  (RunOnInstruction MatchAllReduceScatter (mkConfig 1 8) 2%nat
     (entry_state AllReplicas)).2
  = mkLoop (rewritten (computation (entry_state AllReplicas)) 2%nat
              (all_reduce (layout_210 [32; 8; 128]) [1%nat] [] None false)
              (mkSpec 0 8 10%nat)
              (instruction kDynamicSlice (f32 [4; 8; 128]) [2; 8; 9; 9]%nat)
              None)
           1 true.
Proof.
  destruct (rewrite_completes_unless_refused MatchAllReduceScatter
              (mkConfig 1 8) (entry_state AllReplicas)
              (RunOnInstruction MatchAllReduceScatter (mkConfig 1 8) 2%nat
                 (entry_state AllReplicas)).2
              OK 2%nat
              (all_reduce (layout_210 [32; 8; 128]) [1%nat] [] None false)
              (mkSpec 0 8 10%nat)
              (instruction kDynamicSlice (f32 [4; 8; 128]) [2; 8; 9; 9]%nat)
              2%nat)
    as [[[Hst _]|[(_ & _ & Hs)|[Hst _]]] _].
  - evaluated.
  - evaluated.
  - evaluated.
  - evaluated.
  - evaluated.
  - member.
  - evaluated.
  - by destruct Hst.
  - exact Hs.
  - discriminate Hst.
Defined.

Lemma Run_without_all_reduce_witness :
  Run MatchAllReduceScatter OnlySum = (Value false, OnlySum).
Proof.
  apply (Run_without_all_reduce MatchAllReduceScatter OnlySum).
  intros c Hc _ h i Hin.
  apply list_elem_of_In in Hc. destruct Hc as [<-|[]].
  apply list_elem_of_In in Hin.
  destruct Hin as [[= _ <-]|[[= _ <-]|[[= _ <-]|[]]]]; discriminate.
Defined.

(** ** The matcher, condition by condition *)

Lemma guard_bool_Some b : guard_bool b = Some () ↔ b = true.
Proof. destruct b; simpl; split; congruence. Qed.

Lemma MatchAllReduceScatter_matched c h P R ar_spec :
  MatchAllReduceScatter c h P R false true = Some ar_spec →
  matched (mkConfig P R) c h ar_spec.
Proof.
  unfold MatchAllReduceScatter. intros H.
  destruct (find_instruction c h) as [ar|] eqn:Har; [|done]. simpl in H.
  destruct (bool_decide (opcode ar = kAllReduce)) eqn:Hop; [|done]. simpl in H.
  apply bool_decide_eq_true in Hop.
  destruct (users c h) as [|user [|]] eqn:Husers; try done.
  destruct (find_instruction c user) as [u|] eqn:Hu; [|done]. simpl in H.
  destruct (if bool_decide (opcode u = kReshape) && bool_decide (operands u = [h])
            then match users c user with [d] => Some (d, user) | _ => None end
            else Some (user, h)) as [[ds_handle source]|] eqn:Hchain; [|done].
  simpl in H.
  destruct (find_instruction c ds_handle) as [ds|] eqn:Hds; [|done]. simpl in H.
  destruct (find_instruction c source) as [src|] eqn:Hsrc; [|done]. simpl in H.
  destruct (bool_decide (opcode ds = kDynamicSlice)) eqn:Hdsop; [|done]. simpl in H.
  apply bool_decide_eq_true in Hdsop.
  destruct (operands ds) as [|sliced starts] eqn:Hops; [done|].
  destruct (bool_decide (sliced = source) && _ && _) eqn:Hshape; [|done].
  simpl in H. apply andb_true_iff in Hshape as [Hshape Hlen2].
  apply andb_true_iff in Hshape as [Hsliced Hlen1].
  apply bool_decide_eq_true in Hsliced, Hlen1, Hlen2. subst sliced.
  destruct (differing_dims _ _) as [|j [|]] eqn:Hdiff; try done.
  destruct (if decide (source = h) then Some j else _) as [i|] eqn:Hi; [|done].
  simpl in H.
  destruct (dimensions (shape ar) !! i) as [n|] eqn:Hn; [|done]. simpl in H.
  destruct (dimensions (shape ds) !! j) as [shard|] eqn:Hshard; [|done]. simpl in H.
  destruct (starts !! j) as [offset|] eqn:Hoffset; [|done]. simpl in H.
  destruct (bool_decide (0 < shard) && _) eqn:Hpos; [|done]. simpl in H.
  apply andb_true_iff in Hpos as [Hpos Hrem].
  apply bool_decide_eq_true in Hpos, Hrem.
  destruct (groupSizeAndCount _) as [[size count]|] eqn:Hgroups; [|done].
  simpl in H.
  destruct (bool_decide (Z.of_nat size = _)) eqn:Hsize; [|done]. simpl in H.
  apply bool_decide_eq_true in Hsize.
  destruct (offset_expr _ _ _ _ _ _) as [e|] eqn:He; [|done]. simpl in H.
  destruct (offsets_match _ _ _ _) eqn:Hmatch; [|done]. simpl in H.
  injection H as <-.
  eapply (matched_chain _ c h ar u src ds user source ds_handle starts offset
            i j n shard size count e); try done.
  destruct (_ && _); [|by injection Hchain as <- <-].
  destruct (users c user) as [|d [|]]; try done. by injection Hchain as <- <-.
Qed.

Lemma matched_MatchAllReduceScatter c h P R ar_spec :
  matched (mkConfig P R) c h ar_spec →
  MatchAllReduceScatter c h P R false true = Some ar_spec.
Proof.
  intros [ar u src ds user source ds_handle starts offset i j n shard size count e
            Har Hop Husers Hu Hchain Hds Hsrc Hdsop Hops Hlen1 Hlen2 Hdiff Hi Hn
            Hshard Hoffset Hpos Hrem Hgroups Hsize He Hmatch].
  unfold MatchAllReduceScatter. rewrite Har. simpl.
  rewrite (bool_decide_eq_true_2 _ Hop). simpl. rewrite Husers, Hu. simpl.
  assert ((if bool_decide (opcode u = kReshape) && bool_decide (operands u = [h])
           then match users c user with [d] => Some (d, user) | _ => None end
           else Some (user, h)) = Some (ds_handle, source)) as ->.
  { destruct (_ && _); [|by destruct Hchain as [-> ->]].
    destruct Hchain as [-> ->]. done. }
  simpl. rewrite Hds, Hsrc. simpl.
  rewrite (bool_decide_eq_true_2 _ Hdsop). simpl. rewrite Hops.
  rewrite (bool_decide_eq_true_2 (source = source) eq_refl),
    (bool_decide_eq_true_2 _ Hlen1), (bool_decide_eq_true_2 _ Hlen2). simpl.
  rewrite Hdiff, Hi. simpl. rewrite Hn. simpl. rewrite Hshard. simpl.
  rewrite Hoffset. simpl.
  rewrite (bool_decide_eq_true_2 _ Hpos), (bool_decide_eq_true_2 _ Hrem). simpl.
  rewrite Hgroups. simpl. rewrite (bool_decide_eq_true_2 _ Hsize). simpl.
  rewrite He. simpl. rewrite Hmatch. done.
Qed.

(** ** Slices of row-major arrays *)

Lemma flat_map_seq_ext {A : Type} (f g : nat → list A) start len :
  (∀ k, (start ≤ k < start + len)%nat → f k = g k) →
  flat_map f (seq start len) = flat_map g (seq start len).
Proof.
  revert start. induction len as [|len IH]; intros start Hfg; [done|].
  simpl. rewrite Hfg by lia. f_equal. apply IH. intros k Hk. apply Hfg. lia.
Qed.

Lemma flat_map_seq_shift {A : Type} (f : nat → list A) base from len :
  flat_map f (seq (base + from) len)
  = flat_map (λ a, f (base + a)%nat) (seq from len).
Proof.
  revert from. induction len as [|len IH]; intros from; [done|].
  simpl. f_equal. rewrite <- IH. by rewrite Nat.add_succ_r.
Qed.

Lemma flat_map_seq_mul {A : Type} (f : nat → list A) (p q : nat) :
  flat_map f (seq 0 (p * q))
  = flat_map (λ k, flat_map (λ a, f (k * q + a)%nat) (seq 0 q)) (seq 0 p).
Proof.
  induction p as [|p IH]; [done|].
  rewrite seq_S, flat_map_app. simpl. rewrite app_nil_r, <- IH.
  replace (q + p * q)%nat with (p * q + q)%nat by lia.
  rewrite seq_app, flat_map_app. f_equal. simpl.
  rewrite <- (Nat.add_0_r (p * q)) at 1. apply flat_map_seq_shift.
Qed.

Lemma take_blocks {A : Type} (l : list A) (n size : nat) :
  flat_map (λ k, take size (drop (k * size) l)) (seq 0 n) = take (n * size) l.
Proof.
  induction n as [|n IH]; [done|].
  rewrite seq_S, flat_map_app, IH. simpl. rewrite app_nil_r.
  rewrite take_take_drop. f_equal. lia.
Qed.

Lemma take_drop_take {A : Type} (l : list A) (x y w : nat) :
  (x + y ≤ w)%nat → take x (drop y (take w l)) = take x (drop y l).
Proof.
  intros Hw. replace w with (y + (w - y))%nat by lia.
  rewrite <- take_drop_commute, take_take. f_equal. lia.
Qed.

Lemma element_count_app a b : element_count (a ++ b) = (element_count a * element_count b)%nat.
Proof.
  induction a as [|x a IH]; simpl; [lia|]. rewrite IH. lia.
Qed.

Lemma clamp_full s n : clamp s n n = 0%nat.
Proof. unfold clamp. lia. Qed.

Lemma clamp_fits s n size : (size ≤ n)%nat → (clamp s n size + size ≤ n)%nat.
Proof. unfold clamp. lia. Qed.

Lemma clamp_inside (s : nat) n size :
  (s + size ≤ n)%nat → clamp (Z.of_nat s) n size = s.
Proof. unfold clamp. lia. Qed.

(** A slice as large as the array is the array. *)
Lemma slice_full dims starts data :
  length starts = length dims →
  slice dims starts dims data = take (element_count dims) data.
Proof.
  revert starts data. induction dims as [|n dims IH]; intros starts data Hlen.
  - by destruct starts.
  - destruct starts as [|s starts]; [done|]. injection Hlen as Hlen.
    simpl. rewrite clamp_full. simpl.
    rewrite <- take_blocks. apply flat_map_seq_ext. intros k _.
    rewrite IH by done. by rewrite take_take, Nat.min_id.
Qed.

(** A slice that is smaller than the array in one dimension is a shard. *)
Lemma slice_dim pre post n size start starts data :
  length starts = length (pre ++ n :: post) →
  starts !! length pre = Some start →
  (size ≤ n)%nat →
  slice (pre ++ n :: post) starts (pre ++ size :: post) data
  = shard_of (element_count pre) n (element_count post) (clamp start n size) size data.
Proof.
  revert starts data.
  induction pre as [|p pre IH]; intros starts data Hlen Hstart Hsize.
  - destruct starts as [|s starts]; [done|]. injection Hlen as Hlen.
    injection Hstart as ->. simpl. unfold shard_of. simpl. rewrite app_nil_r.
    rewrite <- take_blocks. apply flat_map_seq_ext. intros k _.
    rewrite slice_full by done. rewrite take_take, Nat.min_id, drop_drop.
    do 2 f_equal. lia.
  - destruct starts as [|s starts]; [done|]. injection Hlen as Hlen.
    simpl in Hstart. simpl. rewrite clamp_full. simpl.
    unfold shard_of at 1. rewrite flat_map_seq_mul.
    apply flat_map_seq_ext. intros k _.
    rewrite IH by done. unfold shard_of.
    apply flat_map_seq_ext. intros a Ha.
    pose proof (clamp_fits start n size Hsize) as Hfit.
    rewrite element_count_app. simpl.
    assert (a * n + clamp start n size + size ≤ element_count pre * n)%nat
      as Hrows by nia.
    apply (Nat.mul_le_mono_r _ _ (element_count post)) in Hrows.
    rewrite take_drop_take, drop_drop by lia.
    do 2 f_equal. lia.
Qed.

(** ** Shapes that differ in one dimension *)

Lemma differing_dims_elsewhere (a b : list Z) j k :
  differing_dims a b = [j] → (k < length a)%nat → k ≠ j → a !! k = b !! k.
Proof.
  intros Hdiff Hk Hkj. destruct (decide (a !! k = b !! k)) as [|Hne]; [done|].
  assert (k ∈ differing_dims a b) as Hin.
  { apply list_elem_of_filter. split; [done|]. apply elem_of_seq. lia. }
  rewrite Hdiff in Hin. by apply list_elem_of_singleton in Hin.
Qed.

Lemma differing_dims_here (a b : list Z) j :
  differing_dims a b = [j] → (j < length a)%nat ∧ a !! j ≠ b !! j.
Proof.
  intros Hdiff. assert (j ∈ differing_dims a b) as Hin by (rewrite Hdiff; left).
  apply list_elem_of_filter in Hin as [Hne Hin]. apply elem_of_seq in Hin.
  split; [lia|done].
Qed.

Lemma differing_dims_split (a b : list Z) j x y :
  length b = length a → differing_dims a b = [j] →
  a !! j = Some x → b !! j = Some y →
  a = take j a ++ x :: drop (S j) a
  ∧ b = take j a ++ y :: drop (S j) a.
Proof.
  intros Hlen Hdiff Hx Hy. split.
  - by rewrite <- (take_drop_middle a j x) at 1.
  - rewrite <- (take_drop_middle b j y) at 1 by done.
    assert (j < length a)%nat by (by apply lookup_lt_Some in Hx).
    f_equal; [|f_equal].
    + apply list_eq. intros k. destruct (decide (k < j)%nat).
      * rewrite !lookup_take_lt by done. symmetry.
        apply (differing_dims_elsewhere a b j); [done|lia|lia].
      * by rewrite !lookup_take_ge by lia.
    + apply list_eq. intros k. rewrite !lookup_drop.
      destruct (decide (S j + k < length a)%nat).
      * symmetry. apply (differing_dims_elsewhere a b j); [done|lia|lia].
      * rewrite !lookup_ge_None_2 by lia. done.
Qed.

Lemma element_count_product (l : list Z) :
  Forall (λ n, 0 ≤ n) l →
  element_count (map Z.to_nat l) = Z.to_nat (product l) ∧ 0 ≤ product l.
Proof.
  induction 1 as [|n l Hn _ [IH Hpos]]; [done|].
  simpl. rewrite IH. unfold product in *. simpl. split; [|lia].
  rewrite Z2Nat.inj_mul by done. done.
Qed.

Lemma unmodified_dim_Some input output j i :
  unmodified_dim input output j = Some i →
  (i < length input)%nat
  ∧ input !! i = output !! j
  ∧ product (take i input) = product (take j output)
  ∧ product (drop (S i) input) = product (drop (S j) output).
Proof.
  unfold unmodified_dim. intros H.
  assert (i ∈ filter (λ i, input !! i = output !! j
                           ∧ product (take i input) = product (take j output)
                           ∧ product (drop (S i) input)
                             = product (drop (S j) output))
                     (seq 0 (length input))) as Hin.
  { destruct (filter _ _) as [|x l]; [done|]. injection H as ->. left. }
  apply list_elem_of_filter in Hin as [(? & ? & ?) Hin].
  apply elem_of_seq in Hin. split_and!; [lia|done..].
Qed.

(** ** Evaluation *)

Lemma mapM_mono {A B : Type} (f g : A → option B) l k :
  (∀ a b, f a = Some b → g a = Some b) →
  mapM f l = Some k → mapM g l = Some k.
Proof.
  intros Hfg. rewrite !mapM_Some. apply Forall2_impl. exact Hfg.
Qed.

Section Evaluation.
Variable config : HloModuleConfig.
Variable parameters : Device → Z → list Z.
Variable reduction : option nat → Z → Z → Z.

Local Abbreviation value_at := (eval config parameters reduction).
Local Abbreviation step := (eval_instruction config parameters reduction).
Local Abbreviation reduced := (all_reduce_value config reduction).

Lemma all_reduce_value_mono i d (f g : Device → option (list Z)) r :
  (∀ d' w, f d' = Some w → g d' = Some w) →
  reduced i d f = Some r → reduced i d g = Some r.
Proof.
  intros Hfg. unfold all_reduce_value.
  destruct (rankOf d _) as [[ordinal rank]|]; [|done]. simpl.
  destruct (_ !! ordinal) as [grp|]; [|done]. simpl.
  destruct (mapM f grp) as [values|] eqn:Hvalues; [|done].
  by rewrite (mapM_mono f g grp values Hfg Hvalues).
Qed.

Lemma mapM_mono_in {A B : Type} (f g : A → option B) l k :
  (∀ a b, a ∈ l → f a = Some b → g a = Some b) →
  mapM f l = Some k → mapM g l = Some k.
Proof.
  rewrite !mapM_Some. intros Hfg HF.
  induction HF as [|a b l k Hab HF IH]; constructor.
  - apply Hfg; [left|done].
  - apply IH. intros a' b' Hin. apply Hfg. by right.
Qed.

Lemma combined_mono f (value value' : handle → option (list Z)) i v :
  (∀ x w, x ∈ operands i → value x = Some w → value' x = Some w) →
  combined f value i = Some v → combined f value' i = Some v.
Proof.
  intros Hvalue. unfold combined.
  destruct (mapM value (operands i)) as [values|] eqn:Hvalues; [|done].
  by rewrite (mapM_mono_in value value' _ values Hvalue Hvalues).
Qed.

Lemma elementwise_mono op (f g : handle → option (list Z)) i v :
  (∀ x w, x ∈ operands i → f x = Some w → g x = Some w) →
  elementwise op f i = Some v → elementwise op g i = Some v.
Proof.
  intros Hfg. unfold elementwise.
  destruct (operands i) as [|x [|y [|]]]; try done.
  destruct (f x) as [a|] eqn:Ha; [|done].
  destruct (f y) as [b|] eqn:Hb; [|done].
  rewrite (Hfg _ _ (list_elem_of_here _ _) Ha).
  rewrite (Hfg y b) by (done || (right; left)). done.
Qed.

(** The value of an instruction is made of the values of its operands and,
    for a dynamic slice, of the shape of what it slices. *)
Lemma eval_instruction_local c c' value value' d i v :
  (∀ x xi, x ∈ operands i → find_instruction c x = Some xi →
           ∃ xi', find_instruction c' x = Some xi' ∧ shape xi' = shape xi) →
  (∀ d' x w, x ∈ operands i → value d' x = Some w → value' d' x = Some w) →
  step c value d i = Some v →
  step c' value' d i = Some v.
Proof.
  intros Hc Hvalue. unfold eval_instruction.
  destruct (opcode i); try done.
  - apply elementwise_mono. intros x w. apply Hvalue.
  - destruct (reduced i d _) as [r|] eqn:Hr; [|done].
    erewrite all_reduce_value_mono; [done| |exact Hr].
    intros d' w. apply combined_mono. intros x w'. apply Hvalue.
  - destruct (reduced i d _) as [r|] eqn:Hr; [|done].
    erewrite all_reduce_value_mono; [done| |exact Hr].
    intros d' w. apply combined_mono. intros x w'. apply Hvalue.
  - destruct (operands i) as [|x [|]]; try done. apply Hvalue. left.
  - destruct (operands i) as [|x starts]; [done|].
    destruct (find_instruction c x) as [xi|] eqn:Hxi; [|done].
    destruct (Hc x xi (list_elem_of_here _ _) Hxi) as (xi' & -> & Hshape). simpl.
    destruct (value d x) as [data|] eqn:Hdata; [|done].
    rewrite (Hvalue _ _ _ (list_elem_of_here _ _) Hdata). simpl.
    destruct (mapM _ starts) as [start_values|] eqn:Hstarts; [|done].
    erewrite mapM_mono_in; [simpl; by rewrite Hshape| |exact Hstarts].
    intros s w Hs. simpl. destruct (value d s) as [sv|] eqn:Hsv; [|done].
    rewrite (Hvalue d s sv); [done|by right|done].
  - apply elementwise_mono. intros x w. apply Hvalue.
  - destruct (operands i) as [|x [|]]; try done. apply Hvalue. left.
Qed.

Lemma eval_instruction_mono c c' value value' d i v :
  (∀ x xi, find_instruction c x = Some xi → find_instruction c' x = Some xi) →
  (∀ d' x w, value d' x = Some w → value' d' x = Some w) →
  step c value d i = Some v →
  step c' value' d i = Some v.
Proof.
  intros Hc Hvalue. apply eval_instruction_local.
  - intros x xi _ Hx. exists xi. split; [by apply Hc|done].
  - intros d' x w _. apply Hvalue.
Qed.

(** More fuel and more instructions do not change a value. *)
Lemma eval_mono c c' fuel fuel' d h v :
  (∀ x xi, find_instruction c x = Some xi → find_instruction c' x = Some xi) →
  (fuel ≤ fuel')%nat →
  value_at fuel c d h = Some v → value_at fuel' c' d h = Some v.
Proof.
  intros Hc. revert fuel' d h v.
  induction fuel as [|fuel IH]; intros fuel' d h v Hfuel; [done|].
  destruct fuel' as [|fuel']; [lia|]. simpl.
  destruct (find_instruction c h) as [i|] eqn:Hi; [|done].
  rewrite (Hc _ _ Hi). simpl. apply eval_instruction_mono; [done|].
  intros d' x w. apply IH. lia.
Qed.

Lemma eval_Some fuel c d h v :
  value_at fuel c d h = Some v →
  ∃ fuel' i, fuel = S fuel' ∧ find_instruction c h = Some i
             ∧ step c (value_at fuel' c) d i = Some v.
Proof.
  destruct fuel as [|fuel']; [done|]. simpl.
  destruct (find_instruction c h) as [i|]; [|done]. simpl. eauto.
Qed.

Lemma elementwise_Some op value i v :
  elementwise op value i = Some v →
  ∃ x y a b, operands i = [x; y] ∧ value x = Some a ∧ value y = Some b
             ∧ v = zip_with op a b.
Proof.
  unfold elementwise. destruct (operands i) as [|x [|y [|]]]; try done.
  destruct (value x) as [a|] eqn:Ha; [|done].
  destruct (value y) as [b|] eqn:Hb; [|done].
  intros [= <-]. by exists x, y, a, b.
Qed.

(** ** The offset subgraph computes what the analyzer reads off it *)

Variable ar : HloInstruction.
Variable c : HloComputation.
Variable d : Device.

Lemma eval_scalar_constant y n fuel w :
  scalar_constant c y = Some n → value_at fuel c d y = Some w → w = [n].
Proof.
  unfold scalar_constant. intros Hn Hw.
  apply eval_Some in Hw as (fuel' & i & -> & Hi & Hw). rewrite Hi in Hn.
  simpl in Hn. destruct (bool_decide (opcode i = kConstant)) eqn:Hop; [|done].
  apply bool_decide_eq_true in Hop. simpl in Hn.
  unfold eval_instruction in Hw. rewrite Hop in Hw. injection Hw as <-.
  destruct (is_scalar i); [|done]. by destruct (literal i) as [|? [|]]; simplify_eq.
Qed.

Lemma eval_plain_index i k value w :
  (∀ x v, value d x = Some v → ∃ fuel, value_at fuel c d x = Some v) →
  plain_index config ar c i = Some k →
  step c value d i = Some w →
  w = [index_value config k d].
Proof.
  intros Hvalue. unfold plain_index, eval_instruction.
  destruct (opcode i) eqn:Hop; try done.
  - (* the global device id *)
    unfold global_index, find_opcode. intros Hk Hw.
    apply elementwise_Some in Hw as (scaled & pid & a & b & Hops & Ha & Hb & ->).
    rewrite Hops in Hk.
    destruct (find_instruction c scaled) as [m|] eqn:Hm; [|done]. simpl in Hk.
    destruct (bool_decide (opcode m = kMultiply)) eqn:Hmop; [|done].
    apply bool_decide_eq_true in Hmop. simpl in Hk.
    destruct (find_instruction c pid) as [p|] eqn:Hp; [|done]. simpl in Hk.
    destruct (bool_decide (opcode p = kPartitionId)) eqn:Hpop; [|done].
    apply bool_decide_eq_true in Hpop. simpl in Hk.
    destruct (operands m) as [|rid [|count [|]]] eqn:Hmops; try done.
    destruct (find_instruction c rid) as [r|] eqn:Hr; [|done]. simpl in Hk.
    destruct (bool_decide (opcode r = kReplicaId)) eqn:Hrop; [|done].
    apply bool_decide_eq_true in Hrop. simpl in Hk.
    destruct (scalar_constant c count) as [n|] eqn:Hn; [|done]. simpl in Hk.
    destruct (bool_decide (n = num_partitions config)) eqn:Hcount; [|done].
    apply bool_decide_eq_true in Hcount. subst n.
    destruct (_ && _); [|done]. injection Hk as <-.
    apply Hvalue in Ha as [fa Ha], Hb as [fb Hb].
    apply eval_Some in Ha as (fa' & m' & -> & Hm' & Ha).
    apply eval_Some in Hb as (fb' & p' & -> & Hp' & Hb).
    simplify_eq. unfold eval_instruction in Ha, Hb.
    rewrite Hmop in Ha. rewrite Hpop in Hb. injection Hb as <-.
    apply elementwise_Some in Ha as (rid' & count' & a' & b' & Hops' & Ha' & Hb' & ->).
    rewrite Hmops in Hops'. injection Hops' as <- <-.
    apply (eval_scalar_constant _ _ _ _ Hn) in Hb' as ->.
    apply eval_Some in Ha' as (fr & r' & -> & Hr' & Ha').
    simplify_eq. unfold eval_instruction in Ha'. rewrite Hrop in Ha'.
    by injection Ha' as <-.
  - by intros [= <-] [= <-].
  - by intros [= <-] [= <-].
Qed.

Lemma eval_device_index h k fuel w :
  device_index config ar c h = Some k → value_at fuel c d h = Some w →
  w = [index_value config k d].
Proof.
  unfold device_index. intros Hk Hw.
  apply eval_Some in Hw as (fuel' & i & -> & Hi & Hw). rewrite Hi in Hk.
  simpl in Hk.
  assert (∀ x v, value_at fuel' c d x = Some v →
                 ∃ fuel, value_at fuel c d x = Some v) as Hvalue by eauto.
  destruct (decide (opcode i = kConvert)) as [Hop|Hop].
  - rewrite Hop in Hk. unfold eval_instruction in Hw. rewrite Hop in Hw.
    destruct (operands i) as [|x [|]]; try done.
    apply eval_Some in Hw as (fuel & xi & -> & Hxi & Hw). rewrite Hxi in Hk.
    simpl in Hk. eapply eval_plain_index; [|exact Hk|exact Hw]. eauto.
  - eapply eval_plain_index; [exact Hvalue| |exact Hw].
    by destruct (opcode i).
Qed.

Lemma take_1_drop {A : Type} (l : list A) k x :
  l !! k = Some x → take 1 (drop k l) = [x].
Proof. intros H. by rewrite (drop_S _ _ _ H). Qed.

Lemma length_iota n : length (iota n) = Z.to_nat n.
Proof. unfold iota. by rewrite length_map, length_seq. Qed.

Lemma eval_table_of table t fuel w :
  table_of c table = Some t → value_at fuel c d table = Some w →
  ∃ ti, find_instruction c table = Some ti ∧ w = t
        ∧ sizes (shape ti) = [length t].
Proof.
  unfold table_of. intros Ht Hw.
  apply eval_Some in Hw as (fuel' & ti & -> & Hti & Hw). rewrite Hti in Ht.
  simpl in Ht. exists ti. split; [done|].
  unfold eval_instruction in Hw. unfold sizes.
  destruct (dimensions (shape ti)) as [|n [|]] eqn:Hdims; try done.
  destruct (bool_decide (opcode ti = kConstant)) eqn:Hconst.
  - apply bool_decide_eq_true in Hconst. rewrite Hconst in Hw.
    destruct (bool_decide (_ = n)) eqn:Hlen; [|done].
    apply bool_decide_eq_true in Hlen. simplify_eq. split; [done|].
    simpl. f_equal. lia.
  - destruct (bool_decide (opcode ti = kIota)) eqn:Hiota; [|done].
    apply bool_decide_eq_true in Hiota. rewrite Hiota in Hw.
    simplify_eq. split; [done|]. simpl. by rewrite length_iota.
Qed.

Lemma eval_through_reshape h fuel w :
  value_at fuel c d h = Some w →
  ∃ fuel', value_at fuel' c d (through_reshape c h) = Some w.
Proof.
  intros Hw. unfold through_reshape.
  destruct (find_instruction c h) as [i|] eqn:Hi; [|eauto].
  destruct (bool_decide (opcode i = kReshape) && is_scalar i) eqn:Hre; [|eauto].
  apply andb_true_iff in Hre as [Hop _]. apply bool_decide_eq_true in Hop.
  destruct (operands i) as [|x [|]] eqn:Hops; eauto.
  apply eval_Some in Hw as (fuel' & i' & -> & Hi' & Hw). simplify_eq.
  unfold eval_instruction in Hw. rewrite Hop, Hops in Hw. eauto.
Qed.

(** A table lookup reads the entry at the index, clamped to the table. *)
Lemma eval_table_lookup h t index fuel w :
  table_lookup c h = Some (t, index) → value_at fuel c d h = Some w →
  ∃ fuel' iv, value_at fuel' c d index = Some [iv]
              ∧ w = take 1 (drop (clamp iv (length t) 1) t).
Proof.
  unfold table_lookup, table_slice. intros Ht Hw.
  apply eval_through_reshape in Hw as [fuel1 Hw].
  apply eval_Some in Hw as (fuel' & i & -> & Hi & Hw). rewrite Hi in Ht.
  simpl in Ht.
  destruct (bool_decide (opcode i = kDynamicSlice) && _) eqn:Hds; [|done].
  apply andb_true_iff in Hds as [Hop Hdims].
  apply bool_decide_eq_true in Hop, Hdims.
  destruct (operands i) as [|table [|index' [|]]] eqn:Hops; try done.
  destruct (table_of c table) as [t'|] eqn:Htable; [|done].
  injection Ht as -> ->.
  unfold eval_instruction in Hw. rewrite Hop, Hops in Hw.
  destruct (find_instruction c table) as [ti|] eqn:Hti; [|done]. simpl in Hw.
  destruct (value_at fuel' c d table) as [data|] eqn:Hdata; [|done].
  simpl in Hw.
  destruct (value_at fuel' c d index) as [iw|] eqn:Hindex; [|done].
  simpl in Hw. destruct iw as [|iv [|]]; try done. simpl in Hw.
  injection Hw as <-. exists fuel', iv. split; [done|].
  destruct (eval_table_of _ _ _ _ Htable Hdata) as (ti' & Hti' & -> & Hsizes).
  simplify_eq. rewrite Hsizes. unfold sizes. rewrite Hdims. simpl.
  rewrite app_nil_r, Nat.mul_1_r, Nat.add_0_r. by rewrite take_take.
Qed.

Lemma lookup_clamped (t : list Z) i o :
  0 ≤ i → t !! Z.to_nat i = Some o →
  take 1 (drop (clamp i (length t) 1) t) = [o].
Proof.
  intros Hi Ho. apply take_1_drop.
  pose proof (lookup_lt_Some _ _ _ Ho) as Hlt.
  replace (clamp i (length t) 1) with (Z.to_nat i); [done|]. unfold clamp. lia.
Qed.

Lemma eval_offset_TableLookup t e o :
  eval_offset config (TableLookup t e) d = Some o →
  ∃ i, eval_offset config e d = Some i ∧ 0 ≤ i ∧ t !! Z.to_nat i = Some o.
Proof.
  simpl. destruct (eval_offset config e d) as [i|]; [|done]. simpl.
  destruct (0 <=? i) eqn:Hi; [|done]. exists i. split_and!; [done|lia|done].
Qed.

Lemma eval_lookup_chain group_count h e fuel w o :
  lookup_chain config ar group_count c h = Some e →
  value_at fuel c d h = Some w →
  eval_offset config e d = Some o → w = [o].
Proof.
  unfold lookup_chain. intros He Hw Ho.
  destruct (device_index config ar c h) as [k|] eqn:Hk.
  { injection He as <-. injection Ho as <-. by eapply eval_device_index. }
  destruct (table_lookup c h) as [[t index]|] eqn:Ht; [|done]. simpl in He.
  destruct (eval_table_lookup _ _ _ _ _ Ht Hw) as (fuel1 & iv & Hindex & ->).
  destruct (device_index config ar c index) as [k|] eqn:Hk1.
  { destruct (bool_decide _); [|done]. injection He as <-.
    apply eval_offset_TableLookup in Ho as (i & Hi & Hpos & Ho). injection Hi as <-.
    apply (eval_device_index _ _ _ _ Hk1) in Hindex. injection Hindex as ->.
    by apply lookup_clamped. }
  destruct (table_lookup c index) as [[group_table index']|] eqn:Ht2; [|done].
  simpl in He.
  destruct (device_index config ar c index') as [k|] eqn:Hk2; [|done].
  simpl in He. destruct (_ && _); [|done]. injection He as <-.
  apply eval_offset_TableLookup in Ho as (i & Hi & Hpos & Ho).
  apply eval_offset_TableLookup in Hi as (i' & Hi' & Hpos' & Hi). injection Hi' as <-.
  destruct (eval_table_lookup _ _ _ _ _ Ht2 Hindex) as (fuel2 & iv' & Hindex' & Hiv).
  apply (eval_device_index _ _ _ _ Hk2) in Hindex'. injection Hindex' as ->.
  rewrite (lookup_clamped _ _ _ Hpos' Hi) in Hiv. injection Hiv as ->.
  by apply lookup_clamped.
Qed.

(** The offset subgraph evaluates to what [eval_offset] gives for the
    expression the analyzer reads off it. *)
Lemma eval_offset_expr group_count shard h e fuel w o :
  offset_expr config ar group_count shard c h = Some e →
  value_at fuel c d h = Some w →
  eval_offset config e d = Some o → w = [o].
Proof.
  unfold offset_expr. intros He Hw Ho.
  destruct (find_instruction c h) as [i|] eqn:Hi; [|done].
  destruct (bool_decide (opcode i = kMultiply)) eqn:Hop.
  - apply bool_decide_eq_true in Hop.
    apply eval_Some in Hw as (fuel' & i' & -> & Hi' & Hw). simplify_eq.
    unfold eval_instruction in Hw. rewrite Hop in Hw.
    apply elementwise_Some in Hw as (x & y & a & b & Hops & Ha & Hb & ->).
    rewrite Hops in He.
    destruct (scalar_constant c y) as [factor|] eqn:Hy.
    + destruct (bool_decide (factor = shard)); [|done].
      destruct (lookup_chain config ar group_count c x) as [e'|] eqn:He'; [|done].
      injection He as <-. simpl in Ho.
      destruct (eval_offset config e' d) as [o'|] eqn:Ho'; [|done].
      injection Ho as <-.
      apply (eval_scalar_constant _ _ _ _ Hy) in Hb as ->.
      by rewrite (eval_lookup_chain _ _ _ _ _ _ He' Ha Ho').
    + destruct (scalar_constant c x) as [factor|] eqn:Hx; [|done].
      destruct (bool_decide (factor = shard)); [|done].
      destruct (lookup_chain config ar group_count c y) as [e'|] eqn:He'; [|done].
      injection He as <-. simpl in Ho.
      destruct (eval_offset config e' d) as [o'|] eqn:Ho'; [|done].
      injection Ho as <-.
      apply (eval_scalar_constant _ _ _ _ Hx) in Ha as ->.
      rewrite (eval_lookup_chain _ _ _ _ _ _ He' Hb Ho'). simpl.
      by rewrite Z.mul_comm.
  - destruct (lookup_chain config ar group_count c h) as [e'|] eqn:He'; [|done].
    eapply eval_lookup_chain; [exact He'|exact Hw|].
    by destruct e'; simplify_eq.
Qed.

End Evaluation.

(** ** Groups and ranks *)

Lemma index_of_lt d g rank : index_of d g = Some rank → (rank < length g)%nat.
Proof.
  revert rank. induction g as [|d' g IH]; intros rank; [done|]. simpl.
  destruct (decide (d' = d)); [intros [= <-]; lia|].
  destruct (index_of d g) as [k|]; [|done]. intros [= <-].
  specialize (IH k eq_refl). lia.
Qed.

Lemma groupSizeAndCount_length groups size count g :
  groupSizeAndCount groups = Some (size, count) → g ∈ groups → length g = size.
Proof.
  unfold groupSizeAndCount. destruct groups as [|g0 rest]; [done|].
  destruct (forallb _ rest) eqn:Hall; [|done]. intros [= <- _] Hg.
  apply elem_of_cons in Hg as [->|Hg]; [done|].
  rewrite forallb_forall in Hall. apply list_elem_of_In, Hall in Hg.
  by apply bool_decide_eq_true in Hg.
Qed.

Lemma rankOf_Some d groups ordinal rank :
  rankOf d groups = Some (ordinal, rank) →
  ∃ g, groups !! ordinal = Some g ∧ (rank < length g)%nat.
Proof.
  unfold rankOf. destruct (groupSizeAndCount groups); [|done].
  destruct (filter _ _) as [|[ordinal' g] [|]] eqn:Hfilter; try done.
  destruct (index_of d g) as [k|] eqn:Hk; [|done]. intros [= <- <-].
  exists g. split; [|by eapply index_of_lt].
  assert ((ordinal', g) ∈ filter (λ og : nat * list Device, d ∈ og.2)
                                 (imap pair groups)) as Hin
    by (rewrite Hfilter; left).
  apply list_elem_of_filter in Hin as [_ Hin].
  apply elem_of_lookup_imap in Hin as (k' & g' & [= -> ->] & Hg). done.
Qed.

Lemma offsets_match_device config ar shard e d :
  offsets_match config ar shard e = true → d ∈ devices config →
  ∃ ordinal rank,
    rankOf d (device_groups config ar) = Some (ordinal, rank)
    ∧ eval_offset config e d = Some (Z.of_nat rank * shard).
Proof.
  unfold offsets_match. rewrite forallb_forall. intros Hall Hd.
  apply list_elem_of_In, Hall in Hd.
  destruct (rankOf d _) as [[ordinal rank]|]; [|done].
  destruct (eval_offset config e d) as [o|]; [|done].
  apply bool_decide_eq_true in Hd as ->. eauto.
Qed.

Lemma device_groups_scatter config ar ar_spec next :
  device_groups config
    (scatter_instruction ar ar_spec (scatter_channel ar next).1)
  = device_groups config ar.
Proof.
  unfold device_groups, scatter_channel, scatter_instruction, listed_groups.
  simpl. by destruct (channel_id ar).
Qed.

(** ** The shapes of a match *)

Lemma scatter_sizes ar i n count shard ds_handle channel :
  dimensions (shape ar) !! i = Some n →
  (n `quot` count) = shard →
  sizes (shape (scatter_instruction ar (mkSpec (Z.of_nat i) count ds_handle) channel))
  = map Z.to_nat (take i (dimensions (shape ar)))
    ++ Z.to_nat shard :: map Z.to_nat (drop (S i) (dimensions (shape ar))).
Proof.
  intros Hn <-. unfold scatter_instruction, sizes, dimensions_at. simpl.
  assert ((0 <=? Z.of_nat i) = true) as -> by (apply Z.leb_le; lia).
  rewrite Nat2Z.id, Hn. simpl.
  rewrite insert_take_drop by (by eapply lookup_lt_Some).
  by rewrite map_app.
Qed.

(** ** The value of the original and of the replacement *)

Section Soundness.
Variable config : HloModuleConfig.
Variable parameters : Device → Z → list Z.
Variable reduction : option nat → Z → Z → Z.

Local Abbreviation value_at := (eval config parameters reduction).
Local Abbreviation reduced := (all_reduce_value config reduction).

Lemma eval_S fuel c d h :
  value_at (S fuel) c d h
  = find_instruction c h
    ≫= eval_instruction config parameters reduction c (value_at fuel c) d.
Proof. done. Qed.

Lemma eval_all_reduce fuel c d h ar data :
  find_instruction c h = Some ar → opcode ar = kAllReduce →
  value_at fuel c d h = Some data →
  ∃ fuel' rank participants,
    fuel = S fuel'
    ∧ reduced ar d (λ d', combined (reduction (to_apply ar)) (value_at fuel' c d') ar)
      = Some (rank, participants, data).
Proof.
  intros Har Hop Hdata.
  apply eval_Some in Hdata as (fuel' & ar' & -> & Har' & Hdata). simplify_eq.
  unfold eval_instruction in Hdata. rewrite Hop in Hdata.
  destruct (all_reduce_value _ _ _ _ _) as [[[rank participants] data']|] eqn:Hr;
    [|done].
  injection Hdata as <-. by exists fuel', rank, participants.
Qed.

Lemma all_reduce_value_Some i d f rank participants data :
  reduced i d f = Some (rank, participants, data) →
  ∃ ordinal g, rankOf d (device_groups config i) = Some (ordinal, rank)
               ∧ device_groups config i !! ordinal = Some g
               ∧ participants = length g.
Proof.
  unfold all_reduce_value.
  destruct (rankOf d _) as [[ordinal rank']|] eqn:Hrank; [|done]. simpl.
  destruct (_ !! ordinal) as [g|] eqn:Hg; [|done]. simpl.
  destruct (mapM f g) as [[|v values]|]; try done. simpl.
  intros [= <- <- <-]. eauto.
Qed.

Lemma all_reduce_value_scatter ar ar_spec next d f :
  reduced (scatter_instruction ar ar_spec (scatter_channel ar next).1) d f
  = reduced ar d f.
Proof.
  unfold all_reduce_value. by rewrite device_groups_scatter.
Qed.

End Soundness.

Lemma middle_parts {A : Type} (pre post : list A) x i :
  length pre = i →
  (pre ++ x :: post) !! i = Some x
  ∧ take i (pre ++ x :: post) = pre
  ∧ drop (S i) (pre ++ x :: post) = post.
Proof.
  intros <-. split_and!.
  - by apply list_lookup_middle.
  - by rewrite take_app_length.
  - rewrite cons_middle, app_assoc. apply drop_app_length'.
    rewrite length_app. simpl. lia.
Qed.

Lemma shapes_valid_find c h i :
  shapes_valid c → find_instruction c h = Some i →
  Forall (λ n, 0 ≤ n) (dimensions (shape i)).
Proof. intros Hvalid Hi. eapply Hvalid. by apply find_instruction_Some. Qed.

Lemma element_count_part (l : list Z) k :
  Forall (λ n, 0 ≤ n) l →
  element_count (map Z.to_nat (take k l)) = Z.to_nat (product (take k l))
  ∧ element_count (map Z.to_nat (drop k l)) = Z.to_nat (product (drop k l)).
Proof.
  intros Hl. split; apply element_count_product.
  - by apply Forall_take.
  - by apply Forall_drop.
Qed.

(** ** What a value depends on *)

Lemma reaches_trans c x y z : reaches c x y → reaches c y z → reaches c x z.
Proof.
  induction 1 as [x o Hxo|x o y Hxo _ IH]; intros Hyz.
  - by eapply reaches_through.
  - eapply reaches_through; [done|]. by apply IH.
Qed.

Section Dependencies.
Variable config : HloModuleConfig.
Variable parameters : Device → Z → list Z.
Variable reduction : option nat → Z → Z → Z.

Local Abbreviation value_at := (eval config parameters reduction).
Local Abbreviation step := (eval_instruction config parameters reduction).
Local Abbreviation reduced := (all_reduce_value config reduction).

Lemma all_reduce_value_member i d (f : Device → option (list Z)) r :
  reduced i d f = Some r → ∃ d' w, f d' = Some w.
Proof.
  unfold all_reduce_value.
  destruct (rankOf d _) as [[ordinal rank]|]; [|done]. simpl.
  destruct (_ !! ordinal) as [g|]; [|done]. simpl.
  destruct (mapM f g) as [[|v values]|] eqn:Hm; try done. intros _.
  apply mapM_Some in Hm. inversion Hm; subst. eauto.
Qed.

Lemma combined_operand f (value : handle → option (list Z)) i v o :
  combined f value i = Some v → o ∈ operands i → ∃ w, value o = Some w.
Proof.
  unfold combined.
  destruct (mapM value (operands i)) as [values|] eqn:Hm; [|done]. intros _ Ho.
  apply mapM_Some in Hm. apply list_elem_of_lookup_1 in Ho as [k Hk].
  destruct (Forall2_lookup_l _ _ _ _ _ Hm Hk) as (w & _ & Hw). eauto.
Qed.

(** An instruction has a value only when the operands it is made of have
    one. *)
Lemma eval_instruction_needs c value d i v o :
  step c value d i = Some v → o ∈ evaluated_operands i →
  ∃ d' w, value d' o = Some w.
Proof.
  unfold eval_instruction, evaluated_operands.
  destruct (opcode i) eqn:Hop; intros Hv Ho; try by apply elem_of_nil in Ho.
  - apply elementwise_Some in Hv as (x & y & a & b & Hops & Ha & Hb & _).
    rewrite Hops in Ho. apply elem_of_cons in Ho as [->|Ho]; [eauto|].
    apply list_elem_of_singleton in Ho as ->. eauto.
  - destruct (reduced i d _) as [r|] eqn:Hr; [|done].
    apply all_reduce_value_member in Hr as (d' & w & Hw).
    destruct (combined_operand _ _ _ _ o Hw Ho) as [w' Hw']. eauto.
  - destruct (reduced i d _) as [r|] eqn:Hr; [|done].
    apply all_reduce_value_member in Hr as (d' & w & Hw).
    destruct (combined_operand _ _ _ _ o Hw Ho) as [w' Hw']. eauto.
  - destruct (operands i) as [|x [|]]; try done.
    apply list_elem_of_singleton in Ho as ->. eauto.
  - destruct (operands i) as [|x starts]; [done|].
    destruct (find_instruction c x) as [xi|]; [|done]. simpl in Hv.
    destruct (value d x) as [data|] eqn:Hdata; [|done]. simpl in Hv.
    destruct (mapM _ starts) as [start_values|] eqn:Hstarts; [|done].
    apply elem_of_cons in Ho as [->|Ho]; [eauto|].
    apply mapM_Some in Hstarts. apply list_elem_of_lookup_1 in Ho as [k Hk].
    destruct (Forall2_lookup_l _ _ _ _ _ Hstarts Hk) as (b & _ & Hb).
    destruct (value d o) as [w|] eqn:Hw; [eauto|done].
  - apply elementwise_Some in Hv as (x & y & a & b & Hops & Ha & Hb & _).
    rewrite Hops in Ho. apply elem_of_cons in Ho as [->|Ho]; [eauto|].
    apply list_elem_of_singleton in Ho as ->. eauto.
  - destruct (operands i) as [|x [|]]; try done.
    apply list_elem_of_singleton in Ho as ->. eauto.
Qed.

Lemma needs_eval c y o fuel d w :
  needs c y o → value_at fuel c d y = Some w →
  ∃ fuel' d' w', fuel = S fuel' ∧ value_at fuel' c d' o = Some w'.
Proof.
  intros (i & Hi & Ho) Hw.
  apply eval_Some in Hw as (fuel' & i' & -> & Hi' & Hw). simplify_eq.
  destruct (eval_instruction_needs _ _ _ _ _ o Hw Ho) as (d' & w' & Hw').
  eauto.
Qed.

Lemma reaches_eval c y z :
  reaches c y z →
  ∀ fuel d w, value_at fuel c d y = Some w →
              ∃ fuel' d' w', (fuel' < fuel)%nat ∧ value_at fuel' c d' z = Some w'.
Proof.
  induction 1 as [y o Hyo|y o z Hyo _ IH]; intros fuel d w Hw.
  - destruct (needs_eval c y o fuel d w Hyo Hw) as (fuel' & d' & w' & -> & Hw').
    exists fuel', d', w'. split; [lia|done].
  - destruct (needs_eval c y o fuel d w Hyo Hw) as (fuel' & d' & w' & -> & Hw').
    destruct (IH fuel' d' w' Hw') as (fuel2 & d2 & w2 & Hlt & Hw2).
    exists fuel2, d2, w2. split; [lia|done].
Qed.

(** What has a value does not depend on itself. *)
Lemma no_cycle c y fuel d w :
  reaches c y y → value_at fuel c d y = Some w → False.
Proof.
  intros Hcycle. revert d w.
  induction fuel as [fuel IH] using lt_wf_ind. intros d w Hw.
  destruct (reaches_eval c y y Hcycle fuel d w Hw) as (fuel' & d' & w' & Hlt & Hw').
  by apply (IH fuel' Hlt d' w').
Qed.

(** The value of an instruction of which the uses of [old] have moved to
    [new], when it is not made of the value of [old]. *)
Lemma eval_instruction_renamed c c' value value' d i old new v :
  old ∉ evaluated_operands i →
  (∀ x xi, x ∈ evaluated_operands i → find_instruction c x = Some xi →
           ∃ xi', find_instruction c' x = Some xi' ∧ shape xi' = shape xi) →
  (∀ d' x w, x ∈ evaluated_operands i → value d' x = Some w →
             value' d' x = Some w) →
  step c value d i = Some v →
  step c' value' d (replace_operand old new i) = Some v.
Proof.
  unfold evaluated_operands.
  destruct (opcode i) eqn:Hop; intros Hold Hc Hvalue Hv;
    try (rewrite replace_operand_unused by done;
         by eapply eval_instruction_local);
    unfold eval_instruction in *; simpl; rewrite Hop in *; done.
Qed.

End Dependencies.

(** ** The value of the replacement in the rewritten computation *)

Section Rewritten.
Variable config : HloModuleConfig.
Variable parameters : Device → Z → list Z.
Variable reduction : option nat → Z → Z → Z.
Variables (c : HloComputation) (h : handle) (ar : HloInstruction)
          (ar_spec : AllReduceScatterSpec) (ds : HloInstruction) (next : Z).

Local Abbreviation value_at := (eval config parameters reduction).
Local Abbreviation reduced := (all_reduce_value config reduction).
Local Abbreviation channel := ((scatter_channel ar next).1).
Local Abbreviation after := (rewritten c h ar ar_spec ds channel).
Local Abbreviation result := ((add_replacement c h ar ar_spec ds channel).1).
Local Abbreviation removed x :=
  (x = h ∨ x = dynamic_slice ar_spec ∨ intervening_reshape h ds = Some x).

Hypothesis Har : find_instruction c h = Some ar.
Hypothesis Hop : opcode ar = kAllReduce.
Hypothesis Hds : find_instruction c (dynamic_slice ar_spec) = Some ds.
Hypothesis Hsliced : ∀ o, operand ds 0 = Some o → o ∈ handles c.
Hypothesis Hchain : ∀ z, removed z → z = h ∨ reaches c z h.

Lemma removed_old z : removed z → z ∈ handles c.
Proof.
  intros [->|[->|Hz]].
  - apply find_instruction_handles. eauto.
  - apply find_instruction_handles. eauto.
  - unfold intervening_reshape in Hz.
    destruct (operand ds 0) as [o|] eqn:Ho; [|done].
    case_decide; [|done]. injection Hz as <-. by apply Hsliced.
Qed.

Lemma find_after_old y yi :
  ¬ removed y → find_instruction c y = Some yi →
  find_instruction after y
  = Some (replace_operand (dynamic_slice ar_spec) result yi).
Proof.
  intros Hy Hyi. rewrite find_rewritten, decide_False by done.
  rewrite find_add_replacement_old, Hyi; [done|].
  apply find_instruction_handles. eauto.
Qed.

(** What does not depend on the instructions that go has the value it had. *)
Lemma eval_after fuel :
  ∀ d y w,
    ¬ removed y → (∀ z, removed z → ¬ reaches c y z) →
    value_at fuel c d y = Some w → value_at fuel after d y = Some w.
Proof.
  induction fuel as [|fuel IH]; intros d y w Hy Hfree Hw; [done|].
  apply eval_Some in Hw as (fuel' & yi & [= <-] & Hyi & Hw).
  rewrite eval_S, (find_after_old y yi Hy Hyi). simpl.
  assert (∀ x, x ∈ evaluated_operands yi →
               ¬ removed x ∧ ∀ z, removed z → ¬ reaches c x z) as Hx.
  { intros x Hin. assert (needs c y x) as Hneeds by by exists yi.
    split.
    - intros Hrem. apply (Hfree x Hrem). by apply reaches_operand.
    - intros z Hz Hxz. apply (Hfree z Hz). by eapply reaches_through. }
  eapply eval_instruction_renamed; [| | |exact Hw].
  - intros Hin. destruct (Hx _ Hin) as [Hrem _]. apply Hrem. auto.
  - intros x xi Hin Hxi. destruct (Hx _ Hin) as [Hrem _].
    rewrite (find_after_old x xi Hrem Hxi). eauto.
  - intros d' x w' Hin Hw'. destruct (Hx _ Hin) as [Hrem Hreach].
    by apply IH.
Qed.

(** The operands of the all-reduce do not depend on what goes, when the
    all-reduce has a value. *)
Lemma operand_upstream fuel d data x :
  value_at fuel c d h = Some data → x ∈ operands ar →
  ¬ removed x ∧ ∀ z, removed z → ¬ reaches c x z.
Proof.
  intros Hdata Hin.
  assert (needs c h x) as Hneeds.
  { exists ar. split; [done|]. unfold evaluated_operands. by rewrite Hop. }
  split.
  - intros Hrem. apply (no_cycle config parameters reduction c h fuel d data);
      [|done].
    destruct (Hchain x Hrem) as [->|Hxh]; [by apply reaches_operand|].
    by eapply reaches_through.
  - intros z Hz Hxz.
    apply (no_cycle config parameters reduction c h fuel d data); [|done].
    eapply reaches_through; [done|].
    destruct (Hchain z Hz) as [->|Hzh]; [done|]. by eapply reaches_trans.
Qed.

(** The value of what replaces the slice - the new reduce-scatter, or the new
    reshape of it - in the computation the rewrite leaves, from the value of
    the all-reduce in the computation it found. *)
Lemma eval_replacement d fuel fuel' rank participants data size :
  let scatter := scatter_instruction ar ar_spec channel in
  let out := sizes (shape scatter) in
  let dim := Z.to_nat (split_dim ar_spec) in
  reduced ar d (λ d', combined (reduction (to_apply ar)) (value_at fuel' c d') ar)
  = Some (rank, participants, data) →
  (fuel' < fuel)%nat →
  out !! dim = Some size →
  find_instruction after (fresh_handle c) = Some scatter
  ∧ match intervening_reshape h ds with
    | Some _ =>
      find_instruction after (replacement c h ds)
      = Some (CreateReshape (shape ds) (fresh_handle c))
    | None => replacement c h ds = fresh_handle c
    end
  ∧ value_at (S fuel) after d (replacement c h ds)
    = Some (shard_of (element_count (take dim out)) (size * participants)
                     (element_count (drop (S dim) out)) (rank * size) size data).
Proof.
  intros scatter out dim Hreduced Hfuel Hsize.
  assert (value_at (S fuel') c d h = Some data) as Hdata.
  { rewrite eval_S, Har. simpl. unfold eval_instruction.
    rewrite Hop, Hreduced. done. }
  assert (∀ x, x ∈ operands ar →
               ¬ removed x ∧ ∀ z, removed z → ¬ reaches c x z) as Hup.
  { intros x. by apply (operand_upstream (S fuel') d data). }
  assert (∀ z, removed z → z ≠ fresh_handle c ∧ z ≠ S (fresh_handle c)) as Hnew.
  { intros z Hz. by apply old_not_fresh, removed_old. }
  assert (find_instruction after (fresh_handle c) = Some scatter) as Hfind.
  { rewrite find_rewritten, decide_False.
    - rewrite find_add_replacement_scatter. simpl. f_equal.
      apply replace_operand_unused. intros Hin.
      destruct (Hup (dynamic_slice ar_spec) Hin) as [Hrem _]. apply Hrem. auto.
    - intros Hz. by destruct (Hnew _ Hz). }
  assert (∀ fuel1, (fuel' ≤ fuel1)%nat →
            eval_instruction config parameters reduction after
              (value_at fuel1 after) d scatter
            = Some (shard_of (element_count (take dim out)) (size * participants)
                      (element_count (drop (S dim) out)) (rank * size) size data))
    as Hscatter.
  { intros fuel1 Hfuel1. unfold eval_instruction.
    change (opcode scatter) with kAllReduceScatter. cbv iota.
    unfold scatter. rewrite all_reduce_value_scatter.
    erewrite all_reduce_value_mono; [| |exact Hreduced]; last first.
    { intros d' w.
      change (combined (reduction (to_apply (scatter_instruction ar ar_spec channel)))
                (value_at fuel1 after d') (scatter_instruction ar ar_spec channel))
        with (combined (reduction (to_apply ar)) (value_at fuel1 after d') ar).
      apply combined_mono. intros x w' Hin Hw'.
      destruct (Hup x Hin) as [Hrem Hreach].
      eapply (eval_mono config parameters reduction after after fuel');
        [done|done|]. by apply eval_after. }
    unfold out, dim, scatter, scatter_instruction in *. simpl in *.
    by rewrite Hsize. }
  split; [done|]. unfold replacement.
  destruct (intervening_reshape h ds) as [r|] eqn:Hr.
  - assert (find_instruction after (S (fresh_handle c))
            = Some (CreateReshape (shape ds) (fresh_handle c))) as Hreshape.
    { rewrite find_rewritten, decide_False.
      - rewrite (find_add_replacement_reshape _ _ _ _ _ _ r Hr). simpl. f_equal.
        apply replace_operand_unused. simpl. intros Hin.
        apply list_elem_of_singleton in Hin.
        destruct (Hnew (dynamic_slice ar_spec)) as [Hne _]; [auto|done].
      - intros Hz. rewrite Hr in Hz. by destruct (Hnew _ Hz). }
    split; [done|].
    destruct fuel as [|fuel]; [lia|].
    rewrite eval_S, Hreshape. cbn -[eval rewritten fresh_handle].
    rewrite eval_S, Hfind. apply Hscatter. lia.
  - split; [done|]. rewrite eval_S, Hfind. apply Hscatter. lia.
Qed.

End Rewritten.

(** C1. For an all-reduce that the pass rewrites - the matcher accepts it and
    the step of [Run] on it returns - on every legal device: whatever value
    the dynamic slice of the original subgraph has in the computation the
    step found, the replacement has the same value in the computation the
    step leaves. The replacement is the new reduce-scatter, or the new
    reshape of it when the slice read a reshape. *)
Theorem rewrite_preserves_value
    (parameters : Device → Z → list Z) (reduction : option nat → Z → Z → Z)
    (cfg : HloModuleConfig) (s s' : LoopState) (h : handle)
    (ar : HloInstruction) (ar_spec : AllReduceScatterSpec) (ds : HloInstruction)
    (fuel : nat) (d : Device) (v : list Z) :
  let c := computation s in
  let c' := computation s' in
  find_instruction c h = Some ar →
  MatchAllReduceScatter c h (num_partitions cfg) (replica_count cfg) false true
  = Some ar_spec →
  find_instruction c (dynamic_slice ar_spec) = Some ds →
  RunOnInstruction MatchAllReduceScatter cfg h s = (OK, s') →
  shapes_valid c →
  d ∈ devices cfg →
  eval cfg parameters reduction fuel c d (dynamic_slice ar_spec) = Some v →
  find_instruction c' (fresh_handle c)
  = Some (scatter_instruction ar ar_spec
            (scatter_channel ar (next_channel_id s)).1)
  ∧ match intervening_reshape h ds with
    | Some _ =>
      find_instruction c' (replacement c h ds)
      = Some (CreateReshape (shape ds) (fresh_handle c))
    | None => replacement c h ds = fresh_handle c
    end
  ∧ eval cfg parameters reduction fuel c' d (replacement c h ds) = Some v.
Proof.
  intros c c' Har Hmatch Hds Hrun Hvalid Hd Hv.
  assert (mkConfig (num_partitions cfg) (replica_count cfg) = cfg) as Hcfg
    by by destruct cfg.
  pose proof (MatchAllReduceScatter_matched _ _ _ _ _ Hmatch) as Hm.
  rewrite Hcfg in Hm.
  destruct Hm as [ar' u src ds' user source ds_handle starts offset i j n
                        shard size count e Har' Hop Husers Hu Hchain Hds' Hsrc
                        Hdsop Hops Hlen1 Hlen2 Hdiff Hi Hn Hshard Hoffset Hpos
                        Hrem Hgroups Hsize He Hom].
  cbn [dynamic_slice] in Hds, Hv.
  assert (ar' = ar) as -> by congruence. assert (ds' = ds) as -> by congruence.
  clear Har' Hds'.
  (* the rank of the device *)
  destruct (offsets_match_device _ _ _ _ _ Hom Hd)
    as (ordinal & rank & Hrank & Horank).
  destruct (rankOf_Some _ _ _ _ Hrank) as (g & Hg & Hlt).
  pose proof (groupSizeAndCount_length _ _ _ g Hgroups
                (list_elem_of_lookup_2 _ _ _ Hg)) as Hlen.
  (* the value of the slice *)
  apply eval_Some in Hv as (fuel1 & ds' & -> & Hds' & Hv).
  assert (ds' = ds) as -> by congruence. clear Hds'.
  unfold eval_instruction in Hv. rewrite Hdsop, Hops, Hsrc in Hv. simpl in Hv.
  destruct (eval cfg parameters reduction fuel1 c d source) as [data|] eqn:Hdata;
    [|done].
  simpl in Hv.
  destruct (mapM _ starts) as [start_values|] eqn:Hstarts; [|done].
  simpl in Hv. injection Hv as <-.
  apply mapM_Some in Hstarts.
  pose proof Hstarts as Hlen3. apply Forall2_length in Hlen3.
  destruct (Forall2_lookup_l _ _ _ _ _ Hstarts Hoffset) as (start & Hstart & Hoff).
  destruct (eval cfg parameters reduction fuel1 c d offset) as [w|] eqn:Hw;
    [|done].
  simpl in Hoff.
  pose proof (eval_offset_expr cfg parameters reduction ar c d _ _ _ _ _ _ _
                He Hw Horank) as ->.
  simpl in Hoff. injection Hoff as <-.
  (* the shapes *)
  destruct (differing_dims_here _ _ _ Hdiff) as [Hj _].
  destruct (lookup_lt_is_Some_2 (dimensions (shape src)) j Hj) as [n' Hn'].
  destruct (differing_dims_split _ _ j n' shard Hlen2 Hdiff Hn' Hshard)
    as [Hsrcdims Hdsdims].
  pose proof (shapes_valid_find _ _ _ Hvalid Har) as Harvalid.
  pose proof (shapes_valid_find _ _ _ Hvalid Hsrc) as Hsrcvalid.
  assert (n' = n
          ∧ product (take i (dimensions (shape ar)))
            = product (take j (dimensions (shape src)))
          ∧ product (drop (S i) (dimensions (shape ar)))
            = product (drop (S j) (dimensions (shape src))))
    as (-> & Hpre & Hpost).
  { destruct (decide (source = h)) as [->|Hne].
    - injection Hi as <-. assert (src = ar) as -> by congruence.
      split; [congruence|done].
    - apply unmodified_dim_Some in Hi as (_ & Heq & ? & ?).
      split; [congruence|done]. }
  assert (0 ≤ n) as Hnpos.
  { rewrite Forall_lookup in Harvalid. by apply (Harvalid i). }
  pose proof (Z.quot_rem' n shard) as Hquot. rewrite Hrem in Hquot.
  set (participants := n `quot` shard) in *.
  assert ((rank < size)%nat) as Hrank_lt by lia.
  assert (Z.to_nat n = (Z.to_nat shard * size)%nat) as Hrows by nia.
  assert ((n `quot` participants) = shard) as Hshard_size.
  { transitivity ((shard * participants) `quot` participants);
      [f_equal; lia|apply Z.quot_mul; lia]. }
  (* the slice is a shard *)
  set (pre := map Z.to_nat (take j (dimensions (shape src)))).
  set (post := map Z.to_nat (drop (S j) (dimensions (shape src)))).
  assert (length pre = j) as Hprelen.
  { unfold pre. rewrite length_map, length_take. lia. }
  assert (sizes (shape src) = pre ++ Z.to_nat n :: post) as ->.
  { unfold sizes. rewrite Hsrcdims at 1. by rewrite map_app. }
  assert (sizes (shape ds) = pre ++ Z.to_nat shard :: post) as ->.
  { unfold sizes. rewrite Hdsdims at 1. by rewrite map_app. }
  rewrite (slice_dim pre post _ _ (Z.of_nat rank * shard)); last first.
  { rewrite Hrows. nia. }
  { by rewrite Hprelen. }
  { rewrite <- Hlen3, Hlen1. rewrite Hsrcdims at 1.
    rewrite !length_app. unfold pre, post. simpl.
    by rewrite !length_map. }
  replace (Z.of_nat rank * shard) with (Z.of_nat (rank * Z.to_nat shard)) by lia.
  rewrite clamp_inside by nia.
  (* the value of the all-reduce *)
  assert (∃ fuel' rank' participants',
            (fuel' < fuel1)%nat
            ∧ all_reduce_value cfg reduction ar d
                (λ d', combined (reduction (to_apply ar))
                         (eval cfg parameters reduction fuel' c d') ar)
              = Some (rank', participants', data))
    as (fuel' & rank' & participants' & Hfuel & Hreduced).
  { destruct (bool_decide (opcode u = kReshape) && bool_decide (operands u = [h]))
      eqn:Hre.
    - destruct Hchain as [_ ->].
      apply andb_true_iff in Hre as [Hre1 Hre2].
      apply bool_decide_eq_true in Hre1, Hre2.
      apply eval_Some in Hdata as (fuel2 & u' & -> & Hu' & Hdata).
      assert (u' = u) as -> by congruence.
      unfold eval_instruction in Hdata. rewrite Hre1, Hre2 in Hdata.
      destruct (eval_all_reduce cfg parameters reduction _ _ _ _ _ _ Har Hop Hdata)
        as (fuel' & rank' & participants' & -> & Hreduced).
      exists fuel', rank', participants'. split; [lia|done].
    - destruct Hchain as [_ ->].
      destruct (eval_all_reduce cfg parameters reduction _ _ _ _ _ _ Har Hop Hdata)
        as (fuel' & rank' & participants' & -> & Hreduced).
      exists fuel', rank', participants'. split; [lia|done]. }
  destruct (all_reduce_value_Some _ _ _ _ _ _ _ _ Hreduced)
    as (ordinal' & g' & Hrank' & Hg' & ->).
  assert (ordinal' = ordinal ∧ rank' = rank) as [-> ->] by (split; congruence).
  assert (g' = g) as -> by congruence. rewrite Hlen in Hreduced.
  (* the computation the step leaves *)
  assert (∀ o, operand ds 0 = Some o → o ∈ handles c) as Hsliced.
  { intros o Ho. unfold operand in Ho. rewrite Hops in Ho. injection Ho as <-.
    apply find_instruction_handles. eauto. }
  destruct (RunOnInstruction_rewrites MatchAllReduceScatter cfg s h ar _ ds
              Har Hop Hmatch Hds Hsliced s' Hrun) as (dim & _ & _ & _ & Hs').
  assert (∀ z, z = h ∨ z = ds_handle ∨ intervening_reshape h ds = Some z →
               z = h ∨ reaches c z h) as Hgone.
  { assert (needs c ds_handle source) as Hneeds.
    { exists ds. split; [done|]. unfold evaluated_operands.
      rewrite Hdsop, Hops. left. }
    assert (source = h ∨ needs c source h) as Hsource.
    { destruct (bool_decide (opcode u = kReshape) && bool_decide (operands u = [h]))
        eqn:Hre.
      - destruct Hchain as [_ ->].
        apply andb_true_iff in Hre as [Hre1 Hre2].
        apply bool_decide_eq_true in Hre1, Hre2. right. exists u.
        split; [done|]. unfold evaluated_operands. rewrite Hre1, Hre2. left.
      - destruct Hchain as [_ ->]. by left. }
    intros z [->|[->|Hz]]; [by left| |].
    - right. destruct Hsource as [<-|Hsource]; [by apply reaches_operand|].
      eapply reaches_through; [done|]. by apply reaches_operand.
    - unfold intervening_reshape, operand in Hz. rewrite Hops in Hz.
      simpl in Hz. case_decide; [|done]. injection Hz as <-.
      destruct Hsource as [?|Hsource]; [done|]. right. by apply reaches_operand. }
  (* the value of the replacement *)
  destruct (middle_parts (map Z.to_nat (take i (dimensions (shape ar))))
              (map Z.to_nat (drop (S i) (dimensions (shape ar))))
              (Z.to_nat shard) i) as (Hout & Htake & Hdrop).
  { rewrite length_map, length_take. apply lookup_lt_Some in Hn. lia. }
  rewrite <- (scatter_sizes ar i n participants shard ds_handle
                (scatter_channel ar (next_channel_id s)).1 Hn Hshard_size)
    in Hout, Htake, Hdrop.
  pose proof (eval_replacement cfg parameters reduction c h ar
                (mkSpec (Z.of_nat i) participants ds_handle) ds
                (next_channel_id s) Har Hop Hds Hsliced Hgone d fuel1 fuel' rank
                size data (Z.to_nat shard) Hreduced Hfuel) as Hrep.
  cbv zeta in Hrep. cbn [split_dim] in Hrep. rewrite Nat2Z.id in Hrep.
  destruct (Hrep Hout) as (Hfind & Hreshape & Heval).
  unfold c'. rewrite Hs'. cbn [computation].
  split; [exact Hfind|]. split; [exact Hreshape|].
  etrans; [exact Heval|]. rewrite Htake, Hdrop. f_equal.
  unfold pre, post.
  destruct (element_count_part _ i Harvalid) as [-> _].
  destruct (element_count_part _ (S i) Harvalid) as [_ ->].
  destruct (element_count_part _ j Hsrcvalid) as [-> _].
  destruct (element_count_part _ (S j) Hsrcvalid) as [_ ->].
  rewrite Hpre, Hpost. f_equal. lia.
Qed.

Lemma rewrite_preserves_value_witness :
  (eval (mkConfig 1 8) ramp (λ _, Z.add) 7
     (computation
        (RunOnInstruction MatchAllReduceScatter (mkConfig 1 8) 2%nat
           (entry_state AllReplicasWithReshape)).2)
     (3, 0)
     (replacement (computation (entry_state AllReplicasWithReshape)) 2%nat
        (instruction kDynamicSlice (f32 [4; 16; 64]) [10; 8; 9; 9]%nat))
   = Some (default [] (eval (mkConfig 1 8) ramp (λ _, Z.add) 7
                            AllReplicasWithReshape_entry (3, 0) 11%nat))
   ∧ length (default [] (eval (mkConfig 1 8) ramp (λ _, Z.add) 7
                            AllReplicasWithReshape_entry (3, 0) 11%nat))
     = 4096%nat
   ∧ replacement (computation (entry_state AllReplicasWithReshape)) 2%nat
       (instruction kDynamicSlice (f32 [4; 16; 64]) [10; 8; 9; 9]%nat)
     = 13%nat)
  ∧ (eval (mkConfig 1 8) ramp_from (λ _, Z.add) 7
       (computation
          (RunOnInstruction MatchAllReduceScatter (mkConfig 1 8) 3%nat
             (mkLoop TwoOperands_entry 1 false)).2)
       (3, 0)
       (replacement (computation (mkLoop TwoOperands_entry 1 false)) 3%nat
          (instruction kDynamicSlice (f32 [4; 8; 128]) [3; 9; 10; 10]%nat))
     = Some (default [] (eval (mkConfig 1 8) ramp_from (λ _, Z.add) 7
                              TwoOperands_entry (3, 0) 11%nat))
     ∧ take 3 (default [] (eval (mkConfig 1 8) ramp_from (λ _, Z.add) 7
                              TwoOperands_entry (3, 0) 11%nat))
       = [884744; 884816; 884888]
     ∧ replacement (computation (mkLoop TwoOperands_entry 1 false)) 3%nat
         (instruction kDynamicSlice (f32 [4; 8; 128]) [3; 9; 10; 10]%nat)
       = 12%nat).
Proof.
  split; (split; [|split; evaluated]).
  - apply (rewrite_preserves_value ramp (λ _, Z.add) (mkConfig 1 8)
             (entry_state AllReplicasWithReshape)
             (RunOnInstruction MatchAllReduceScatter (mkConfig 1 8) 2%nat
                (entry_state AllReplicasWithReshape)).2
             2%nat
             (all_reduce (layout_210 [32; 8; 128]) [1%nat] [] None false)
             (mkSpec 0 8 11%nat)
             (instruction kDynamicSlice (f32 [4; 16; 64]) [10; 8; 9; 9]%nat)
             7%nat (3, 0)).
    + evaluated.
    + evaluated.
    + evaluated.
    + evaluated.
    + intros h i Hin.
      assert (Forall (λ p : handle * HloInstruction,
                        Forall (λ n, 0 ≤ n) (dimensions (shape p.2)))
                     (instructions AllReplicasWithReshape_entry)) as Hall
        by (apply (bool_decide_unpack _); evaluated).
      rewrite list.Forall_forall in Hall. apply (Hall (h, i) Hin).
    + member.
    + evaluated.
  - apply (rewrite_preserves_value ramp_from (λ _, Z.add) (mkConfig 1 8)
             (mkLoop TwoOperands_entry 1 false)
             (RunOnInstruction MatchAllReduceScatter (mkConfig 1 8) 3%nat
                (mkLoop TwoOperands_entry 1 false)).2
             3%nat
             (all_reduce (layout_210 [32; 8; 128]) [1%nat; 2%nat] [] None false)
             (mkSpec 0 8 11%nat)
             (instruction kDynamicSlice (f32 [4; 8; 128]) [3; 9; 10; 10]%nat)
             7%nat (3, 0)).
    + evaluated.
    + evaluated.
    + evaluated.
    + evaluated.
    + intros h i Hin.
      assert (Forall (λ p : handle * HloInstruction,
                        Forall (λ n, 0 ≤ n) (dimensions (shape p.2)))
                     (instructions TwoOperands_entry)) as Hall
        by (apply (bool_decide_unpack _); evaluated).
      rewrite list.Forall_forall in Hall. apply (Hall (h, i) Hin).
    + member.
    + evaluated.
Defined.

(** ** What the analyzer makes of a dead instruction *)

Section Dead.
Variables (config : HloModuleConfig) (a : HloInstruction) (c : HloComputation)
          (y : handle).
Hypothesis Hdead : dead c y.

Ltac dead_cases i H :=
  unfold dead in Hdead;
  destruct (find_instruction c y) as [i|] eqn:H; simpl; [|done];
  destruct Hdead as [Hop|[Hop|[[Hop Hshape]|(Hop & t & rest & Hops & Htable)]]].

Lemma dead_find_opcode op :
  op ≠ kAllReduce → op ≠ kAllReduceScatter → op ≠ kReshape →
  op ≠ kDynamicSlice →
  find_opcode c y op = None.
Proof.
  intros ? ? ? ?. unfold find_opcode. dead_cases i Hi;
    (rewrite bool_decide_eq_false_2; [done|congruence]).
Qed.

Lemma dead_scalar_constant : scalar_constant c y = None.
Proof.
  unfold scalar_constant. dead_cases i Hi;
    (rewrite bool_decide_eq_false_2; [done|congruence]).
Qed.

Lemma dead_table_of : table_of c y = None.
Proof.
  unfold table_of. dead_cases i Hi;
    destruct (dimensions (shape i)) as [|n [|]]; try done;
    (rewrite !bool_decide_eq_false_2; [done|congruence..]).
Qed.

Lemma dead_plain_index :
  find_instruction c y ≫= plain_index config a c = None.
Proof.
  dead_cases i Hi; unfold plain_index; by rewrite Hop.
Qed.

Lemma dead_device_index : device_index config a c y = None.
Proof.
  unfold device_index. dead_cases i Hi; unfold plain_index; by rewrite Hop.
Qed.

Lemma dead_through_reshape : through_reshape c y = y.
Proof.
  unfold through_reshape. unfold dead in Hdead.
  destruct (find_instruction c y) as [i|] eqn:Hi; [|done].
  destruct (bool_decide (opcode i = kReshape) && is_scalar i) eqn:Hre; [|done].
  apply andb_true_iff in Hre as [Hop Hscalar].
  apply bool_decide_eq_true in Hop, Hscalar.
  destruct Hdead as [?|[?|[[_ ?]|(? & _)]]]; congruence.
Qed.

Lemma dead_table_slice : table_slice c y = None.
Proof.
  unfold table_slice. dead_cases i Hi.
  - rewrite bool_decide_eq_false_2; [done|congruence].
  - rewrite bool_decide_eq_false_2; [done|congruence].
  - rewrite bool_decide_eq_false_2; [done|congruence].
  - destruct (_ && _); [|done]. rewrite Hops.
    destruct rest as [|index [|]]; try done. by rewrite Htable.
Qed.

Lemma dead_table_lookup : table_lookup c y = None.
Proof.
  unfold table_lookup. rewrite dead_through_reshape. apply dead_table_slice.
Qed.

Lemma dead_lookup_chain group_count :
  lookup_chain config a group_count c y = None.
Proof.
  unfold lookup_chain. by rewrite dead_device_index, dead_table_lookup.
Qed.

Lemma dead_offset_expr group_count shard :
  offset_expr config a group_count shard c y = None.
Proof.
  unfold offset_expr. rewrite dead_lookup_chain.
  unfold dead in Hdead. destruct (find_instruction c y) as [i|]; [|done].
  rewrite bool_decide_eq_false_2; [done|].
  destruct Hdead as [?|[?|[[? _]|(? & _)]]]; congruence.
Qed.

End Dead.

(** ** A rewrite and the other all-reduces *)

Lemma matched_chain_facts config c h ar_spec ar ds :
  matched config c h ar_spec →
  find_instruction c h = Some ar →
  find_instruction c (dynamic_slice ar_spec) = Some ds →
  opcode ar = kAllReduce
  ∧ opcode ds = kDynamicSlice
  ∧ dimensions (shape ds) ≠ []
  ∧ dimensions (shape ar) ≠ []
  ∧ h ≠ dynamic_slice ar_spec
  ∧ ∃ source starts,
      operands ds = source :: starts
      ∧ match intervening_reshape h ds with
        | None => source = h ∧ users c h = [dynamic_slice ar_spec]
        | Some r =>
          source = r ∧ r ≠ h ∧ r ≠ dynamic_slice ar_spec
          ∧ users c h = [r] ∧ users c r = [dynamic_slice ar_spec]
          ∧ ∃ u, find_instruction c r = Some u ∧ opcode u = kReshape
                 ∧ operands u = [h] ∧ dimensions (shape u) ≠ []
        end.
Proof.
  intros Hm Har Hds.
  destruct Hm as [ar' u src ds' user source ds_handle starts offset i j n
                    shard size count e Har' Hop Husers Hu Hchain Hds' Hsrc
                    Hdsop Hops Hlen1 Hlen2 Hdiff Hi Hn Hshard Hoffset Hpos
                    Hrem Hgroups Hsize He Hom].
  cbn [dynamic_slice] in *.
  assert (ar' = ar) as -> by congruence. assert (ds' = ds) as -> by congruence.
  assert (dimensions (shape ds) ≠ []) as Hdsdims
    by (intros Hnil; by rewrite Hnil in Hshard).
  assert (dimensions (shape ar) ≠ []) as Hardims
    by (intros Hnil; by rewrite Hnil in Hn).
  assert (h ≠ ds_handle) as Hne by (intros ->; congruence).
  split_and!; try done.
  exists source, starts. split; [done|].
  unfold intervening_reshape, operand. rewrite Hops. simpl.
  destruct (bool_decide (opcode u = kReshape) && bool_decide (operands u = [h]))
    eqn:Hre.
  - destruct Hchain as [Husers' ->].
    apply andb_true_iff in Hre as [Hre1 Hre2].
    apply bool_decide_eq_true in Hre1, Hre2.
    assert (user ≠ h) as Hneq by (intros ->; congruence).
    rewrite decide_True by done.
    assert (src = u) as -> by congruence.
    assert (dimensions (shape u) ≠ []) as Hudims.
    { intros Hnil. apply differing_dims_here in Hdiff as [Hj _].
      rewrite Hnil in Hj. simpl in Hj. lia. }
    split_and!; try done.
    + intros ->. congruence.
    + by exists u.
  - destruct Hchain as [-> ->]. by rewrite decide_False by (by intros ?).
Qed.

Section Stability.
Variables (config : HloModuleConfig) (c : HloComputation) (h : handle)
          (ar : HloInstruction) (ar_spec : AllReduceScatterSpec)
          (ds : HloInstruction) (channel : option Z).
Hypothesis Hwf : well_formed c.
Hypothesis Hmatched : matched config c h ar_spec.
Hypothesis Har : find_instruction c h = Some ar.
Hypothesis Hds : find_instruction c (dynamic_slice ar_spec) = Some ds.

Local Abbreviation ds_handle := (dynamic_slice ar_spec).
Local Abbreviation added := (add_replacement c h ar ar_spec ds channel).
Local Abbreviation result := (add_replacement c h ar ar_spec ds channel).1.
Local Abbreviation after := (rewritten c h ar ar_spec ds channel).
Local Abbreviation moved := (replace_operand (dynamic_slice ar_spec)
                               (add_replacement c h ar ar_spec ds channel).1).
Local Abbreviation removed y :=
  (y = h ∨ y = dynamic_slice ar_spec ∨ intervening_reshape h ds = Some y).

Local Abbreviation renamed :=
  (rename (dynamic_slice ar_spec) (add_replacement c h ar ar_spec ds channel).1).

Lemma sliced_is_old o : operand ds 0 = Some o → o ∈ handles c.
Proof.
  destruct (matched_chain_facts _ _ _ _ _ _ Hmatched Har Hds)
    as (_ & _ & _ & _ & _ & source & starts & Hops & Hchain).
  unfold operand. rewrite Hops. intros [= <-].
  destruct (intervening_reshape h ds) as [r|].
  - destruct Hchain as (-> & _ & _ & _ & _ & u & Hu & _).
    apply find_instruction_handles. eauto.
  - destruct Hchain as [-> _]. apply find_instruction_handles. eauto.
Qed.

Lemma result_is_fresh :
  result = fresh_handle c ∨ result = S (fresh_handle c).
Proof.
  rewrite add_replacement_result. destruct (intervening_reshape h ds); auto.
Qed.

Lemma result_not_old : result ∉ handles c.
Proof.
  intros Hin. apply old_not_fresh in Hin. destruct result_is_fresh; lia.
Qed.

Lemma operands_moved i : operands (moved i) = renamed <$> operands i.
Proof. done. Qed.

Lemma find_after_kept y :
  y ∈ handles c → ¬ removed y →
  find_instruction after y = moved <$> find_instruction c y ∧ renamed y = y.
Proof.
  intros Hy Hkept. rewrite find_rewritten, decide_False by done.
  rewrite find_add_replacement_old by done. split; [done|].
  unfold rename. rewrite decide_False; [done|]. intros ->. apply Hkept. auto.
Qed.

Lemma find_after_result :
  ∃ i, find_instruction after result = Some i
       ∧ (opcode i = kAllReduceScatter
          ∨ opcode i = kReshape ∧ dimensions (shape i) = dimensions (shape ds)
            ∧ operands i = [fresh_handle c]).
Proof.
  assert (¬ removed result) as Hkept.
  { intros Hrem. apply result_not_old.
    destruct Hrem as [->|[->|Hr]].
    - apply find_instruction_handles. eauto.
    - apply find_instruction_handles. eauto.
    - eapply intervening_reshape_handles in Hr as [Hr _];
        [done|exact sliced_is_old]. }
  rewrite find_rewritten, decide_False by done.
  rewrite add_replacement_result.
  destruct (intervening_reshape h ds) as [r|] eqn:Hr.
  - rewrite (find_add_replacement_reshape _ _ _ _ _ _ r Hr). simpl.
    eexists. split; [done|]. right. split_and!; [done|done|].
    simpl. rewrite decide_False; [done|].
    intros Heq. apply (fresh_handle_not_in c). rewrite Heq.
    apply find_instruction_handles. eauto.
  - rewrite find_add_replacement_scatter. simpl. eexists. split; [done|]. by left.
Qed.

Lemma dead_removed y :
  removed y → dead c y ∧ dead after (renamed y).
Proof.
  destruct (matched_chain_facts _ _ _ _ _ _ Hmatched Har Hds)
    as (Hop & Hdsop & Hdsdims & _ & Hne & source & starts & Hops & Hchain).
  assert (∀ r u, find_instruction c r = Some u → opcode u = kReshape →
                 dimensions (shape u) ≠ [] → dead c r) as Hreshape.
  { intros r u Hu Huop Hudims. unfold dead. rewrite Hu. auto. }
  assert (dead c h) as Hdeadh by (unfold dead; rewrite Har; auto).
  assert (∀ x, removed x → x ≠ ds_handle →
               find_instruction after (renamed x) = None) as Hgone.
  { intros x Hx Hxne. unfold rename. rewrite decide_False by done.
    by rewrite find_rewritten, decide_True. }
  intros [->|[->|Hr]].
  - split; [done|]. unfold dead. by rewrite Hgone by auto.
  - split.
    + unfold dead. rewrite Hds. do 3 right. split; [done|].
      exists source, starts. split; [done|]. apply dead_table_of.
      destruct (intervening_reshape h ds) as [r|].
      * destruct Hchain as (-> & _ & _ & _ & _ & u & Hu & Huop & _ & Hudims).
        by eapply Hreshape.
      * by destruct Hchain as [-> _].
    + unfold rename. rewrite decide_True by done.
      destruct find_after_result as (i & Hi & [Hiop|(Hiop & Hidims & _)]);
        unfold dead; rewrite Hi; [auto|].
      right. right. left. split; [done|]. by rewrite Hidims.
  - rewrite Hr in Hchain.
    destruct Hchain as (-> & _ & Hyne & _ & _ & u & Hu & Huop & _ & Hudims).
    split; [by eapply Hreshape|]. unfold dead. by rewrite Hgone by auto.
Qed.

Lemma find_after_renamed y :
  y ∈ handles c → ¬ removed y →
  find_instruction after (renamed y) = moved <$> find_instruction c y.
Proof.
  intros Hy Hkept. destruct (find_after_kept y Hy Hkept) as [Hfind ->]. done.
Qed.

Lemma operand_is_old y i o :
  find_instruction c y = Some i → o ∈ operands i → o ∈ handles c.
Proof.
  intros Hi Ho. destruct Hwf as (_ & Hclosed & _).
  eapply Hclosed; [|exact Ho]. by apply find_instruction_Some.
Qed.

Ltac by_cases y Hy Hkept :=
  destruct (decide (removed y)) as [Hrem|Hkept];
  [destruct (dead_removed y Hrem) as [Hdead Hdead']|
   pose proof (find_after_renamed y Hy Hkept) as Hfind].

Lemma after_find_opcode y op :
  y ∈ handles c →
  op ≠ kAllReduce → op ≠ kAllReduceScatter → op ≠ kReshape →
  op ≠ kDynamicSlice →
  find_opcode after (renamed y) op = moved <$> find_opcode c y op.
Proof.
  intros Hy ? ? ? ?. by_cases y Hy Hkept.
  - by rewrite !dead_find_opcode.
  - unfold find_opcode. rewrite Hfind.
    destruct (find_instruction c y) as [i|]; [|done]. simpl.
    by destruct (bool_decide _).
Qed.

Lemma after_scalar_constant y :
  y ∈ handles c → scalar_constant after (renamed y) = scalar_constant c y.
Proof.
  intros Hy. by_cases y Hy Hkept.
  - by rewrite !dead_scalar_constant.
  - unfold scalar_constant. rewrite Hfind.
    by destruct (find_instruction c y) as [i|].
Qed.

Lemma after_table_of y :
  y ∈ handles c → table_of after (renamed y) = table_of c y.
Proof.
  intros Hy. by_cases y Hy Hkept.
  - by rewrite !dead_table_of.
  - unfold table_of. rewrite Hfind.
    by destruct (find_instruction c y) as [i|].
Qed.

Section Analyzer.
Variable a : HloInstruction.

Lemma after_global_index y i :
  find_instruction c y = Some i →
  global_index config a after (moved i) = global_index config a c i.
Proof.
  intros Hi. unfold global_index. rewrite operands_moved.
  destruct (operands i) as [|scaled [|pid [|]]] eqn:Hops; try done. simpl.
  assert (scaled ∈ handles c ∧ pid ∈ handles c) as [Hscaled Hpid].
  { split; eapply operand_is_old; try exact Hi; rewrite Hops;
      rewrite !elem_of_cons; auto. }
  rewrite !after_find_opcode by done.
  destruct (find_opcode c scaled kMultiply) as [m|] eqn:Hm; [|done]. simpl.
  destruct (find_opcode c pid kPartitionId) as [p|]; [|done]. simpl.
  assert (find_instruction c scaled = Some m) as Hm'.
  { unfold find_opcode in Hm. destruct (find_instruction c scaled); [|done].
    simpl in Hm. by destruct (bool_decide _); simplify_eq. }
  destruct (operands m) as [|rid [|count [|]]] eqn:Hmops; try done. simpl.
  fold (renamed rid) (renamed count).
  assert (rid ∈ handles c ∧ count ∈ handles c) as [Hrid Hcount].
  { split; eapply operand_is_old; try exact Hm'; rewrite Hmops;
      rewrite !elem_of_cons; auto. }
  rewrite after_find_opcode, after_scalar_constant by done.
  by destruct (find_opcode c rid kReplicaId).
Qed.

Lemma after_plain_index y i :
  find_instruction c y = Some i →
  plain_index config a after (moved i) = plain_index config a c i.
Proof.
  intros Hi. unfold plain_index.
  change (opcode (moved i)) with (opcode i).
  destruct (opcode i); try done. by eapply after_global_index.
Qed.

Lemma after_plain y :
  y ∈ handles c →
  find_instruction after (renamed y) ≫= plain_index config a after
  = find_instruction c y ≫= plain_index config a c.
Proof.
  intros Hy. by_cases y Hy Hkept.
  - by rewrite !dead_plain_index.
  - rewrite Hfind. destruct (find_instruction c y) as [i|] eqn:Hi; [|done].
    simpl. by eapply after_plain_index.
Qed.

Lemma after_device_index y :
  y ∈ handles c → device_index config a after (renamed y) = device_index config a c y.
Proof.
  intros Hy. by_cases y Hy Hkept.
  - by rewrite !dead_device_index.
  - unfold device_index. rewrite Hfind.
    destruct (find_instruction c y) as [i|] eqn:Hi; [|done].
    cbn [fmap option_fmap option_map mbind option_bind].
    change (opcode (moved i)) with (opcode i).
    destruct (opcode i); try (by eapply after_plain_index).
    rewrite operands_moved.
    destruct (operands i) as [|x [|]] eqn:Hops; try done. simpl.
    apply after_plain. eapply operand_is_old; [exact Hi|]. rewrite Hops. left.
Qed.

Lemma after_through_reshape y :
  y ∈ handles c →
  through_reshape after (renamed y) = renamed (through_reshape c y)
  ∧ through_reshape c y ∈ handles c.
Proof.
  intros Hy. by_cases y Hy Hkept.
  - by rewrite !dead_through_reshape.
  - unfold through_reshape. rewrite Hfind.
    destruct (find_instruction c y) as [i|] eqn:Hi; [|done].
    cbn [fmap option_fmap option_map mbind option_bind].
    change (opcode (moved i)) with (opcode i).
    change (is_scalar (moved i)) with (is_scalar i).
    destruct (bool_decide (opcode i = kReshape) && is_scalar i); [|done].
    rewrite operands_moved.
    destruct (operands i) as [|x [|]] eqn:Hops; try done. simpl.
    split; [done|]. eapply operand_is_old; [exact Hi|]. rewrite Hops. left.
Qed.

Lemma after_table_slice y :
  y ∈ handles c →
  table_slice after (renamed y) = prod_map id renamed <$> table_slice c y
  ∧ ∀ t index, table_slice c y = Some (t, index) → index ∈ handles c.
Proof.
  intros Hy. by_cases y Hy Hkept.
  - by rewrite !dead_table_slice.
  - unfold table_slice. rewrite Hfind.
    destruct (find_instruction c y) as [i|] eqn:Hi; [|done].
    cbn [fmap option_fmap option_map mbind option_bind].
    change (opcode (moved i)) with (opcode i).
    change (shape (moved i)) with (shape i).
    destruct (_ && _); [|done]. rewrite operands_moved.
    destruct (operands i) as [|table [|index [|]]] eqn:Hops; try done. simpl.
    assert (table ∈ handles c ∧ index ∈ handles c) as [Htable Hindex].
    { split; eapply operand_is_old; try exact Hi; rewrite Hops;
        rewrite !elem_of_cons; auto. }
    rewrite after_table_of by done.
    destruct (table_of c table) as [t|]; [|done]. simpl.
    split; [done|]. by intros ? ? [= _ <-].
Qed.

Lemma after_table_lookup y :
  y ∈ handles c →
  table_lookup after (renamed y) = prod_map id renamed <$> table_lookup c y
  ∧ ∀ t index, table_lookup c y = Some (t, index) → index ∈ handles c.
Proof.
  intros Hy. unfold table_lookup.
  destruct (after_through_reshape y Hy) as [-> Hold].
  by apply after_table_slice.
Qed.

Lemma after_lookup_chain group_count y :
  y ∈ handles c →
  lookup_chain config a group_count after (renamed y)
  = lookup_chain config a group_count c y.
Proof.
  intros Hy. unfold lookup_chain. rewrite after_device_index by done.
  destruct (device_index config a c y); [done|].
  destruct (after_table_lookup y Hy) as [-> Hindex].
  destruct (table_lookup c y) as [[t index]|]; [|done]. simpl.
  specialize (Hindex t index eq_refl).
  rewrite after_device_index by done.
  destruct (device_index config a c index); [done|].
  destruct (after_table_lookup index Hindex) as [-> Hindex'].
  destruct (table_lookup c index) as [[t' index']|]; [|done]. simpl.
  specialize (Hindex' t' index' eq_refl).
  by rewrite after_device_index by done.
Qed.

Lemma after_offset_expr group_count shard y :
  y ∈ handles c →
  offset_expr config a group_count shard after (renamed y)
  = offset_expr config a group_count shard c y.
Proof.
  intros Hy. by_cases y Hy Hkept.
  - by rewrite !dead_offset_expr.
  - unfold offset_expr. rewrite Hfind, !after_lookup_chain by done.
    destruct (find_instruction c y) as [i|] eqn:Hi; [|done].
    cbn [fmap option_fmap option_map mbind option_bind].
    change (opcode (moved i)) with (opcode i).
    destruct (bool_decide (opcode i = kMultiply)); [|done].
    rewrite operands_moved.
    destruct (operands i) as [|x [|x' [|]]] eqn:Hops; try done. simpl.
    assert (x ∈ handles c ∧ x' ∈ handles c) as [Hx Hx'].
    { split; eapply operand_is_old; try exact Hi; rewrite Hops;
        rewrite !elem_of_cons; auto. }
    by rewrite !after_scalar_constant, !after_lookup_chain by done.
Qed.

End Analyzer.

(** ** The users of what stays *)

Lemma find_in_NoDup y i :
  (y, i) ∈ instructions c → find_instruction c y = Some i.
Proof.
  destruct Hwf as (Hnodup & _). unfold handles, find_instruction in *.
  revert Hnodup. generalize (instructions c) as l.
  induction l as [|[y' i'] l IH]; intros Hnodup Hin.
  - by apply elem_of_nil in Hin.
  - rewrite fmap_cons in Hnodup.
    apply list.NoDup_cons in Hnodup as [Hnotin Hnodup].
    simpl. apply elem_of_cons in Hin as [[= -> ->]|Hin].
    + by rewrite decide_True.
    + rewrite decide_False; [by apply IH|].
      intros ->. apply Hnotin. apply list_elem_of_fmap. by exists (y, i).
Qed.

Lemma renamed_old o t : renamed o = t → t ∈ handles c → o = t.
Proof.
  unfold rename. case_decide; [|done]. intros <- Hin.
  by apply result_not_old in Hin.
Qed.

Lemma renamed_keeps t : t ∈ handles c → ¬ removed t → renamed t = t.
Proof.
  intros _ Hkept. unfold rename. rewrite decide_False; [done|].
  intros ->. apply Hkept. auto.
Qed.

Lemma elem_of_renamed t (l : list handle) :
  t ∈ handles c → ¬ removed t → t ∈ renamed <$> l ↔ t ∈ l.
Proof.
  intros Ht Hkept. rewrite list_elem_of_fmap. split.
  - intros (o & Heq & Ho). symmetry in Heq.
    by rewrite (renamed_old _ _ Heq Ht) in Ho.
  - intros Hin. exists t. split; [|done]. symmetry. by apply renamed_keeps.
Qed.

Lemma fresh_not_removed x :
  x = fresh_handle c ∨ x = S (fresh_handle c) → ¬ removed x.
Proof.
  intros Hx Hrem.
  assert (x ∈ handles c) as Hin.
  { destruct Hrem as [->|[->|Hr]].
    - apply find_instruction_handles. eauto.
    - apply find_instruction_handles. eauto.
    - eapply intervening_reshape_handles in Hr as [Hr _];
        [done|exact sliced_is_old]. }
  apply old_not_fresh in Hin. lia.
Qed.

Lemma users_after t y :
  t ∈ handles c → ¬ removed t →
  y ∈ users after t ↔
  ¬ removed y ∧ y ∈ users c t ∨ y = fresh_handle c ∧ t ∈ operands ar.
Proof.
  intros Ht Hkept. rewrite !elem_of_users. split.
  - intros (i' & Hin & Hop).
    apply elem_of_rewritten in Hin as (Hyh & Hyd & Hyr & i & -> & Hin).
    rewrite operands_moved, elem_of_renamed in Hop by done.
    rewrite instructions_add_replacement in Hin.
    apply elem_of_app in Hin as [Hin|Hin].
    { left. split; [intros [?|[?|?]]; done|eauto]. }
    apply elem_of_app in Hin as [Hin|Hin].
    { apply list_elem_of_singleton in Hin as [= -> ->]. by right. }
    destruct (intervening_reshape h ds); [|by apply elem_of_nil in Hin].
    apply list_elem_of_singleton in Hin as [= -> ->].
    simpl in Hop. apply list_elem_of_singleton in Hop as ->.
    by destruct (fresh_handle_not_in c).
  - intros [[Hykept (i & Hin & Hop)]|[-> Hop]].
    + exists (moved i). split.
      * apply elem_of_rewritten. split_and!; try tauto.
        exists i. split; [done|]. rewrite instructions_add_replacement.
        apply elem_of_app. by left.
      * by rewrite operands_moved, elem_of_renamed.
    + exists (moved (scatter_instruction ar ar_spec channel)). split.
      * assert (¬ removed (fresh_handle c)) as Hfresh
          by (apply fresh_not_removed; auto).
        apply elem_of_rewritten. split_and!; try tauto.
        eexists. split; [done|]. rewrite instructions_add_replacement.
        apply elem_of_app. right. apply elem_of_app. left. left.
      * by rewrite operands_moved, elem_of_renamed.
Qed.

Lemma NoDup_users t : NoDup (users c t).
Proof.
  destruct Hwf as (Hnodup & _). unfold users.
  eapply sublist_NoDup; [exact Hnodup|].
  apply fmap_sublist, sublist_filter.
Qed.

Lemma singleton_NoDup {A : Type} (l : list A) w :
  NoDup l → w ∈ l → (∀ y, y ∈ l → y = w) → l = [w].
Proof.
  intros Hnodup Hw Hall. destruct l as [|a l]; [by apply elem_of_nil in Hw|].
  assert (a = w) as -> by (apply Hall; left).
  destruct l as [|b l]; [done|].
  assert (b = w) as -> by (apply Hall; right; left).
  apply list.NoDup_cons in Hnodup as [Hnotin _]. destruct Hnotin. left.
Qed.

(** What has one user after the rewrite had that one user before, when it is
    no scalar and the user is not the new reduce-scatter. *)
Lemma users_before t ti w :
  find_instruction c t = Some ti → ¬ removed t →
  dimensions (shape ti) ≠ [] →
  users after t = [w] → w ≠ fresh_handle c →
  users c t = [w] ∧ ¬ removed w.
Proof.
  intros Hti Hkept Hdims Husers Hw.
  assert (t ∈ handles c) as Ht by (apply find_instruction_handles; eauto).
  destruct (matched_chain_facts _ _ _ _ _ _ Hmatched Har Hds)
    as (Hop & Hdsop & Hdsdims & _ & Hne & source & starts & Hops & Hchain).
  assert (t ∉ operands ar) as Hnotar.
  { intros Hin. assert (fresh_handle c ∈ users after t) as Hfresh
      by (apply users_after; auto).
    rewrite Husers in Hfresh. by apply list_elem_of_singleton in Hfresh. }
  assert (∀ y, y ∈ users c t → ¬ removed y) as Hstay.
  { intros y Hy Hrem. apply elem_of_users in Hy as (i & Hin & Hti').
    apply find_in_NoDup in Hin as Hfind.
    destruct Hrem as [->|[->|Hr]].
    - congruence.
    - assert (i = ds) as -> by congruence. rewrite Hops in Hti'.
      apply elem_of_cons in Hti' as [->|Hstart].
      + apply Hkept. destruct (intervening_reshape h ds) as [r|].
        * destruct Hchain as (-> & _). auto.
        * destruct Hchain as (-> & _). auto.
      + destruct Hwf as (_ & _ & Hscalar).
        apply Hdims. eapply (Hscalar ds_handle ds t ti); try done.
        by rewrite Hops.
    - rewrite Hr in Hchain.
      destruct Hchain as (-> & _ & _ & _ & _ & u & Hu & _ & Huops & _).
      assert (i = u) as -> by congruence. rewrite Huops in Hti'.
      apply list_elem_of_singleton in Hti' as ->. apply Hkept. auto. }
  assert (w ∈ users c t ∧ ¬ removed w) as [Hwin Hwkept].
  { assert (w ∈ users after t) as Hin by (rewrite Husers; left).
    apply users_after in Hin as [[? ?]|[? _]]; done. }
  split; [|done]. apply singleton_NoDup; [apply NoDup_users|done|].
  intros y Hy. assert (y ∈ users after t) as Hin.
  { apply users_after; [done..|]. left. split; [by apply Hstay|done]. }
  rewrite Husers in Hin. by apply list_elem_of_singleton in Hin.
Qed.

Lemma find_after_Some y i' :
  find_instruction after y = Some i' →
  (¬ removed y ∧ ∃ i, find_instruction c y = Some i ∧ i' = moved i)
  ∨ (y = fresh_handle c ∧ opcode i' = kAllReduceScatter)
  ∨ (y = S (fresh_handle c) ∧ opcode i' = kReshape
     ∧ operands i' = [fresh_handle c]).
Proof.
  rewrite find_rewritten. case_decide as Hrem; [done|].
  destruct (find_instruction added.2 y) as [i|] eqn:Hi; [|done].
  intros [= <-]. apply find_instruction_Some in Hi as Hin.
  rewrite instructions_add_replacement in Hin.
  apply elem_of_app in Hin as [Hin|Hin].
  { left. split; [done|]. exists i. split; [|done].
    rewrite <- Hi. symmetry. apply find_add_replacement_old.
    apply find_instruction_handles. by eapply elem_of_instructions_find. }
  apply elem_of_app in Hin as [Hin|Hin].
  { apply list_elem_of_singleton in Hin as [= -> ->]. right. left. done. }
  destruct (intervening_reshape h ds); [|by apply elem_of_nil in Hin].
  apply list_elem_of_singleton in Hin as [= -> ->]. right. right.
  split_and!; [done..|]. simpl. rewrite decide_False; [done|].
  intros Heq. apply (fresh_handle_not_in c). rewrite Heq.
  apply find_instruction_handles. eauto.
Qed.

Lemma renamed_cons (l : list handle) x k :
  renamed <$> l = x :: k → x ∈ handles c →
  ∃ l', l = x :: l' ∧ k = renamed <$> l'.
Proof.
  intros Heq Hx. apply fmap_cons_inv in Heq as (o & l' & Ho & -> & ->).
  symmetry in Ho. apply renamed_old in Ho; [|done]. subst o. eauto.
Qed.

Lemma renamed_singleton (l : list handle) x :
  x ∈ handles c → ¬ removed x → renamed <$> l = [x] ↔ l = [x].
Proof.
  intros Hx Hkept. split.
  - intros Heq. apply renamed_cons in Heq as (l' & -> & Hnil); [|done].
    symmetry in Hnil. apply fmap_nil_inv in Hnil. by subst.
  - intros ->. by rewrite list_fmap_singleton, renamed_keeps.
Qed.

(** An all-reduce that matches after the rewrite matched before it. *)
Lemma matched_before x x_spec :
  matched config after x x_spec → matched config c x x_spec.
Proof.
  intros [ar' u' src' ds' user source ds_handle' starts' offset' i j n shard
            size count e Har' Hop' Husers' Hu' Hchain' Hds' Hsrc' Hdsop' Hops'
            Hlen1 Hlen2 Hdiff Hi Hn Hshard Hoffset Hpos Hrem Hgroups Hsize He
            Hom].
  (* the all-reduce *)
  apply find_after_Some in Har' as [(Hxkept & ar_x & Harx & ->)|[[_ Hnew]|(_ & Hnew & _)]];
    [|simpl in *; congruence..].
  assert (x ∈ handles c) as Hx by (apply find_instruction_handles; eauto).
  (* the slice *)
  apply find_after_Some in Hds'
    as [(Hdkept & ds_x & Hdsx & ->)|[[_ Hnew]|(_ & Hnew & _)]];
    [|simpl in *; congruence..].
  assert (ds_handle' ≠ fresh_handle c) as Hdfresh.
  { intros ->. by destruct (fresh_handle_not_in c);
      apply find_instruction_handles; eauto. }
  (* the user *)
  assert (user ≠ fresh_handle c) as Hufresh.
  { intros ->.
    apply find_after_Some in Hu'
      as [(_ & u & Hu & _)|[[_ Hnew]|(Hfresh & _)]]; [..|lia].
    - by destruct (fresh_handle_not_in c); apply find_instruction_handles; eauto.
    - rewrite Hnew in Hchain'. simpl in Hchain'. by destruct Hchain' as [-> _]. }
  destruct (users_before x ar_x user Harx Hxkept) as [Husers Hukept];
    [by intros Hnil; simpl in Hn; rewrite Hnil in Hn|done..|].
  assert (user ∈ handles c) as Huser.
  { assert (user ∈ users c x) as Hin by (rewrite Husers; left).
    apply elem_of_users in Hin as (i0 & Hin & _).
    apply find_instruction_handles. by eapply elem_of_instructions_find. }
  apply find_after_Some in Hu'
    as [(_ & u & Hu & ->)|[[-> _]|(-> & _)]];
    [|by apply old_not_fresh in Huser; lia..].
  assert (find_instruction after user = Some (moved u)) as Hu'.
  { destruct (find_after_kept user Huser Hukept) as [-> _]. by rewrite Hu. }
  (* what is sliced *)
  assert (bool_decide (operands (moved u) = [x]) = bool_decide (operands u = [x]))
    as Hcond.
  { apply bool_decide_ext. rewrite operands_moved. by apply renamed_singleton. }
  rewrite Hcond in Hchain'. change (opcode (moved u)) with (opcode u) in Hchain'.
  assert (source ∈ handles c ∧ ¬ removed source
          ∧ (if bool_decide (opcode u = kReshape) && bool_decide (operands u = [x])
             then users c user = [ds_handle'] ∧ source = user
             else ds_handle' = user ∧ source = x))
    as (Hsource & Hskept & Hchain).
  { destruct (bool_decide (opcode u = kReshape) && bool_decide (operands u = [x])).
    - destruct Hchain' as [Husers'' ->]. split_and!; try done.
      assert (src' = moved u) as -> by congruence.
      eapply users_before; try done.
      intros Hnil. apply differing_dims_here in Hdiff as [Hj _].
      simpl in Hj. rewrite Hnil in Hj. simpl in Hj. lia.
    - by destruct Hchain' as [-> ->]. }
  apply find_after_Some in Hsrc'
    as [(_ & src & Hsrc & ->)|[[-> _]|(-> & _)]];
    [|by apply old_not_fresh in Hsource; lia..].
  (* the operands of the slice *)
  rewrite operands_moved in Hops'.
  apply renamed_cons in Hops' as (starts & Hops & ->); [|done].
  rewrite length_fmap in Hlen1.
  apply list_lookup_fmap_Some in Hoffset as (offset & -> & Hoffset).
  assert (offset ∈ handles c) as Hoffset_old.
  { eapply operand_is_old; [exact Hdsx|]. rewrite Hops. right.
    by eapply list_elem_of_lookup_2. }
  change (offset_expr config (moved ar_x) (n `quot` shard) shard after
            (renamed offset))
    with (offset_expr config ar_x (n `quot` shard) shard after (renamed offset))
    in He.
  rewrite after_offset_expr in He by done.
  eapply (matched_chain config c x ar_x u src ds_x user source ds_handle'
            starts offset i j n shard size count e); done.
Qed.

(** ** The rewrite keeps the computation well formed *)

Lemma NoDup_handles_erase x k : NoDup (handles k) → NoDup (handles (erase x k)).
Proof.
  intros Hnodup. unfold handles. rewrite instructions_erase.
  eapply sublist_NoDup; [exact Hnodup|]. apply fmap_sublist, sublist_filter.
Qed.

Lemma NoDup_handles_AddInstruction i k :
  NoDup (handles k) → NoDup (handles (AddInstruction i k).2).
Proof.
  intros Hnodup. rewrite handles_AddInstruction. apply list.NoDup_app.
  split_and!; [done| |apply NoDup_singleton].
  intros x Hx Hfresh. apply list_elem_of_singleton in Hfresh as ->.
  by apply fresh_handle_not_in in Hx.
Qed.

Lemma NoDup_handles_after : NoDup (handles after).
Proof.
  destruct Hwf as (Hnodup & _).
  assert (NoDup (handles added.2)) as Hadded.
  { unfold add_replacement. destruct (intervening_reshape h ds);
      repeat apply NoDup_handles_AddInstruction; done. }
  unfold rewritten. apply NoDup_handles_erase.
  destruct (intervening_reshape h ds); repeat apply NoDup_handles_erase;
    by rewrite handles_ReplaceAllUsesWith.
Qed.

Lemma kept_in_after o :
  o ∈ handles c → ¬ removed o → o ∈ handles after.
Proof.
  intros Ho Hkept. apply find_instruction_handles.
  destruct (find_after_kept o Ho Hkept) as [-> _].
  apply find_instruction_handles in Ho as [i ->]. by eexists.
Qed.

Lemma user_of_removed y i o :
  (y, i) ∈ instructions c → o ∈ operands i → removed o →
  o = ds_handle ∨ removed y ∧ y ≠ h.
Proof.
  intros Hin Ho Hrem.
  destruct (matched_chain_facts _ _ _ _ _ _ Hmatched Har Hds)
    as (_ & _ & _ & _ & Hne & source & starts & _ & Hchain).
  assert (y ∈ users c o) as Huser by (apply elem_of_users; eauto).
  destruct Hrem as [->|[->|Hr]]; [|by left|].
  - right. destruct (intervening_reshape h ds) as [r|].
    + destruct Hchain as (_ & Hrh & _ & Husers & _). rewrite Husers in Huser.
      apply list_elem_of_singleton in Huser as ->. auto.
    + destruct Hchain as (_ & Husers). rewrite Husers in Huser.
      apply list_elem_of_singleton in Huser as ->. auto.
  - right. rewrite Hr in Hchain.
    destruct Hchain as (_ & _ & _ & _ & Husers & _). rewrite Husers in Huser.
    apply list_elem_of_singleton in Huser as ->. auto.
Qed.

Lemma operands_closed_after : operands_closed after.
Proof.
  destruct Hwf as (_ & Hclosed & _).
  intros y i' o' Hin Ho'.
  apply elem_of_rewritten in Hin as (Hyh & Hyd & Hyr & i & -> & Hin).
  rewrite operands_moved in Ho'.
  apply list_elem_of_fmap in Ho' as (o & -> & Ho).
  unfold rename. case_decide as Hod.
  { destruct find_after_result as (ri & Hri & _).
    apply find_instruction_handles. eauto. }
  assert (find_instruction after (fresh_handle c)
          = Some (moved (scatter_instruction ar ar_spec channel))) as Hscatter.
  { rewrite find_rewritten, decide_False by (apply fresh_not_removed; auto).
    by rewrite find_add_replacement_scatter. }
  rewrite instructions_add_replacement in Hin.
  apply elem_of_app in Hin as [Hin|Hin].
  { apply kept_in_after; [by eapply Hclosed|].
    intros Hrem. destruct (user_of_removed _ _ _ Hin Ho Hrem) as [?|[Hy _]];
      [done|]. destruct Hy as [?|[?|?]]; done. }
  apply elem_of_app in Hin as [Hin|Hin].
  { apply list_elem_of_singleton in Hin as [= -> ->]. simpl in Ho.
    apply find_instruction_Some in Har as Harin.
    apply kept_in_after; [by eapply Hclosed|].
    intros Hrem. destruct (user_of_removed _ _ _ Harin Ho Hrem) as [?|[_ ?]];
      done. }
  destruct (intervening_reshape h ds); [|by apply elem_of_nil in Hin].
  apply list_elem_of_singleton in Hin as [= -> ->]. simpl in Ho.
  apply list_elem_of_singleton in Ho as ->.
  apply find_instruction_handles. eauto.
Qed.

Lemma scalar_starts_after : scalar_starts after.
Proof.
  destruct Hwf as (_ & Hclosed & Hscalar).
  destruct (matched_chain_facts _ _ _ _ _ _ Hmatched Har Hds)
    as (_ & _ & Hdsdims & _).
  intros y i' o' oi' Hin Hop Ho' Hoi'.
  apply elem_of_rewritten in Hin as (Hyh & Hyd & Hyr & i & -> & Hin).
  change (opcode (moved i)) with (opcode i) in Hop.
  rewrite operands_moved, <- fmap_drop in Ho'.
  apply list_elem_of_fmap in Ho' as (o & -> & Ho).
  assert ((y, i) ∈ instructions c) as Hold.
  { rewrite instructions_add_replacement in Hin.
    apply elem_of_app in Hin as [Hin|Hin]; [done|].
    apply elem_of_app in Hin as [Hin|Hin].
    { apply list_elem_of_singleton in Hin as [= -> ->]. done. }
    destruct (intervening_reshape h ds); [|by apply elem_of_nil in Hin].
    apply list_elem_of_singleton in Hin as [= -> ->]. done. }
  assert (o ∈ handles c) as Hoin.
  { eapply Hclosed; [exact Hold|]. by eapply subseteq_drop. }
  assert (o ≠ ds_handle) as Hod.
  { intros ->. apply Hdsdims. by eapply (Hscalar y i ds_handle ds). }
  unfold rename in Hoi'. rewrite decide_False in Hoi' by done.
  apply find_after_Some in Hoi'
    as [(_ & oi & Hoi & ->)|[[-> _]|(-> & _)]];
    [|by apply old_not_fresh in Hoin; lia..].
  by eapply (Hscalar y i o oi).
Qed.

Lemma well_formed_after : well_formed after.
Proof.
  split_and!;
    [apply NoDup_handles_after|apply operands_closed_after
    |apply scalar_starts_after].
Qed.

End Stability.

(** ** The post order lists every instruction *)

Lemma visit_post_order_grows fuel c h post x :
  x ∈ post → x ∈ visit_post_order fuel c h post.
Proof.
  revert h post. induction fuel as [|fuel IH]; intros h post Hx; [done|].
  simpl. destruct (decide (h ∈ post)); [done|].
  destruct (find_instruction c h) as [i|]; [|done].
  assert (∀ ops post,
            x ∈ post →
            x ∈ foldl (λ p o, visit_post_order fuel c o p) post ops) as Hfold.
  { induction ops as [|o ops IHops]; intros post' Hx'; [done|].
    simpl. apply IHops. by apply IH. }
  case_decide; [by apply Hfold|]. apply elem_of_app. left. by apply Hfold.
Qed.

Lemma visit_post_order_visits fuel c h post :
  h ∈ handles c → h ∈ visit_post_order (S fuel) c h post.
Proof.
  intros Hh. simpl. case_decide; [done|].
  apply find_instruction_handles in Hh as [i ->].
  case_decide; [done|]. apply elem_of_app. right. left.
Qed.

Lemma MakeInstructionPostOrder_complete c h :
  h ∈ handles c → h ∈ MakeInstructionPostOrder c.
Proof.
  unfold MakeInstructionPostOrder. intros Hh.
  assert (∀ l post,
            (∀ x, x ∈ l → x ∈ handles c) → h ∈ post ∨ h ∈ l →
            h ∈ foldl (λ p x, visit_post_order (S (length (instructions c))) c x p)
                      post l) as Hfold.
  { induction l as [|x l IH]; intros post Hl Hin; cbn [foldl].
    - destruct Hin as [?|Hin]; [done|by apply elem_of_nil in Hin].
    - apply IH; [intros; apply Hl; by right|]. cbv beta.
      destruct Hin as [Hin|Hin]; [left; by apply visit_post_order_grows|].
      apply elem_of_cons in Hin as [->|Hin]; [|by right].
      left. apply visit_post_order_visits. apply Hl. left. }
  apply Hfold; auto.
Qed.

(** ** Loops with an invariant over what has been visited *)

Lemma for_each_visited {A S : Type} (body : A → S → Status * S)
    (I : list A → S → Prop) l s s' visited :
  (∀ a v s s', a ∈ l → I v s → body a s = (OK, s') → I (v ++ [a]) s') →
  I visited s → for_each body l s = (OK, s') → I (visited ++ l) s'.
Proof.
  revert visited s. induction l as [|a l IH]; intros visited s Hstep Hs; simpl.
  - intros [= <-]. by rewrite app_nil_r.
  - destruct (body a s) as [[] s1] eqn:Hbody; [|done..].
    intros Hrest. rewrite cons_middle, app_assoc. eapply IH; [|
      eapply Hstep; [left|exact Hs|exact Hbody]|exact Hrest].
    intros a' v s0 s0' Ha'. apply Hstep. by right.
Qed.

(** ** The sweep settles a computation *)

Lemma IsFusionComputation_rewritten c h ar ar_spec ds channel :
  IsFusionComputation (rewritten c h ar ar_spec ds channel)
  = IsFusionComputation c.
Proof.
  unfold rewritten, add_replacement.
  by destruct (intervening_reshape h ds).
Qed.

Lemma config_eta config :
  mkConfig (num_partitions config) (replica_count config) = config.
Proof. by destruct config. Qed.

Lemma RunOnInstruction_swept config original visited a s s' :
  swept config original visited s →
  RunOnInstruction MatchAllReduceScatter config a s = (OK, s') →
  swept config original (visited ++ [a]) s'.
Proof.
  intros (Hwf & Hfusion & Hall) Hrun.
  assert (∀ x, x ∈ visited ++ [a] → x ∈ visited ∨ x = a) as Hin.
  { intros x Hx. apply elem_of_app in Hx as [?|Hx]; [by left|].
    apply list_elem_of_singleton in Hx. by right. }
  destruct (find_instruction (computation s) a) as [ar|] eqn:Har.
  2:{ rewrite RunOnInstruction_removed in Hrun by done. injection Hrun as <-.
      split_and!; [done..|]. intros x ar Hx Hop.
      destruct (Hall x ar Hx Hop) as [Hold Hnone]. split; [done|].
      intros Hxin. apply Hin in Hxin as [?| ->]; [auto|congruence]. }
  destruct (decide (opcode ar = kAllReduce)) as [Hop|Hop].
  2:{ rewrite (RunOnInstruction_other_opcode _ _ _ _ _ Har Hop) in Hrun.
      injection Hrun as <-.
      split_and!; [done..|]. intros x ar' Hx Hop'.
      destruct (Hall x ar' Hx Hop') as [Hold Hnone]. split; [done|].
      intros Hxin. apply Hin in Hxin as [?| ->]; [auto|congruence]. }
  destruct (MatchAllReduceScatter (computation s) a (num_partitions config)
              (replica_count config) false true) as [ar_spec|] eqn:Hmatch.
  2:{ rewrite RunOnInstruction_no_match in Hrun by done. injection Hrun as <-.
      split_and!; [done..|]. intros x ar' Hx Hop'.
      destruct (Hall x ar' Hx Hop') as [Hold Hnone]. split; [done|].
      intros Hxin. apply Hin in Hxin as [?| ->]; auto. }
  (* a rewrite *)
  pose proof (MatchAllReduceScatter_matched _ _ _ _ _ Hmatch) as Hmatched.
  rewrite config_eta in Hmatched.
  assert (∃ ds, find_instruction (computation s) (dynamic_slice ar_spec) = Some ds)
    as [ds Hds].
  { destruct Hmatched. simpl. eauto. }
  pose proof (sliced_is_old config _ _ _ _ _ Hmatched Har Hds) as Hsliced.
  destruct (RunOnInstruction_rewrites _ _ _ _ _ _ _ Har Hop Hmatch Hds Hsliced
              _ Hrun) as (dim & _ & _ & _ & ->).
  unfold swept. cbn [computation].
  set (channel := (scatter_channel ar (next_channel_id s)).1).
  split_and!.
  - by eapply well_formed_after.
  - by rewrite IsFusionComputation_rewritten.
  - intros x ar' Hx Hop'.
    pose proof Hx as Hx'.
    apply (find_after_Some _ _ _ _ _ channel Hds) in Hx'
      as [(Hkept & ar_x & Harx & ->)|[[_ Hnew]|(_ & Hnew & _)]];
      [|congruence..].
    destruct (Hall x ar_x Harx Hop') as [Hold Hnone]. split; [done|].
    intros Hxin. apply Hin in Hxin as [Hxin| ->]; [|by destruct Hkept; left].
    destruct (MatchAllReduceScatter (rewritten _ _ _ _ _ _) x _ _ _ _)
      as [x_spec|] eqn:Hx_match; [|done].
    apply MatchAllReduceScatter_matched in Hx_match.
    rewrite config_eta in Hx_match.
    apply (matched_before config _ _ _ _ _ channel Hwf Hmatched Har Hds)
      in Hx_match.
    rewrite <- (config_eta config) in Hx_match.
    apply matched_MatchAllReduceScatter in Hx_match.
    rewrite (Hnone Hxin) in Hx_match. done.
Qed.

Lemma sweep_settles config c next flag l :
  well_formed c →
  for_each (RunOnInstruction MatchAllReduceScatter config)
           (MakeInstructionPostOrder c) (mkLoop c next flag) = (OK, l) →
  well_formed (computation l)
  ∧ IsFusionComputation (computation l) = IsFusionComputation c
  ∧ settled config (computation l).
Proof.
  intros Hwf Hsweep.
  eapply (for_each_visited _ (swept config c) _ _ _ []) in Hsweep.
  - destruct Hsweep as (Hwf' & Hfusion & Hall). split_and!; [done..|].
    intros x ar Hx Hop. destruct (Hall x ar Hx Hop) as [Hold Hnone].
    apply Hnone. simpl. by apply MakeInstructionPostOrder_complete.
  - intros a v s s' _. apply RunOnInstruction_swept.
  - split_and!; [done..|]. intros x ar Hx _. split.
    + apply find_instruction_handles. simpl in Hx. eauto.
    + intros Hin. by apply elem_of_nil in Hin.
Qed.

(** ** A run settles the module *)

Lemma well_formed_check_true c : well_formed_check c = true → well_formed c.
Proof.
  unfold well_formed_check. rewrite !andb_true_iff, !forallb_forall.
  intros [[Hnodup Hclosed] Hscalar]. apply bool_decide_eq_true in Hnodup.
  split_and!; [done| |].
  - intros h i o Hin Ho. apply list_elem_of_In, Hclosed in Hin.
    rewrite forallb_forall in Hin. apply list_elem_of_In, Hin in Ho.
    by apply bool_decide_eq_true in Ho.
  - intros h i o oi Hin Hop Ho Hoi. apply list_elem_of_In, Hscalar in Hin.
    simpl in Hin. rewrite (bool_decide_eq_true_2 _ Hop) in Hin. simpl in Hin.
    rewrite forallb_forall in Hin. apply list_elem_of_In, Hin in Ho.
    rewrite Hoi in Ho. by apply bool_decide_eq_true in Ho.
Qed.

Lemma RunOnComputation_run_swept m visited index s s' :
  index ∈ MakeNonfusionComputations m →
  run_swept m visited s →
  RunOnComputation MatchAllReduceScatter index s = (OK, s') →
  run_swept m (visited ++ [index]) s'.
Proof.
  intros Hindex [Hconfig Hall]. unfold RunOnComputation.
  assert (∀ x, x ∈ visited ++ [index] → x ∈ visited ∨ x = index) as Hin.
  { intros x Hx. apply elem_of_app in Hx as [?|Hx]; [by left|].
    apply list_elem_of_singleton in Hx. by right. }
  destruct (computations (module s) !! index) as [c|] eqn:Hc.
  2:{ intros [= <-]. split; [done|]. intros index' c' Hc'.
      destruct (Hall index' c' Hc') as (c0 & Hc0 & Hflag & Hsame & Hrest).
      exists c0. split_and!; [done..|]. intros Hfusion.
      destruct (Hrest Hfusion) as [Hwf Hsettled]. split; [done|].
      intros Hx. apply Hin in Hx as [?| ->]; [auto|congruence]. }
  destruct (for_each _ _ _) as [st l] eqn:Hsweep. intros [= -> <-].
  destruct (Hall index c Hc) as (c0 & Hc0 & Hflag & _ & Hrest).
  apply elem_of_MakeNonfusionComputations in Hindex as (c0' & Hc0' & Hfusion0).
  assert (c0' = c0) as -> by congruence.
  rewrite <- Hflag in Hfusion0. destruct (Hrest Hfusion0) as [Hwf _].
  destruct (sweep_settles _ _ _ _ _ Hwf Hsweep) as (Hwf' & Hflag' & Hsettled').
  rewrite Hconfig in Hsettled'.
  split; [done|]. cbn [module computations]. intros index' c' Hc'.
  destruct (decide (index' = index)) as [->|Hne].
  - rewrite list_lookup_insert_eq in Hc' by (by eapply lookup_lt_Some).
    injection Hc' as <-. exists c0. split_and!; [done|congruence|congruence|].
    done.
  - rewrite list_lookup_insert_ne in Hc' by done.
    destruct (Hall index' c' Hc') as (c1 & Hc1 & Hflag1 & Hsame1 & Hrest1).
    exists c1. split_and!; [done..|]. intros Hfusion1.
    destruct (Hrest1 Hfusion1) as [Hwf1 Hsettled1]. split; [done|].
    intros Hx. apply Hin in Hx as [?|?]; [auto|done].
Qed.

Lemma RunOnComputation_settled index s :
  (∀ c, computations (module s) !! index = Some c →
        settled (config (module s)) c) →
  RunOnComputation MatchAllReduceScatter index s = (OK, s).
Proof.
  intros Hc. unfold RunOnComputation.
  destruct (computations (module s) !! index) as [c|] eqn:E; [|done].
  rewrite for_each_unchanged.
  - simpl. rewrite list_insert_id by done. rewrite module_eta. by destruct s.
  - intros h _. apply RunOnInstruction_unmatched. simpl.
    intros ar ar_spec Har Hop. by rewrite (Hc c eq_refl h ar Har Hop).
Qed.

Lemma Run_settled m :
  (∀ c, c ∈ computations m → IsFusionComputation c = false →
        settled (config m) c) →
  Run MatchAllReduceScatter m = (Value false, m).
Proof.
  intros Hm. unfold Run, RunLoops. rewrite for_each_unchanged; [done|].
  intros index Hin. apply RunOnComputation_settled. simpl.
  apply elem_of_MakeNonfusionComputations in Hin as (c0 & Hc0 & Hfusion).
  intros c Hc. assert (c = c0) as -> by congruence.
  apply Hm; [|done]. by eapply list_elem_of_lookup_2.
Qed.

(** C6. On a module whose non-fusion computations are well formed: after a
    run that returns a value, no all-reduce of a non-fusion computation
    matches any more, and a second run returns false and leaves the module as
    the first run left it. When the fusion computations, which the pass does
    not visit, hold no all-reduce, no all-reduce of the module matches any
    more. *)
Theorem second_run_changes_nothing (m m' : HloModule) (flag : bool) :
  (∀ c, c ∈ computations m → IsFusionComputation c = false → well_formed c) →
  Run MatchAllReduceScatter m = (Value flag, m') →
  Run MatchAllReduceScatter m' = (Value false, m')
  ∧ (∀ c, c ∈ computations m' → IsFusionComputation c = false →
          settled (config m') c)
  ∧ ((∀ c, c ∈ computations m → IsFusionComputation c = true →
           no_all_reduce c) →
     ∀ c, c ∈ computations m' → settled (config m') c).
Proof.
  intros Hwf Hrun. unfold Run in Hrun.
  destruct (RunLoops MatchAllReduceScatter m) as [st s] eqn:Hloops.
  destruct st; [|done..]. injection Hrun as <- <-.
  unfold RunLoops in Hloops.
  eapply (for_each_visited _ (run_swept m) _ _ _ []) in Hloops.
  - destruct Hloops as [Hconfig Hall].
    assert (∀ c, c ∈ computations (module s) → IsFusionComputation c = false →
                 settled (config (module s)) c) as Hsettled.
    { intros c Hc Hfusion. apply list_elem_of_lookup_1 in Hc as [index Hc].
      destruct (Hall index c Hc) as (c0 & Hc0 & Hflag & Hsame & Hrest).
      destruct (Hrest Hfusion) as [_ Hsettled]. rewrite Hconfig.
      apply Hsettled. simpl. apply elem_of_MakeNonfusionComputations.
      exists c0. split; [done|congruence]. }
    split_and!; [by apply Run_settled|done|].
    intros Hfused c Hc. destruct (IsFusionComputation c) eqn:Hfusion; [|auto].
    apply list_elem_of_lookup_1 in Hc as [index Hc].
    destruct (Hall index c Hc) as (c0 & Hc0 & Hflag & Hsame & Hrest).
    assert (c = c0) as -> by auto. intros x ar Hx Hop.
    destruct (Hfused c0 (list_elem_of_lookup_2 _ _ _ Hc0) Hfusion x ar);
      [by apply find_instruction_Some|done].
  - intros index v s0 s0' Hindex. by apply RunOnComputation_run_swept.
  - split; [done|]. simpl. intros index c Hc. exists c. split_and!; [done..|].
    intros Hfusion. split; [|by intros Hin; apply elem_of_nil in Hin].
    apply Hwf; [|done]. by eapply list_elem_of_lookup_2.
Qed.

Lemma second_run_changes_nothing_witness :
  Run MatchAllReduceScatter (Run MatchAllReduceScatter AllReplicas).2
  = (Value false, (Run MatchAllReduceScatter AllReplicas).2).
Proof.
  apply (second_run_changes_nothing AllReplicas
           (Run MatchAllReduceScatter AllReplicas).2 true).
  - intros c Hc _. apply well_formed_check_true.
    apply list_elem_of_In in Hc. destruct Hc as [<-|[<-|[]]]; evaluated.
  - evaluated.
Defined.

(** The run on [TwoChains], whose computations are well formed, ends with an
    internal error at the first all-reduce (2), which is the root; the slice
    of it (10) is gone by then and its reduce-scatter (13) is there. A second
    run returns true and changes the module again: it rewrites the second
    all-reduce (11). And the run on [Fused] returns false and leaves the
    module as it is, with an all-reduce in the fusion computation that still
    matches. *)
Lemma second_run_finds_work :
  well_formed_check sum = true
  ∧ well_formed_check TwoChains_entry = true
  ∧ (Run MatchAllReduceScatter TwoChains).1 = Error INTERNAL
  ∧ map handles (computations (Run MatchAllReduceScatter TwoChains).2)
    = [[1; 2; 3]; [1; 2; 3; 4; 5; 6; 7; 8; 9; 11; 12; 13]]%nat
  ∧ (Run MatchAllReduceScatter (Run MatchAllReduceScatter TwoChains).2).1
    = Value true
  ∧ map handles
        (computations
           (Run MatchAllReduceScatter (Run MatchAllReduceScatter TwoChains).2).2)
    = [[1; 2; 3]; [1; 2; 3; 4; 5; 6; 7; 8; 9; 13; 14]]%nat
  ∧ Run MatchAllReduceScatter Fused = (Value false, Fused)
  ∧ opcode <$> find_instruction Fused_computation 2%nat = Some kAllReduce
  ∧ MatchAllReduceScatter Fused_computation 2%nat 1 8 false true
    = Some (mkSpec 0 8 10%nat).
Proof. by vm_compute. Qed.

(** ** What a run does to a computation, whatever its outcome *)

(** What every call of the body keeps holds in the state a loop ends in,
    whether it ends with an error or not. *)
Lemma for_each_always {A S : Type} (body : A → S → Status * S)
    (I : S → Prop) l s :
  (∀ a s, a ∈ l → I s → I (body a s).2) → I s → I (for_each body l s).2.
Proof.
  revert s. induction l as [|a l IH]; intros s Hstep Hs; simpl; [done|].
  assert (I (body a s).2) as H1 by (apply Hstep; [left|done]).
  destruct (body a s) as [[] s1]; simpl in *; [|done..].
  apply IH; [|done]. intros b s2 Hb. apply Hstep. by right.
Qed.

Lemma next_removable_Some c worklist item rest :
  next_removable c worklist = Some (item, rest) → removable c item = true.
Proof.
  induction worklist as [|x worklist IH]; simpl; [done|].
  destruct (removable c x) eqn:Hx; [|done]. by intros [= <- _].
Qed.

(** The body of the loop either leaves the state alone or has found an
    all-reduce that the matcher accepts. *)
Lemma RunOnInstruction_cases matcher cfg h s :
  RunOnInstruction matcher cfg h s = (OK, s)
  ∨ ∃ ar ar_spec,
      find_instruction (computation s) h = Some ar
      ∧ opcode ar = kAllReduce
      ∧ matcher (computation s) h (num_partitions cfg) (replica_count cfg)
                false true = Some ar_spec.
Proof.
  destruct (find_instruction (computation s) h) as [ar|] eqn:Har;
    [|left; by apply RunOnInstruction_removed].
  destruct (decide (opcode ar = kAllReduce)) as [Hop|Hop];
    [|left; by eapply RunOnInstruction_other_opcode].
  destruct (matcher (computation s) h (num_partitions cfg) (replica_count cfg)
                    false true) as [ar_spec|] eqn:Hm;
    [|left; by apply RunOnInstruction_no_match].
  right. eauto.
Qed.

Lemma AddInstruction_handle i c :
  (AddInstruction i c).1 ∈ handles (AddInstruction i c).2.
Proof.
  rewrite handles_AddInstruction. apply elem_of_app. right.
  by apply list_elem_of_singleton.
Qed.

Lemma result_in_add_replacement c h ar ar_spec ds channel :
  (add_replacement c h ar ar_spec ds channel).1
  ∈ handles (add_replacement c h ar ar_spec ds channel).2.
Proof.
  unfold add_replacement.
  destruct (intervening_reshape h ds); apply AddInstruction_handle.
Qed.

(** A relation between computations that the mutations of the pass keep. *)
Section Related.
Variable matcher :
  HloComputation → handle → Z → Z → bool → bool → option AllReduceScatterSpec.
Variable R : HloComputation → HloComputation → Prop.
Hypothesis R_refl : ∀ c, R c c.
Hypothesis R_trans : ∀ c1 c2 c3, R c1 c2 → R c2 c3 → R c1 c3.
Hypothesis R_scatter :
  ∀ c h ar ar_spec channel,
    find_instruction c h = Some ar →
    R c (AddInstruction (scatter_instruction ar ar_spec channel) c).2.
Hypothesis R_reshape :
  ∀ c sh o, o ∈ handles c → R c (AddInstruction (CreateReshape sh o) c).2.
Hypothesis R_replace :
  ∀ old new c, new ∈ handles c → R c (ReplaceAllUsesWith old new c).2.
Hypothesis R_erase : ∀ x c, removable c x = true → R c (erase x c).

Lemma related_prune rounds worklist c : R c (prune rounds worklist c).
Proof.
  revert worklist c. induction rounds as [|n IH]; intros worklist c; simpl; [done|].
  destruct (next_removable c worklist) as [[item rest]|] eqn:Hnext; [|done].
  eapply R_trans; [|apply IH]. eapply R_erase, next_removable_Some, Hnext.
Qed.

Lemma related_RemoveInstruction x c : R c (RemoveInstruction x c).2.
Proof.
  unfold RemoveInstruction. destruct (removable c x) eqn:Hx; simpl; auto.
Qed.

Lemma related_RemoveInstructionAndUnusedOperands x c :
  R c (RemoveInstructionAndUnusedOperands x c).2.
Proof.
  unfold RemoveInstructionAndUnusedOperands.
  destruct (removable c x) eqn:Hx; simpl; [|done].
  eapply R_trans; [by apply R_erase|apply related_prune].
Qed.

Lemma related_TF_RETURN_IF_ERROR (f g : Mutation) c :
  R c (f c).2 → (∀ c, R c (g c).2) → R c ((f >> g) c).2.
Proof.
  intros Hf Hg. unfold TF_RETURN_IF_ERROR.
  destruct (f c) as [[] c1]; simpl in *; [|done..].
  eapply R_trans; [done|apply Hg].
Qed.

Lemma related_RemoveDeadInstructions ds result reshape h c :
  result ∈ handles c → R c (RemoveDeadInstructions ds result reshape h c).2.
Proof.
  intros Hresult. unfold RemoveDeadInstructions.
  apply related_TF_RETURN_IF_ERROR; [by apply R_replace|].
  intros c1. apply related_TF_RETURN_IF_ERROR; [apply related_RemoveInstruction|].
  intros c2. apply related_TF_RETURN_IF_ERROR.
  - destruct reshape; simpl; [apply related_RemoveInstruction|done].
  - apply related_RemoveInstructionAndUnusedOperands.
Qed.

Lemma related_add_replacement c h ar ar_spec ds channel :
  find_instruction c h = Some ar →
  R c (add_replacement c h ar ar_spec ds channel).2.
Proof.
  intros Har. unfold add_replacement. destruct (intervening_reshape h ds).
  - eapply R_trans; [by eapply R_scatter|]. apply R_reshape.
    apply AddInstruction_handle.
  - by eapply R_scatter.
Qed.

Lemma RunOnInstruction_related cfg h s :
  R (computation s) (computation (RunOnInstruction matcher cfg h s).2).
Proof.
  destruct (RunOnInstruction_cases matcher cfg h s)
    as [->|(ar & ar_spec & Har & Hop & Hm)]; [done|].
  rewrite (RunOnInstruction_matched matcher cfg s h ar ar_spec Har Hop Hm).
  destruct (dimensions_at _ _) as [dim|]; [|done].
  destruct (group_size ar_spec =? 0); [done|].
  destruct (negb _); [done|]. cbv zeta.
  destruct (find_instruction _ (dynamic_slice ar_spec)) as [ds|];
    [|by eapply R_scatter].
  destruct (operand ds 0); [|by eapply R_scatter].
  assert (R (computation s)
            (RemoveDeadInstructions (dynamic_slice ar_spec)
               (add_replacement (computation s) h ar ar_spec ds
                  (scatter_channel ar (next_channel_id s)).1).1
               (intervening_reshape h ds) h
               (add_replacement (computation s) h ar ar_spec ds
                  (scatter_channel ar (next_channel_id s)).1).2).2) as H.
  { eapply R_trans; [by apply related_add_replacement|].
    apply related_RemoveDeadInstructions, result_in_add_replacement. }
  by destruct (RemoveDeadInstructions _ _ _ _ _) as [[] c'].
Qed.

Lemma sweep_related cfg l s :
  R (computation s) (computation (for_each (RunOnInstruction matcher cfg) l s).2).
Proof.
  apply (for_each_always _ (λ s', R (computation s) (computation s'))); [|done].
  intros h s1 _ H1. eapply R_trans; [exact H1|apply RunOnInstruction_related].
Qed.

Lemma left_or_refl c : left_or R c c.
Proof. unfold left_or. by destruct (IsFusionComputation c). Qed.

(** [Run] keeps the configuration and the fusion computations, and takes
    every other computation to a related one, whether it ends with an error
    or not. *)
Lemma Run_related m :
  config (Run matcher m).2 = config m
  ∧ Forall2 (left_or R) (computations m) (computations (Run matcher m).2).
Proof.
  assert ((Run matcher m).2 = module (RunLoops matcher m).2) as ->.
  { unfold Run. by destruct (RunLoops matcher m) as [[] s]. }
  unfold RunLoops.
  apply (for_each_always _
           (λ s, config (module s) = config m
                 ∧ Forall2 (left_or R) (computations m) (computations (module s)))).
  - intros index s Hindex [Hcfg Hcs].
    apply elem_of_MakeNonfusionComputations in Hindex as (c0 & Hc0 & Hf).
    destruct (computations (module s) !! index) as [c|] eqn:Hc.
    + rewrite (RunOnComputation_result matcher index s c Hc). simpl.
      split; [done|].
      rewrite <- (list_insert_id (computations m) index c0 Hc0).
      apply Forall2_insert; [done|].
      assert (left_or R c0 c) as H0.
      { eapply Forall2_lookup_lr; [exact Hcs|exact Hc0|exact Hc]. }
      unfold left_or in *. rewrite Hf in *.
      eapply R_trans; [exact H0|].
      apply (sweep_related (config (module s)) (MakeInstructionPostOrder c)
               (mkLoop c (run_next_channel_id s) (run_changed s))).
    + unfold RunOnComputation. by rewrite Hc.
  - simpl. split; [done|]. apply Forall_Forall2_diag, Forall_forall.
    intros c _. apply left_or_refl.
Qed.
End Related.

(** ** Instructions are replaced, nothing else *)

Lemma with_operands_same i : i = with_operands (operands i) i.
Proof. by destruct i. Qed.

Lemma replaced_refl c : replaced c c.
Proof. intros x i Hin. left. exists i. split; [done|apply with_operands_same]. Qed.

Lemma replaced_trans c1 c2 c3 : replaced c1 c2 → replaced c2 c3 → replaced c1 c3.
Proof.
  intros H1 H2 x i3 Hin.
  destruct (H2 x i3 Hin) as [(i2 & Hin2 & Hi3)|Hnew].
  - destruct (H1 x i2 Hin2) as [(i1 & Hin1 & Hi2)|Hnew].
    + left. exists i1. split; [done|]. rewrite Hi3, Hi2. done.
    + right. rewrite Hi3. done.
  - by right.
Qed.

Lemma replaced_AddInstruction i c :
  opcode i = kAllReduceScatter ∨ opcode i = kReshape →
  replaced c (AddInstruction i c).2.
Proof.
  intros Hop x i' Hin. unfold AddInstruction in Hin. simpl in Hin.
  apply elem_of_app in Hin as [Hin|Hin].
  - left. exists i'. split; [done|apply with_operands_same].
  - apply list_elem_of_singleton in Hin as [= -> ->]. by right.
Qed.

Lemma replaced_ReplaceAllUsesWith old new c :
  replaced c (ReplaceAllUsesWith old new c).2.
Proof.
  intros x i' Hin. rewrite instructions_ReplaceAllUsesWith in Hin.
  apply list_elem_of_fmap in Hin as ([y i] & [= -> ->] & Hin).
  left. exists i. done.
Qed.

Lemma replaced_erase x c : replaced c (erase x c).
Proof.
  intros y i Hin. rewrite instructions_erase in Hin.
  apply list_elem_of_filter in Hin as [_ Hin].
  left. exists i. split; [done|apply with_operands_same].
Qed.

(** X4. Whatever the matcher accepts and however the run ends, with a value
    or with an error, every instruction a computation holds after [Run] is an
    instruction it held before, under the same handle and with the same
    opcode, shape and attributes, at most its operands changed, or it is a
    reduce-scatter or a reshape: the pass adds nothing else and alters nothing
    but operand lists. *)
Theorem Run_replaces_only matcher m index c' :
  computations (Run matcher m).2 !! index = Some c' →
  ∃ c, computations m !! index = Some c ∧ replaced c c'.
Proof.
  intros Hc'.
  destruct (Run_related matcher replaced replaced_refl replaced_trans) with (m := m)
    as [_ Hcs].
  - intros c h ar ar_spec channel _. apply replaced_AddInstruction. by left.
  - intros c sh o _. apply replaced_AddInstruction. by right.
  - intros old new c _. apply replaced_ReplaceAllUsesWith.
  - intros x c _. apply replaced_erase.
  - destruct (Forall2_lookup_r _ _ _ _ _ Hcs Hc') as (c & Hc & H).
    exists c. split; [done|]. unfold left_or in H.
    destruct (IsFusionComputation c); [subst; apply replaced_refl|done].
Qed.

(** ** The configuration and the fusion computations *)

(** X3. Whatever the matcher accepts and however the run ends, [Run] leaves
    the module's configuration and the number and order of its computations
    as they were; a fusion computation is left exactly as it was, and a
    computation that is not one stays one that is not. *)
Theorem Run_keeps_fusion_computations matcher m :
  config (Run matcher m).2 = config m
  ∧ Forall2 (λ c c', if IsFusionComputation c then c' = c
                     else IsFusionComputation c' = false)
            (computations m) (computations (Run matcher m).2).
Proof.
  destruct (Run_related matcher
              (λ c c', IsFusionComputation c' = IsFusionComputation c))
    with (m := m) as [Hcfg Hcs]; try done.
  - intros c1 c2 c3 H1 H2. congruence.
  - split; [done|]. eapply list.Forall2_impl; [exact Hcs|].
    intros c c' H. unfold left_or in H.
    destruct (IsFusionComputation c); done.
Qed.

(** ** Nothing dangles *)

Lemma references_closed_check_true c :
  references_closed_check c = true → references_closed c.
Proof.
  unfold references_closed_check, references_closed, operands_closed.
  rewrite andb_true_iff, forallb_forall, bool_decide_eq_true.
  intros [Hops Hroot]. split; [|done]. intros h i o Hin Ho.
  apply list_elem_of_In in Hin. specialize (Hops _ Hin). simpl in Hops.
  rewrite forallb_forall in Hops. apply list_elem_of_In in Ho.
  specialize (Hops _ Ho). by apply bool_decide_eq_true in Hops.
Qed.

Lemma closed_AddInstruction i c :
  (references_closed c → ∀ o, o ∈ operands i → o ∈ handles c) →
  references_closed c → references_closed (AddInstruction i c).2.
Proof.
  intros Hi Hc. pose proof Hc as [Hops Hroot]. split.
  - intros x i' o Hin Ho. rewrite handles_AddInstruction, elem_of_app.
    unfold AddInstruction in Hin. simpl in Hin.
    apply elem_of_app in Hin as [Hin|Hin]; [left; by eapply Hops|].
    apply list_elem_of_singleton in Hin as [= -> ->]. left. by apply Hi.
  - rewrite handles_AddInstruction, elem_of_app. by left.
Qed.

Lemma closed_ReplaceAllUsesWith old new c :
  new ∈ handles c →
  references_closed c → references_closed (ReplaceAllUsesWith old new c).2.
Proof.
  intros Hnew [Hops Hroot]. split.
  - intros x i' o Hin Ho. rewrite handles_ReplaceAllUsesWith.
    rewrite instructions_ReplaceAllUsesWith in Hin.
    apply list_elem_of_fmap in Hin as ([y i] & [= -> ->] & Hin).
    rewrite operands_replace_operand in Ho.
    apply list_elem_of_fmap in Ho as (o' & -> & Ho').
    case_decide; [done|]. by eapply Hops.
  - rewrite handles_ReplaceAllUsesWith. simpl. by case_decide.
Qed.

Lemma closed_erase x c :
  removable c x = true → references_closed c → references_closed (erase x c).
Proof.
  intros Hx [Hops Hroot]. split.
  - intros y i o Hin Ho. rewrite instructions_erase in Hin.
    apply list_elem_of_filter in Hin as [_ Hin].
    apply handles_erase. split; [by eapply Hops|].
    intros ->. apply removable_users in Hx.
    by eapply users_nil in Hx.
  - apply handles_erase. split; [done|]. exact (removable_root c x Hx).
Qed.

(** X5. Whatever the matcher accepts and however the run ends, [Run] leaves
    nothing dangling: a computation in which every operand and the root
    designation name instructions of the computation is still such a
    computation afterwards. An instruction is removed only once nothing uses
    it, and uses move only to instructions that have been added. *)
Theorem Run_leaves_nothing_dangling matcher m index c c' :
  computations m !! index = Some c →
  references_closed c →
  computations (Run matcher m).2 !! index = Some c' →
  references_closed c'.
Proof.
  intros Hc Hclosed Hc'.
  destruct (Run_related matcher (λ c c', references_closed c → references_closed c'))
    with (m := m) as [_ Hcs].
  - done.
  - intros c1 c2 c3 H1 H2 H. auto.
  - intros c1 h ar ar_spec channel Har. apply closed_AddInstruction.
    intros [Hops _] o Ho. eapply Hops; [by apply find_instruction_Some|done].
  - intros c1 sh o Ho. apply closed_AddInstruction. simpl.
    intros _ o' Ho'. by apply list_elem_of_singleton in Ho' as ->.
  - intros old new c1. apply closed_ReplaceAllUsesWith.
  - intros x c1. apply closed_erase.
  - pose proof (Forall2_lookup_lr _ _ _ _ _ _ Hcs Hc Hc') as H.
    unfold left_or in H. destruct (IsFusionComputation c); [by subst|auto].
Qed.

(** ** Counting all-reduces *)

Lemma AllReduceCount_AddInstruction i c :
  opcode i ≠ kAllReduce →
  AllReduceCount (AddInstruction i c).2 = AllReduceCount c.
Proof.
  intros Hop. unfold AllReduceCount, AddInstruction. simpl.
  rewrite list.filter_app, length_app, filter_cons, decide_False; [simpl; lia|].
  done.
Qed.

Lemma AllReduceCount_add_replacement c h ar ar_spec ds channel :
  AllReduceCount (add_replacement c h ar ar_spec ds channel).2 = AllReduceCount c.
Proof.
  unfold add_replacement. destruct (intervening_reshape h ds).
  - rewrite !AllReduceCount_AddInstruction; done.
  - rewrite !AllReduceCount_AddInstruction; done.
Qed.

Lemma AllReduceCount_ReplaceAllUsesWith old new c :
  AllReduceCount (ReplaceAllUsesWith old new c).2 = AllReduceCount c.
Proof.
  unfold AllReduceCount. rewrite instructions_ReplaceAllUsesWith.
  induction (instructions c) as [|[y i] l IH]; [done|].
  rewrite fmap_cons, !filter_cons. simpl.
  repeat case_decide; simpl; try lia; tauto.
Qed.

Lemma AllReduceCount_erase x c :
  (AllReduceCount (erase x c) ≤ AllReduceCount c)%nat.
Proof.
  unfold AllReduceCount. rewrite instructions_erase.
  apply length_filter_filter_le.
Qed.

Lemma AllReduceCount_erase_lt x c i :
  find_instruction c x = Some i → opcode i = kAllReduce →
  (AllReduceCount (erase x c) < AllReduceCount c)%nat.
Proof.
  intros Hfind Hop. unfold AllReduceCount. rewrite instructions_erase.
  eapply (length_filter_filter_lt _ _ _ (x, i)).
  - by apply find_instruction_Some.
  - done.
  - simpl. auto.
Qed.

Lemma AllReduceCount_prune rounds worklist c :
  (AllReduceCount (prune rounds worklist c) ≤ AllReduceCount c)%nat.
Proof.
  apply (related_prune (λ c c', (AllReduceCount c' ≤ AllReduceCount c)%nat)).
  - intros. lia.
  - intros. lia.
  - intros y c1 _. apply AllReduceCount_erase.
Qed.

Lemma sum_list_with_insert {A : Type} (f : A → nat) l index x y :
  l !! index = Some x →
  (sum_list_with f (<[index := y]> l) + f x = sum_list_with f l + f y)%nat.
Proof.
  intros Hx. rewrite <- (take_drop_middle l index x Hx) at 2.
  rewrite insert_take_drop by (by eapply lookup_lt_Some).
  rewrite !sum_list_with_app. simpl. lia.
Qed.

(** A completed removal sequence takes the all-reduce with it. *)
Lemma RemoveDeadInstructions_fewer ds result reshape h c c' i :
  RemoveDeadInstructions ds result reshape h c = (OK, c') →
  find_instruction c h = Some i → opcode i = kAllReduce →
  (AllReduceCount c' < AllReduceCount c)%nat.
Proof.
  unfold RemoveDeadInstructions. intros H Hfind Hop.
  apply TF_RETURN_IF_ERROR_OK in H as (c3 & H3 & H).
  apply TF_RETURN_IF_ERROR_OK in H as (c4 & H4 & H).
  apply TF_RETURN_IF_ERROR_OK in H as (c5 & H5 & H).
  unfold RemoveInstructionAndUnusedOperands in H.
  destruct (removable c5 h) eqn:Hrem; [|done]. inversion H as [Hc']. clear H.
  assert (c3 = (ReplaceAllUsesWith ds result c).2) as Hc3 by by rewrite H3.
  apply RemoveInstruction_OK in H4 as [_ Hc4].
  assert (AllReduceCount c5 ≤ AllReduceCount c4)%nat as H54.
  { destruct reshape as [r|]; simpl in H5.
    - apply RemoveInstruction_OK in H5 as [_ ->]. apply AllReduceCount_erase.
    - by inversion H5. }
  assert (AllReduceCount c4 ≤ AllReduceCount c)%nat as H4c.
  { rewrite Hc4, <- (AllReduceCount_ReplaceAllUsesWith ds result c), <- Hc3.
    apply AllReduceCount_erase. }
  apply removable_handles, find_instruction_handles in Hrem as [i5 Hi5].
  assert (opcode i5 = kAllReduce) as Hop5.
  { assert (∃ i4, find_instruction c4 h = Some i4 ∧ i5 = i4) as (i4 & Hi4 & ->).
    { destruct reshape as [r|]; simpl in H5.
      - apply RemoveInstruction_OK in H5 as [_ ->].
        apply find_instruction_erase_Some in Hi5 as [_ ?]. eauto.
      - inversion H5; subst. eauto. }
    rewrite Hc4 in Hi4. apply find_instruction_erase_Some in Hi4 as [_ Hi3].
    rewrite Hc3, find_instruction_ReplaceAllUsesWith, Hfind in Hi3.
    inversion Hi3. done. }
  pose proof (AllReduceCount_prune (length (instructions c5))
                (default [] (operands <$> find_instruction c5 h)) (erase h c5)).
  pose proof (AllReduceCount_erase_lt h c5 i5 Hi5 Hop5). lia.
Qed.

(** ** The flag and the all-reduces *)

(** A call of the body that returns leaves the state alone, or sets the flag
    and has removed an all-reduce. *)
Lemma RunOnInstruction_progress matcher cfg h s s' :
  RunOnInstruction matcher cfg h s = (OK, s') →
  s' = s
  ∨ changed s' = true
    ∧ (AllReduceCount (computation s') < AllReduceCount (computation s))%nat.
Proof.
  destruct (RunOnInstruction_cases matcher cfg h s)
    as [->|(ar & ar_spec & Har & Hop & Hm)]; [intros [= <-]; by left|].
  rewrite (RunOnInstruction_matched matcher cfg s h ar ar_spec Har Hop Hm).
  destruct (dimensions_at _ _) as [dim|]; [|done].
  destruct (group_size ar_spec =? 0); [done|].
  destruct (negb _); [done|]. cbv zeta.
  destruct (find_instruction _ (dynamic_slice ar_spec)) as [ds|]; [|done].
  destruct (operand ds 0); [|done].
  destruct (RemoveDeadInstructions _ _ _ _ _) as [[] c'] eqn:Hdead; [|done..].
  intros [= <-]. right. split; [done|]. simpl.
  rewrite <- (AllReduceCount_add_replacement (computation s) h ar ar_spec ds
                (scatter_channel ar (next_channel_id s)).1).
  eapply RemoveDeadInstructions_fewer; [exact Hdead| |exact Hop].
  rewrite find_add_replacement_old; [done|].
  apply find_instruction_handles. eauto.
Qed.

Lemma sweep_progress matcher cfg l s s' :
  for_each (RunOnInstruction matcher cfg) l s = (OK, s') →
  s' = s
  ∨ changed s' = true
    ∧ (AllReduceCount (computation s') < AllReduceCount (computation s))%nat.
Proof.
  apply (for_each_invariant _
           (λ s', s' = s
                  ∨ changed s' = true
                    ∧ (AllReduceCount (computation s')
                       < AllReduceCount (computation s))%nat)); [|by left].
  intros h s1 s2 H1 H2.
  destruct (RunOnInstruction_progress matcher cfg h s1 s2 H2) as [->|[Hflag Hlt]];
    [done|].
  right. split; [done|]. destruct H1 as [->|[_ H1]]; lia.
Qed.

Lemma RunOnComputation_progress matcher index s s' :
  RunOnComputation matcher index s = (OK, s') →
  s' = s
  ∨ run_changed s' = true
    ∧ (module_all_reduces (module s') < module_all_reduces (module s))%nat.
Proof.
  destruct (computations (module s) !! index) as [c|] eqn:Hc.
  - rewrite (RunOnComputation_result matcher index s c Hc).
    destruct (for_each _ _ _) as [st l] eqn:Hloop. simpl. intros [= -> <-].
    destruct (sweep_progress _ _ _ _ _ Hloop) as [->|[Hflag Hlt]].
    + left. unfold module_during. simpl.
      rewrite list_insert_id by done. rewrite module_eta. by destruct s.
    + right. split; [done|]. simpl in *. unfold module_all_reduces. simpl.
      pose proof (sum_list_with_insert AllReduceCount (computations (module s))
                    index c (computation l) Hc). lia.
  - unfold RunOnComputation. rewrite Hc. intros [= <-]. by left.
Qed.

Lemma RunLoops_progress matcher m s :
  RunLoops matcher m = (OK, s) →
  s = mkRun m (NextChannelId m) false
  ∨ run_changed s = true
    ∧ (module_all_reduces (module s) < module_all_reduces m)%nat.
Proof.
  unfold RunLoops.
  apply (for_each_invariant _
           (λ s, s = mkRun m (NextChannelId m) false
                 ∨ run_changed s = true
                   ∧ (module_all_reduces (module s) < module_all_reduces m)%nat));
    [|by left].
  intros index s1 s2 H1 H2.
  destruct (RunOnComputation_progress matcher index s1 s2 H2) as [->|[Hflag Hlt]];
    [done|].
  right. split; [done|]. destruct H1 as [->|[_ H1]]; simpl in *; lia.
Qed.

Lemma Run_Value matcher m flag m' :
  Run matcher m = (Value flag, m') →
  ∃ s, RunLoops matcher m = (OK, s) ∧ run_changed s = flag ∧ module s = m'.
Proof.
  unfold Run. destruct (RunLoops matcher m) as [[] s]; [|done..].
  intros [= <- <-]. eauto.
Qed.

(** X1. Whatever the matcher accepts, a run that returns changed = false has
    left the module exactly as it was: the flag is set by the only path that
    alters anything, and nothing clears it. *)
Theorem Run_false_leaves_module matcher m m' :
  Run matcher m = (Value false, m') → m' = m.
Proof.
  intros H. apply Run_Value in H as (s & Hloops & Hflag & <-).
  destruct (RunLoops_progress matcher m s Hloops) as [->|[Htrue _]]; [done|].
  congruence.
Qed.

(** X2. Whatever the matcher accepts, a run that returns changed = true has
    left the module with strictly fewer all-reduce instructions than it had:
    every completed rewrite removes the all-reduce it rewrites, and what is
    added is never an all-reduce. *)
Theorem Run_true_removes_all_reduce matcher m m' :
  Run matcher m = (Value true, m') →
  (module_all_reduces m' < module_all_reduces m)%nat.
Proof.
  intros H. apply Run_Value in H as (s & Hloops & Hflag & <-).
  destruct (RunLoops_progress matcher m s Hloops) as [->|[_ Hlt]]; [done|].
  exact Hlt.
Qed.

(** X6. Whatever the matcher accepts and however the run ends, with a value
    or with an error, no computation holds more all-reduce instructions after
    [Run] than before. *)
Theorem Run_adds_no_all_reduce matcher m :
  Forall2 (λ c c', (AllReduceCount c' ≤ AllReduceCount c)%nat)
          (computations m) (computations (Run matcher m).2).
Proof.
  destruct (Run_related matcher
              (λ c c', (AllReduceCount c' ≤ AllReduceCount c)%nat))
    with (m := m) as [_ Hcs].
  - intros. lia.
  - intros. lia.
  - intros c h ar ar_spec channel _. by rewrite AllReduceCount_AddInstruction.
  - intros c sh o _. by rewrite AllReduceCount_AddInstruction.
  - intros old new c _. by rewrite AllReduceCount_ReplaceAllUsesWith.
  - intros x c _. apply AllReduceCount_erase.
  - eapply list.Forall2_impl; [exact Hcs|].
    intros c c' H. unfold left_or in H.
    destruct (IsFusionComputation c); [by subst|done].
Qed.

(** ** The helper of the tests *)

(** X7. Whatever the matcher accepts: when [RunPass] of the tests returns a
    module and its expectation on the flag held, the module is the parsed
    one under the configuration built from the replica and partition counts
    if no change was expected, and it holds strictly fewer all-reduce
    instructions than the parsed one if a change was expected. *)
Theorem RunPass_expectation matcher parsed num_replicas num_partitions
    expect_change module :
  RunPass matcher parsed num_replicas num_partitions expect_change
  = (Value module, true) →
  if expect_change
  then (module_all_reduces module < sum_list_with AllReduceCount parsed)%nat
  else module = mkModule (mkConfig num_partitions num_replicas) parsed.
Proof.
  unfold RunPass.
  destruct (Run matcher _) as [[flag|st] m'] eqn:Hrun; [|done].
  intros [= <- Hheld]. apply bool_decide_eq_true in Hheld as <-.
  apply Run_Value in Hrun as (s & Hloops & Hflag & <-).
  destruct (RunLoops_progress matcher _ s Hloops) as [->|[Htrue Hlt]].
  - simpl in Hflag. by subst.
  - rewrite Htrue in Hflag. subst. exact Hlt.
Qed.

(** ** The ids drawn in a run are consecutive *)

Lemma seqZ_next (first : Z) (ids : list Z) :
  ids = seqZ (first + 1) (Z.of_nat (length ids)) →
  first :: ids = seqZ first (Z.of_nat (length (first :: ids))).
Proof.
  intros H. rewrite seqZ_cons by (simpl; lia).
  f_equal. rewrite H at 1. f_equal; simpl; lia.
Qed.

Lemma seqZ_append (first : Z) (ids1 ids2 : list Z) :
  ids1 = seqZ first (Z.of_nat (length ids1)) →
  ids2 = seqZ (first + Z.of_nat (length ids1)) (Z.of_nat (length ids2)) →
  ids1 ++ ids2 = seqZ first (Z.of_nat (length (ids1 ++ ids2))).
Proof.
  intros H1 H2. rewrite length_app, Nat2Z.inj_add, seqZ_app by lia.
  by rewrite <- H1, <- H2.
Qed.

Lemma omap_step {A B : Type} (f : A → option B) x l :
  omap f (x :: l) = match f x with Some y => y :: omap f l | None => omap f l end.
Proof. done. Qed.

Section Consecutive.
Variable matcher :
  HloComputation → handle → Z → Z → bool → bool → option AllReduceScatterSpec.
Variable first : Z.

(** The ids drawn during a sweep are the values of the counter from its start
    on, one after the other, and the counter ends after the last of them. *)
Lemma sweep_draws_consecutive cfg other_ids other_all_reduces l s :
  counter_ahead first other_ids other_all_reduces s →
  let log := for_each_log (RunOnInstruction matcher cfg) l s in
  let ids := omap (λ e : handle * LoopState * (Status * LoopState),
                     drawn e.1.2 e.2.2) log in
  let final := (for_each (RunOnInstruction matcher cfg) l s).2 in
  ids = seqZ (next_channel_id s) (Z.of_nat (length ids))
  ∧ next_channel_id final = next_channel_id s + Z.of_nat (length ids).
Proof.
  revert s. induction l as [|h l IH]; intros s Hinv; cbv zeta.
  - simpl. split; [done|lia].
  - cbn [for_each for_each_log].
    destruct (RunOnInstruction matcher cfg h s) as [st s1] eqn:Hrun.
    pose proof (drawn_step matcher first _ _ _ _ _ _ _ Hinv Hrun) as Hdrawn.
    pose proof (RunOnInstruction_counter matcher cfg first other_ids
                  other_all_reduces h s st s1 Hinv Hrun) as [Hinv1 _].
    rewrite !omap_step. cbn [fst snd]. destruct st.
    + specialize (IH s1 (Hinv1 eq_refl)). cbv zeta in IH.
      destruct IH as [IHids IHn].
      destruct Hdrawn as [[-> Hn]|[-> Hn]].
      * rewrite Hn in *. done.
      * rewrite Hn in *. split; [by apply seqZ_next|].
        rewrite IHn. simpl length. lia.
    + destruct Hdrawn as [[-> Hn]|[-> Hn]]; simpl.
      * split; [done|lia].
      * split; [done|lia].
    + destruct Hdrawn as [[-> Hn]|[-> Hn]]; simpl.
      * split; [done|lia].
      * split; [done|lia].
Qed.

Lemma visits_of_consecutive index s :
  run_ahead first s →
  let ids := omap minted (visits_of matcher index s) in
  let final := (RunOnComputation matcher index s).2 in
  ids = seqZ (run_next_channel_id s) (Z.of_nat (length ids))
  ∧ run_next_channel_id final
    = run_next_channel_id s + Z.of_nat (length ids).
Proof.
  intros Hinv. unfold visits_of.
  destruct (computations (module s) !! index) as [c|] eqn:Hc; simpl.
  2:{ unfold RunOnComputation. rewrite Hc. simpl. split; [done|lia]. }
  rewrite (RunOnComputation_result matcher index s c Hc). simpl.
  pose proof (run_ahead_sweep first s index c Hinv Hc) as Hloop.
  pose proof (sweep_draws_consecutive (config (module s)) _ _
                (MakeInstructionPostOrder c) _ Hloop) as Hids.
  simpl in Hids.
  assert (∀ log : list (handle * LoopState * (Status * LoopState)),
            omap minted (map (λ e, mkVisit (module_during s index e.1.2) index
                                     e.1.1 e.1.2 e.2.1 e.2.2) log)
            = omap (λ e, drawn e.1.2 e.2.2) log) as Homap.
  { intros log. induction log as [|e log IH]; [done|].
    cbn [map omap list_omap]. rewrite IH. done. }
  rewrite Homap. exact Hids.
Qed.

Lemma visits_consecutive l s :
  run_ahead first s →
  let ids := omap minted
               (flat_map (λ e : nat * RunState * (Status * RunState),
                            visits_of matcher e.1.1 e.1.2)
                         (for_each_log (RunOnComputation matcher) l s)) in
  ids = seqZ (run_next_channel_id s) (Z.of_nat (length ids)).
Proof.
  revert s. induction l as [|index l IH]; intros s Hinv; simpl; [done|].
  pose proof (visits_of_consecutive index s Hinv) as [Hids Hn].
  cbv zeta in Hids, Hn.
  destruct (RunOnComputation matcher index s) as [st s1] eqn:Hrun.
  cbn [fst snd] in *. rewrite omap_app.
  apply seqZ_append; [done|]. rewrite <- Hn.
  destruct st; [|done..].
  apply IH. by eapply RunOnComputation_ahead.
Qed.
End Consecutive.

(** X8. The channel ids a run draws for its new reduce-scatters are
    consecutive: the first is the module's next channel id at the start of the
    run, and each one after is the one before plus one, in the order of the
    rewrites, whatever the matcher accepts and also when the run ends with an
    error. The ids are int64 values: the module's ids are below [int64_max],
    with room for one new id per all-reduce that carries one. *)
Theorem new_channel_ids_are_consecutive matcher m :
  (∀ id, id ∈ channel_ids m → int64_min ≤ id < int64_max) →
  NextChannelId m + Z.of_nat (module_channel_all_reduces m) ≤ int64_max →
  omap minted (visits matcher m)
  = seqZ (NextChannelId m) (Z.of_nat (length (omap minted (visits matcher m)))).
Proof.
  intros Hrange Hroom.
  apply (visits_consecutive matcher (NextChannelId m)
           (MakeNonfusionComputations m) (mkRun m (NextChannelId m) false)).
  by apply run_ahead_initially.
Qed.

(** ** Channel ids stay unique *)

Lemma omap_sublist {A B : Type} (f : A → option B) l1 l2 :
  l1 `sublist_of` l2 → omap f l1 `sublist_of` omap f l2.
Proof.
  induction 1 as [|x l1 l2 _ IH|x l1 l2 _ IH]; [done| |].
  - rewrite !omap_step. destruct (f x); [by constructor|done].
  - rewrite omap_step. destruct (f x); [by constructor|done].
Qed.

Lemma channel_ids_of_erase x c :
  channel_ids_of (erase x c) `sublist_of` channel_ids_of c.
Proof.
  unfold channel_ids_of. rewrite instructions_erase.
  apply omap_sublist, sublist_filter.
Qed.

Lemma channel_ids_of_ReplaceAllUsesWith old new c :
  channel_ids_of (ReplaceAllUsesWith old new c).2 = channel_ids_of c.
Proof.
  unfold channel_ids_of. rewrite instructions_ReplaceAllUsesWith.
  induction (instructions c) as [|[y i] l IH]; [done|].
  rewrite fmap_cons, !omap_step, IH. done.
Qed.

Lemma channel_ids_of_AddInstruction i c :
  channel_ids_of (AddInstruction i c).2
  = channel_ids_of c ++ option_list (channel_id i).
Proof.
  unfold channel_ids_of, AddInstruction. simpl. rewrite omap_app.
  by f_equal.
Qed.

Lemma channel_ids_of_add_replacement c h ar ar_spec ds channel :
  channel_ids_of (add_replacement c h ar ar_spec ds channel).2
  = channel_ids_of c ++ option_list channel.
Proof.
  unfold add_replacement. destruct (intervening_reshape h ds).
  - rewrite !channel_ids_of_AddInstruction. simpl. by rewrite app_nil_r.
  - by rewrite channel_ids_of_AddInstruction.
Qed.

(** The removals add no channel id, however far they get. *)
Lemma channel_ids_of_RemoveDeadInstructions ds result reshape h c :
  channel_ids_of (RemoveDeadInstructions ds result reshape h c).2
  `sublist_of` channel_ids_of c.
Proof.
  unfold RemoveDeadInstructions.
  apply (related_TF_RETURN_IF_ERROR
           (λ c c', channel_ids_of c' `sublist_of` channel_ids_of c)).
  { intros c1 c2 c3 H1 H2. by etrans. }
  { by rewrite channel_ids_of_ReplaceAllUsesWith. }
  intros c1.
  assert (∀ x c, channel_ids_of (RemoveInstruction x c).2
                 `sublist_of` channel_ids_of c) as Hremove.
  { intros x c2. unfold RemoveInstruction.
    destruct (removable c2 x); simpl; [apply channel_ids_of_erase|done]. }
  apply (related_TF_RETURN_IF_ERROR
           (λ c c', channel_ids_of c' `sublist_of` channel_ids_of c)).
  { intros c2 c3 c4 H1 H2. by etrans. }
  { apply Hremove. }
  intros c2.
  apply (related_TF_RETURN_IF_ERROR
           (λ c c', channel_ids_of c' `sublist_of` channel_ids_of c)).
  { intros c3 c4 c5 H1 H2. by etrans. }
  { destruct reshape; simpl; [apply Hremove|done]. }
  intros c3.
  apply (related_RemoveInstructionAndUnusedOperands
           (λ c c', channel_ids_of c' `sublist_of` channel_ids_of c)).
  - done.
  - intros c4 c5 c6 H1 H2. by etrans.
  - intros x c4 _. apply channel_ids_of_erase.
Qed.

Section Unique.
Variable matcher :
  HloComputation → handle → Z → Z → bool → bool → option AllReduceScatterSpec.
Variables (cfg : HloModuleConfig) (first : Z) (other_ids : list Z)
          (other_all_reduces : nat).

Lemma RunOnInstruction_unique h s s' :
  counter_ahead first other_ids other_all_reduces s →
  NoDup (channel_ids_of (computation s) ++ other_ids) →
  RunOnInstruction matcher cfg h s = (OK, s') →
  NoDup (channel_ids_of (computation s') ++ other_ids).
Proof.
  intros (Hids & _) Hnodup.
  destruct (RunOnInstruction_cases matcher cfg h s)
    as [->|(ar & ar_spec & Har & Hop & Hm)]; [by intros [= <-]|].
  rewrite (RunOnInstruction_matched matcher cfg s h ar ar_spec Har Hop Hm).
  destruct (dimensions_at _ _) as [dim|]; [|done].
  destruct (group_size ar_spec =? 0); [done|].
  destruct (negb _); [done|]. cbv zeta.
  destruct (find_instruction _ (dynamic_slice ar_spec)) as [ds|]; [|done].
  destruct (operand ds 0); [|done].
  pose proof (channel_ids_of_RemoveDeadInstructions (dynamic_slice ar_spec)
    (add_replacement (computation s) h ar ar_spec ds
       (scatter_channel ar (next_channel_id s)).1).1
    (intervening_reshape h ds) h
    (add_replacement (computation s) h ar ar_spec ds
       (scatter_channel ar (next_channel_id s)).1).2) as Hsub.
  destruct (RemoveDeadInstructions _ _ _ _ _) as [[] c'] eqn:Hdead; [|done..].
  intros [= <-]. simpl in *.
  rewrite channel_ids_of_add_replacement in Hsub.
  eapply sublist_NoDup; [|apply sublist_app; [exact Hsub|done]].
  unfold scatter_channel. destruct (channel_id ar); simpl.
  - rewrite <- app_assoc. simpl. rewrite <- Permutation_middle.
    apply list.NoDup_cons. split; [|done].
    intros Hin. apply elem_of_app in Hin. specialize (Hids _ Hin). lia.
  - by rewrite app_nil_r.
Qed.

Lemma sweep_unique l s s' :
  counter_ahead first other_ids other_all_reduces s →
  NoDup (channel_ids_of (computation s) ++ other_ids) →
  for_each (RunOnInstruction matcher cfg) l s = (OK, s') →
  counter_ahead first other_ids other_all_reduces s'
  ∧ NoDup (channel_ids_of (computation s') ++ other_ids).
Proof.
  intros Hahead Hnodup.
  apply (for_each_invariant _
           (λ s, counter_ahead first other_ids other_all_reduces s
                 ∧ NoDup (channel_ids_of (computation s) ++ other_ids)));
    [|done].
  intros h s1 s2 [H1 N1] H2. split.
  - by destruct (RunOnInstruction_counter matcher cfg first other_ids
                   other_all_reduces h s1 OK s2 H1 H2) as [H _]; auto.
  - by eapply RunOnInstruction_unique.
Qed.
End Unique.

Lemma channel_ids_insert_Permutation cs index c c' :
  cs !! index = Some c →
  (<[index := c']> cs ≫= channel_ids_of)
  ≡ₚ channel_ids_of c' ++ (others index cs ≫= channel_ids_of).
Proof.
  intros Hc. rewrite insert_take_drop by (by eapply lookup_lt_Some).
  unfold others. rewrite !bind_app, bind_cons, !app_assoc.
  f_equiv. apply Permutation_app_comm.
Qed.

Lemma RunOnComputation_unique matcher first index s s' :
  run_ahead first s → NoDup (channel_ids (module s)) →
  RunOnComputation matcher index s = (OK, s') →
  NoDup (channel_ids (module s')).
Proof.
  intros Hahead Hnodup.
  destruct (computations (module s) !! index) as [c|] eqn:Hc.
  - rewrite (RunOnComputation_result matcher index s c Hc).
    destruct (for_each _ _ _) as [st l] eqn:Hloop. simpl. intros [= -> <-].
    simpl. unfold channel_ids, module_during. simpl.
    rewrite (channel_ids_insert_Permutation _ index c) by done.
    eapply (sweep_unique matcher (config (module s)) first).
    + by apply run_ahead_sweep.
    + simpl. rewrite <- (channel_ids_insert_Permutation _ index c) by done.
      by rewrite list_insert_id.
    + exact Hloop.
  - unfold RunOnComputation. rewrite Hc. by intros [= <-].
Qed.

(** X9. Whatever the matcher accepts, a run that returns a value keeps channel
    ids unique: when no two instructions of the module share a channel id
    before [Run], none do afterwards, the new reduce-scatters included. The
    ids are int64 values: the module's ids are below [int64_max], with room
    for one new id per all-reduce that carries one. *)
Theorem Run_keeps_channel_ids_unique matcher m flag m' :
  (∀ id, id ∈ channel_ids m → int64_min ≤ id < int64_max) →
  NextChannelId m + Z.of_nat (module_channel_all_reduces m) ≤ int64_max →
  NoDup (channel_ids m) →
  Run matcher m = (Value flag, m') →
  NoDup (channel_ids m').
Proof.
  intros Hrange Hroom Hnodup Hrun.
  apply Run_Value in Hrun as (s & Hloops & _ & <-).
  unfold RunLoops in Hloops.
  apply (for_each_invariant _
           (λ s, run_ahead (NextChannelId m) s ∧ NoDup (channel_ids (module s))))
    in Hloops as [_ H]; [done| |].
  - intros index s1 s2 [H1 N1] H2. split.
    + by eapply RunOnComputation_ahead.
    + by eapply RunOnComputation_unique.
  - split; [by apply run_ahead_initially|done].
Qed.

(** ** The properties of a run, on the modules of the tests *)

Lemma Run_false_leaves_module_witness :
  (Run MatchAllReduceScatter AllReplicasWrongOffsets).2 = AllReplicasWrongOffsets.
Proof.
  apply (Run_false_leaves_module MatchAllReduceScatter AllReplicasWrongOffsets).
  evaluated.
Defined.

Lemma Run_true_removes_all_reduce_witness :
  (module_all_reduces (Run MatchAllReduceScatter AllReplicas).2
   < module_all_reduces AllReplicas)%nat.
Proof.
  apply (Run_true_removes_all_reduce MatchAllReduceScatter AllReplicas).
  evaluated.
Defined.

Lemma Run_replaces_only_witness :
  ∃ c, computations AllReplicasWithReshape !! 1%nat = Some c
       ∧ replaced c
           (default sum
              (computations (Run MatchAllReduceScatter AllReplicasWithReshape).2
               !! 1%nat)).
Proof.
  apply (Run_replaces_only MatchAllReduceScatter AllReplicasWithReshape 1%nat).
  evaluated.
Defined.

Lemma Run_leaves_nothing_dangling_witness :
  references_closed
    (default sum
       (computations (Run MatchAllReduceScatter AllReplicasWithReshape).2
        !! 1%nat)).
Proof.
  apply (Run_leaves_nothing_dangling MatchAllReduceScatter AllReplicasWithReshape
           1%nat (default sum (computations AllReplicasWithReshape !! 1%nat))).
  - evaluated.
  - apply references_closed_check_true. evaluated.
  - evaluated.
Defined.

Lemma RunPass_expectation_witness :
  (module_all_reduces (Run MatchAllReduceScatter AllReplicas).2
   < sum_list_with AllReduceCount (computations AllReplicas))%nat.
Proof.
  apply (RunPass_expectation MatchAllReduceScatter (computations AllReplicas)
           8 1 true).
  evaluated.
Defined.

Lemma new_channel_ids_are_consecutive_witness :
  omap minted (visits MatchAllReduceScatter AllPartitions)
  = seqZ (NextChannelId AllPartitions)
         (Z.of_nat (length (omap minted
                              (visits MatchAllReduceScatter AllPartitions)))).
Proof.
  apply (new_channel_ids_are_consecutive MatchAllReduceScatter AllPartitions).
  - intros id Hid. apply list_elem_of_In in Hid.
    vm_compute in Hid. destruct Hid as [<-|[]]. done.
  - by vm_compute.
Defined.

Lemma Run_keeps_channel_ids_unique_witness :
  NoDup (channel_ids (Run MatchAllReduceScatter AllPartitions).2).
Proof.
  apply (Run_keeps_channel_ids_unique MatchAllReduceScatter AllPartitions true).
  - intros id Hid. apply list_elem_of_In in Hid.
    vm_compute in Hid. destruct Hid as [<-|[]]. done.
  - by vm_compute.
  - apply (bool_decide_unpack _). by vm_compute.
  - evaluated.
Defined.

(** ** A run in which nothing matches *)

(** X10. When the matcher accepts none of the all-reduces of the module's
    non-fusion computations, [Run] returns changed = false, without an error,
    and leaves the module as it was: every all-reduce takes the continue of
    line 47. *)
Theorem Run_without_match matcher m :
  (∀ index c h ar,
     computations m !! index = Some c → IsFusionComputation c = false →
     find_instruction c h = Some ar → opcode ar = kAllReduce →
     matcher c h (num_partitions (config m)) (replica_count (config m))
             false true = None) →
  Run matcher m = (Value false, m).
Proof.
  intros Hnone. unfold Run, RunLoops. rewrite for_each_unchanged; [done|].
  intros index Hindex.
  apply elem_of_MakeNonfusionComputations in Hindex as (c & Hc & Hf).
  unfold RunOnComputation. simpl. rewrite Hc.
  rewrite for_each_unchanged.
  - simpl. rewrite list_insert_id by done. by rewrite module_eta.
  - intros h _. apply RunOnInstruction_unmatched. simpl.
    intros ar ar_spec Har Hop. by rewrite (Hnone index c h ar).
Qed.

Lemma Run_without_match_witness :
  Run MatchAllReduceScatter AllReplicasWrongOffsets
  = (Value false, AllReplicasWrongOffsets).
Proof.
  apply (Run_without_match MatchAllReduceScatter AllReplicasWrongOffsets).
  intros index c h ar Hc _ Har Hop.
  apply find_instruction_Some, list_elem_of_In in Har.
  destruct index as [|[|index]]; [| |done]; injection Hc as <-;
    vm_compute in Har;
    repeat (destruct Har as [Har|Har]; [injection Har as <- <-|]);
    try done; by vm_compute.
Defined.
